(** * courtscraper: a model of [app.py] and the properties of its scraping core

    The development follows the source file top-down: Python text and the
    [re] calls the extractors make, the BeautifulSoup tree the listing parser
    walks, the Selenium session the locators and the workflow drive, and the
    Streamlit session state that sequences a run.  Names are the source's. *)

From Stdlib Require Import String Ascii Bool Arith NArith ZArith Lia Permutation Sorted List.
Import ListNotations.

Set Implicit Arguments.

(** ** Python text *)

(** A Python [str] is a sequence of Unicode code points. *)
Module Py.

Abbreviation codepoint := N.
Abbreviation str := (list N).

(** ASCII source literals, code point by code point. *)
Definition lit (s : string) : str := map N_of_ascii (list_ascii_of_string s).

(** The part of the Unicode database the source relies on through [str.strip],
    [\s], [\w] and [\d]: which code points above the ASCII range are white
    space, alphanumeric, decimal digits.  The tables ship with the interpreter,
    so they are a parameter of the model. *)
Record UnicodeDB := {
  uni_space : codepoint -> bool;
  uni_alnum : codepoint -> bool;
  uni_decimal : codepoint -> bool
}.

Section Classes.
Variable db : UnicodeDB.

Definition in_range (lo hi c : N) : bool := ((lo <=? c) && (c <=? hi))%N.

Definition is_ascii (c : N) : bool := (c <? 128)%N.

(** [Py_UNICODE_ISSPACE]: the ASCII table has TAB..CR, FS..US and the blank. *)
Definition isspace (c : N) : bool :=
  if is_ascii c then in_range 9 13 c || in_range 28 32 c else uni_space db c.

Definition ascii_digit (c : N) : bool := in_range 48 57 c.
Definition ascii_upper (c : N) : bool := in_range 65 90 c.
Definition ascii_lower (c : N) : bool := in_range 97 122 c.
Definition ascii_alnum (c : N) : bool := ascii_digit c || ascii_upper c || ascii_lower c.

(** [\d] on a [str] pattern: any decimal digit. *)
Definition isdecimal (c : N) : bool :=
  if is_ascii c then ascii_digit c else uni_decimal db c.

(** [\w] on a [str] pattern: alphanumeric or the underscore. *)
Definition isword (c : N) : bool :=
  if is_ascii c then ascii_alnum c || (c =? 95)%N else uni_alnum db c.

(** [s.strip()] *)
Fixpoint lstrip (s : str) : str :=
  match s with
  | c :: s' => if isspace c then lstrip s' else s
  | [] => []
  end.
Definition rstrip (s : str) : str := rev (lstrip (rev s)).
Definition strip (s : str) : str := rstrip (lstrip s).

End Classes.

(** [s[i:j]], [s[i:]] for indices within range. *)
Definition slice (s : str) (i j : nat) : str := firstn (j - i) (skipn i s).

Fixpoint eqb (a b : str) : bool :=
  match a, b with
  | [], [] => true
  | x :: a', y :: b' => (x =? y)%N && eqb a' b'
  | _, _ => false
  end.

Fixpoint startswith (s p : str) : bool :=
  match p, s with
  | [], _ => true
  | x :: p', y :: s' => (x =? y)%N && startswith s' p'
  | _ :: _, [] => false
  end.

(** [p in s] *)
Fixpoint contains (p s : str) : bool :=
  startswith s p || match s with [] => false | _ :: s' => contains p s' end.

End Py.

(** ** The [re] calls of the source

    The patterns of [app.py] are built from literals, character sets, greedy
    repetition of a set, [\b], sequence, ordered alternation and groups; the
    matcher below is the backtracking search of [re] restricted to those forms
    (leftmost start, alternatives in order, greedy repetition giving back one
    character at a time). *)
Module Re.
Import Py.

Inductive item :=
| Ch (c : N)            (* a character *)
| Rg (lo hi : N)        (* a range lo-hi *)
| CatS                  (* \s *)
| CatD                  (* \d *)
| CatW.                 (* \w *)

Definition cset := list item.

Inductive regex :=
| Lit (s : str)                                 (* literal text *)
| Set_ (cs : cset)                              (* one character of a set *)
| Rep (cs : cset) (lo : nat) (hi : option nat)  (* greedy {lo,hi}, * and + *)
| WordB                                         (* \b *)
| Seq (r1 r2 : regex)
| Alt (r1 r2 : regex)
| Group (n : nat) (r : regex).

Definition star cs := Rep cs 0 None.
Definition plus cs := Rep cs 1 None.

(** Group spans, innermost binding first. *)
Definition caps := list (nat * (nat * nat)).

Fixpoint get_cap (n : nat) (c : caps) : option (nat * nat) :=
  match c with
  | [] => None
  | (m, v) :: c' => if Nat.eqb m n then Some v else get_cap n c'
  end.

Record match_ := { m_start : nat; m_end : nat; m_caps : caps }.

Section Engine.
Variable db : UnicodeDB.
(** [re.IGNORECASE] *)
Variable ic : bool.

(** Under IGNORECASE a pattern character [l] accepts [c] when their lower
    cases agree, or through the two extra pairs [sre] adds (i with dotless i,
    s with long s).  [variants c] lists the ASCII characters that accept [c]:
    both cases of a letter, and for U+0130, U+0131, U+017F, U+212A the letter
    they fold to. *)
Definition variants (c : N) : list N :=
  if ascii_upper c then [c; c + 32]%N
  else if ascii_lower c then [c; c - 32]%N
  else if ((c =? 304) || (c =? 305))%N then [c; 105; 73]%N
  else if (c =? 383)%N then [c; 115; 83]%N
  else if (c =? 8490)%N then [c; 107; 75]%N
  else [c].

Definition forms (c : N) : list N := if ic then variants c else [c].

Definition in_item (c : N) (it : item) : bool :=
  match it with
  | Ch l => existsb (N.eqb l) (forms c)
  | Rg lo hi => existsb (in_range lo hi) (forms c)
  | CatS => isspace db c
  | CatD => isdecimal db c
  | CatW => isword db c
  end.

Definition in_set (cs : cset) (c : N) : bool := existsb (in_item c) cs.

Definition lit_char (l c : N) : bool := existsb (N.eqb l) (forms c).

Section Subject.
Variable s : str.

Definition char_at (i : nat) : option N := nth_error s i.

Definition test_at (p : N -> bool) (i : nat) : bool :=
  match char_at i with Some c => p c | None => false end.

(** [\b]: exactly one side of position [i] is a word character. *)
Definition word_boundary (i : nat) : bool :=
  xorb (match i with 0 => false | S j => test_at (isword db) j end)
       (test_at (isword db) i).

(** Length of the longest run of [p] at the head of [t], at most [hi]. *)
Fixpoint run (p : N -> bool) (hi : option nat) (t : str) : nat :=
  match hi with
  | Some 0 => 0
  | _ =>
    match t with
    | c :: t' =>
      if p c then S (run p (match hi with Some (S h) => Some h | _ => None end) t')
      else 0
    | [] => 0
    end
  end.

(** Greedy repetition: try the continuation after [cnt] characters, then
    after fewer, never fewer than [lo]. *)
Fixpoint try_down (A : Type) (k : nat -> option A) (base lo cnt : nat) : option A :=
  if cnt <? lo then None
  else match k (base + cnt) with
       | Some x => Some x
       | None => match cnt with 0 => None | S c' => try_down k base lo c' end
       end.

Fixpoint lit_at (l : str) (i : nat) : option nat :=
  match l with
  | [] => Some i
  | x :: l' => if test_at (lit_char x) i then lit_at l' (S i) else None
  end.

Fixpoint mt (A : Type) (r : regex) (i : nat) (c : caps)
    (k : nat -> caps -> option A) : option A :=
  match r with
  | Lit l => match lit_at l i with Some j => k j c | None => None end
  | Set_ cs => if test_at (in_set cs) i then k (S i) c else None
  | Rep cs lo hi =>
      try_down (fun j => k j c) i lo (run (in_set cs) hi (skipn i s))
  | WordB => if word_boundary i then k i c else None
  | Seq r1 r2 => mt r1 i c (fun j c' => mt r2 j c' k)
  | Alt r1 r2 =>
      match mt r1 i c k with Some x => Some x | None => mt r2 i c k end
  | Group n r' => mt r' i c (fun j c' => k j ((n, (i, j)) :: c'))
  end.

(** A match of [r] starting exactly at [i]. *)
Definition match_at (r : regex) (i : nat) : option match_ :=
  mt r i [] (fun j c => Some {| m_start := i; m_end := j; m_caps := c |}).

(** Start positions [i], [i+1], ..., [i+n], leftmost first. *)
Fixpoint search_at (r : regex) (n i : nat) : option match_ :=
  match match_at r i with
  | Some m => Some m
  | None => match n with 0 => None | S n' => search_at r n' (S i) end
  end.

(** [re.search(r, s)] *)
Definition search (r : regex) : option match_ := search_at r (length s) 0.

(** [m.group(0)], [m.group(n)] *)
Definition group0 (m : match_) : str := slice s (m_start m) (m_end m).
Definition group (n : nat) (m : match_) : option str :=
  option_map (fun se => slice s (fst se) (snd se)) (get_cap n (m_caps m)).

(** [re.findall(r, s)] for a pattern without groups: the successive
    non-overlapping matches, left to right.  After a match ending at [e] the
    scan resumes at [e] (one further when the match was empty). *)
Fixpoint findall_from (r : regex) (fuel pos : nat) : list str :=
  match fuel with
  | 0 => []
  | S f =>
    match search_at r (length s - pos) pos with
    | None => []
    | Some m =>
      group0 m ::
      (let nxt := if m_end m =? m_start m then S (m_end m) else m_end m in
       if length s <? nxt then [] else findall_from r f nxt)
    end
  end.

Definition findall (r : regex) : list str := findall_from r (S (length s)) 0.

End Subject.
End Engine.
End Re.

(** ** Field extraction from the text of a detail page
    ([extract_case_details], after [soup.get_text(" ", strip=True)]) *)

Import Py Re.

Definition UPPER_OR_DIGIT : cset := [Rg 65 90; Rg 48 57].

(** [r'\b([A-Z0-9]{16})\s*\(Note the CNR number'], searched with
    [re.IGNORECASE]. *)
Definition CNR_NOTE_REGEX : regex :=
  Seq WordB
 (Seq (Group 1 (Rep UPPER_OR_DIGIT 16 (Some 16)))
 (Seq (star [CatS])
      (Lit (lit "(Note the CNR number")))).

(** [r'\b[A-Z0-9]{16}\b'], searched without flags. *)
Definition CNR_FALLBACK_REGEX : regex :=
  Seq WordB (Seq (Rep UPPER_OR_DIGIT 16 (Some 16)) WordB).

Section Details.
Variable db : UnicodeDB.

(** The value stored under ["CNR Number"]; [None] is the initial entry left
    untouched. *)
Definition cnr_number (text : str) : option str :=
  match search db true text CNR_NOTE_REGEX with
  | Some cnr_match =>
      option_map (strip db) (group text 1 cnr_match)
  | None =>
      match search db false text CNR_FALLBACK_REGEX with
      | Some fallback => Some (strip db (group0 text fallback))
      | None => None
      end
  end.


(** The four labelled keys of [details], in dictionary order after
    ["CNR Number"]. *)
Inductive detail_key := Case_Type | Court_Number_and_Judge | Filing_Number | Registration_Number.

Definition key_text (k : detail_key) : str :=
  match k with
  | Case_Type => lit "Case Type"
  | Court_Number_and_Judge => lit "Court Number and Judge"
  | Filing_Number => lit "Filing Number"
  | Registration_Number => lit "Registration Number"
  end.

(** [[:\-\s]] and [[A-Za-z0-9\/\.\-\s]] *)
Definition SEPARATORS : cset := [Ch 58; Ch 45; CatS].
Definition VALUE_CHARS : cset := [Rg 65 90; Rg 97 122; Rg 48 57; Ch 47; Ch 46; Ch 45; CatS].

(** [rf"{key}[:\-\s]*([A-Za-z0-9\/\.\-\s]+)"], compiled with
    [re.IGNORECASE]. *)
Definition field_regex (key : str) : regex :=
  Seq (Lit key) (Seq (star SEPARATORS) (Group 1 (plus VALUE_CHARS))).

Definition labeled_field (k : detail_key) (text : str) : option str :=
  match search db true text (field_regex (key_text k)) with
  | Some m => option_map (strip db) (group text 1 m)
  | None => None
  end.

(** The [details] dictionary; an entry is [None] until a search fills it. *)
Record details := {
  d_cnr : option str;
  d_case_type : option str;
  d_court_and_judge : option str;
  d_filing : option str;
  d_registration : option str
}.

Definition no_details : details :=
  {| d_cnr := None; d_case_type := None; d_court_and_judge := None;
     d_filing := None; d_registration := None |}.

(** Lines 290-308 of [extract_case_details], from [text] on. *)
Definition details_of_text (text : str) : details :=
  {| d_cnr := cnr_number text;
     d_case_type := labeled_field Case_Type text;
     d_court_and_judge := labeled_field Court_Number_and_Judge text;
     d_filing := labeled_field Filing_Number text;
     d_registration := labeled_field Registration_Number text |}.

End Details.

(** ** Hearing dates of a listing row *)

(** A [datetime.date], identified by its proleptic Gregorian ordinal
    ([date.toordinal]): 1 is 0001-01-01, [MAXORDINAL] is 9999-12-31. *)
Abbreviation date := Z.
Definition MAXORDINAL : Z := 3652059.

(** [d + datetime.timedelta(days=n)]; [None] is the [OverflowError] raised
    when the result leaves the range of [date]. *)
Definition date_add_days (d : date) (n : Z) : option date :=
  let o := (d + n)%Z in
  if ((0 <? o) && (o <=? MAXORDINAL))%Z then Some o else None.

(** [DATE_LABEL_REGEX], compiled with [re.IGNORECASE]:
    [(Next\s+Hearing\s+Date|Next\s+Date|Next\s+Hearing|NextDate)[:\-\s]*] *)
Definition DATE_LABEL_WORDS : regex :=
  Alt (Seq (Lit (lit "Next")) (Seq (plus [CatS])
      (Seq (Lit (lit "Hearing")) (Seq (plus [CatS]) (Lit (lit "Date"))))))
 (Alt (Seq (Lit (lit "Next")) (Seq (plus [CatS]) (Lit (lit "Date"))))
 (Alt (Seq (Lit (lit "Next")) (Seq (plus [CatS]) (Lit (lit "Hearing"))))
      (Lit (lit "NextDate")))).

Definition DATE_LABEL_REGEX : regex :=
  Seq (Group 1 DATE_LABEL_WORDS) (star SEPARATORS).

(** [[\/\-\.]] *)
Definition DATE_SEP : cset := [Ch 47; Ch 45; Ch 46].

(** [\d{1,2}[\/\-\.]\d{1,2}[\/\-\.]\d{2,4}] *)
Definition DMY_REGEX : regex :=
  Seq (Rep [CatD] 1 (Some 2)) (Seq (Set_ DATE_SEP)
 (Seq (Rep [CatD] 1 (Some 2)) (Seq (Set_ DATE_SEP)
      (Rep [CatD] 2 (Some 4))))).

(** [\d{1,2}\s+\w+\s+\d{4}] *)
Definition D_MONTH_Y_REGEX : regex :=
  Seq (Rep [CatD] 1 (Some 2)) (Seq (plus [CatS])
 (Seq (plus [CatW]) (Seq (plus [CatS])
      (Rep [CatD] 4 (Some 4))))).

(** The pattern searched after the label: either form. *)
Definition DATE_TOKEN_REGEX : regex := Alt DMY_REGEX D_MONTH_Y_REGEX.

Section HearingDate.
Variable db : UnicodeDB.
(** Set at import time by the [try: from dateutil import parser]. *)
Variable DATEUTIL_AVAILABLE : bool.
(** [dateparser.parse(text, dayfirst=...)] followed by [.date()]: the date
    read, or [None] when the call raises. *)
Variable dateparser_parse : forall (dayfirst : bool) (text : str), option date.

Definition parse_date_nullable (text : str) : option date :=
  if negb DATEUTIL_AVAILABLE then None
  else dateparser_parse true text.

(** The body of the row loop of [extract_cases_from_soup] that computes
    [next_hearing_date] from [row_text]. *)
Definition next_hearing_date_of (row_text : str) : option date :=
  let next_hearing_date :=
    match search db true row_text DATE_LABEL_REGEX with
    | Some m =>
        let after := strip db (skipn (m_end m) row_text) in
        match findall db false after DATE_TOKEN_REGEX with
        | token0 :: _ => parse_date_nullable token0
        | [] => None
        end
    | None => None
    end in
  match next_hearing_date with
  | Some d => Some d
  | None =>
      match findall db false row_text DMY_REGEX with
      | token0 :: _ =>
          if contains (lit "Next") row_text then parse_date_nullable token0 else None
      | [] => None
      end
  end.

End HearingDate.

(** ** The parsed page ([BeautifulSoup(driver.page_source, "html.parser")]) *)
Module Bs.

#[local] Set Warnings "-register-all".

(** A tree of tags and strings.  [Special] stands for the strings
    [get_text] leaves out: comments, declarations, script and style bodies. *)
Inductive node :=
| Tag (name : string) (attrs : list (string * str)) (contents : list node)
| NavigableString (s : str)
| Special (s : str).

(** [tag.descendants]: every node below [n], in document order. *)
Fixpoint descendants (n : node) : list node :=
  match n with
  | Tag _ _ cs => flat_map (fun c => c :: descendants c) cs
  | _ => []
  end.

Definition named (names : list string) (n : node) : bool :=
  match n with
  | Tag nm _ _ => existsb (String.eqb nm) names
  | _ => false
  end.

(** [tag.find_all(names)] and [tag.find(names)] *)
Definition find_all (names : list string) (n : node) : list node :=
  filter (named names) (descendants n).
Definition find (names : list string) (n : node) : option node :=
  hd_error (find_all names n).

(** [tag.get(attr)] *)
Definition get_attr (a : string) (n : node) : option str :=
  match n with
  | Tag _ attrs _ =>
      option_map snd (List.find (fun kv => String.eqb (fst kv) a) attrs)
  | _ => None
  end.

Fixpoint join (sep : str) (l : list str) : str :=
  match l with
  | [] => []
  | [x] => x
  | x :: l' => x ++ sep ++ join sep l'
  end.

Section Text.
Variable db : UnicodeDB.

(** The strings [_all_strings(strip=True)] yields: each plain string
    stripped, the empty ones dropped. *)
Definition stripped_strings (n : node) : list str :=
  flat_map (fun d =>
      match d with
      | NavigableString s =>
          match strip db s with [] => [] | s' => [s'] end
      | _ => []
      end)
    (descendants n).

(** [tag.get_text(sep, strip=True)] *)
Definition get_text (sep : str) (n : node) : str := join sep (stripped_strings n).

End Text.
End Bs.

(** ** Listing rows ([extract_cases_from_soup]) *)

(** One entry of [cases]: the dictionary with keys ["serial"], ["cols"],
    ["court_name"], ["next_hearing_date"]. *)
Record case := {
  serial : str;
  cols : list str;
  court_name : str;
  next_hearing_date : option date
}.

Section Listing.
Variable db : UnicodeDB.
Variable BEAUTIFULSOUP_AVAILABLE : bool.
Variable DATEUTIL_AVAILABLE : bool.
Variable dateparser_parse : forall (dayfirst : bool) (text : str), option date.

(** [[c.get_text(" ", strip=True) for c in tr.find_all(["td", "th"])]] *)
Definition row_cols (tr : Bs.node) : list str :=
  map (Bs.get_text db (lit " ")) (Bs.find_all ["td"; "th"]%string tr).

(** The dictionary appended for a row that has cells. *)
Definition case_of_row (court : str) (tr : Bs.node) : case :=
  let cols := row_cols tr in
  let serial := match cols with c0 :: _ => c0 | [] => [] end in
  let row_text := Bs.get_text db (lit " ") tr in
  {| serial := strip db serial;
     cols := cols;
     court_name := court;
     next_hearing_date :=
       next_hearing_date_of db DATEUTIL_AVAILABLE dateparser_parse row_text |}.

(** [for tr in rows[1:]: ...], threading the list [cases]. *)
Fixpoint rows_loop (court : str) (rows : list Bs.node) (cases : list case) : list case :=
  match rows with
  | [] => cases
  | tr :: rest =>
      match row_cols tr with
      | [] => rows_loop court rest cases                      (* continue *)
      | _ :: _ => rows_loop court rest (cases ++ [case_of_row court tr])
      end
  end.

Definition extract_cases_from_soup (soup_obj : Bs.node) : list case :=
  if negb BEAUTIFULSOUP_AVAILABLE then []
  else
    match Bs.find ["table"]%string soup_obj with
    | None => []
    | Some table =>
        let rows := Bs.find_all ["tr"]%string table in
        let court_name :=
          match Bs.find ["h1"; "h2"; "h3"]%string soup_obj with
          | Some h => Bs.get_text db [] h
          | None => lit "Unknown Court"
          end in
        rows_loop court_name (tl rows) []
    end.

(** The court name every row of a page gets: the text of the first
    heading, or the default. *)
Definition court_of (soup_obj : Bs.node) : str :=
  match Bs.find ["h1"; "h2"; "h3"]%string soup_obj with
  | Some h => Bs.get_text db [] h
  | None => lit "Unknown Court"
  end.

Definition has_cells (tr : Bs.node) : bool :=
  match row_cols tr with [] => false | _ :: _ => true end.

End Listing.

(** [l] is [l'] with some elements left out, the others in their order. *)
Inductive subsequence {A} : list A -> list A -> Prop :=
| sub_nil : subsequence [] []
| sub_skip x l l' : subsequence l l' -> subsequence l (x :: l')
| sub_keep x l l' : subsequence l l' -> subsequence (x :: l) (x :: l').

(** The hearing of [c] is on [today] or the day after. *)
Definition due (today : date) (c : case) : bool :=
  match next_hearing_date c with
  | Some listed => ((listed =? today) || (listed =? today + 1))%Z
  | None => false
  end.

(** ** The browser session and the other collaborators

    Selenium, [requests], the file system, SQLite and the clock are outside
    the program.  Their joint state is a [World]; a lookup reads it, a command
    changes it.  Lookups may come back empty ([find_element] raising
    [NoSuchElementException] is [None]); the other calls return.  Every
    command sent to a browser session is recorded, oldest first. *)
Module Web.

Inductive by_ :=
| XPATH (v : str)
| LINK_TEXT (v : str)
| TAG_NAME (v : str).

(** [el.click()] and [driver.execute_script("arguments[0].click();", el)] *)
Inductive click_kind := Native | Script.

Section Env.
Variables World Driver Elem : Type.

(** Where a lookup starts: the whole page or an element. *)
Inductive context := OfDriver (d : Driver) | OfElem (e : Elem).

Inductive command :=
| NewSession                       (* webdriver.Chrome(options=...) *)
| Get (d : Driver) (url : str)     (* driver.get(url) *)
| Click (k : click_kind) (e : Elem)
| Clear (e : Elem)
| SendKeys (e : Elem) (v : str)
| Screenshot (e : Elem) (path : str)
| Back (d : Driver)                (* driver.back() *)
| PageSource (d : Driver)          (* driver.page_source *)
| PrintToPDF (d : Driver)          (* execute_cdp_cmd("Page.printToPDF", ...) *)
| Quit (d : Driver).               (* driver.quit() / driver.close() *)

(** What a saved case carries to [save_case_to_db]. *)
Record db_row := {
  row_case : case;
  row_details : details;
  row_pdf_path : option str;
  row_additional_pdfs : list str
}.

Record env := {
  (* lookups *)
  w_find_element : World -> context -> by_ -> option Elem;
  w_find_elements : World -> context -> by_ -> list Elem;
  w_text : World -> Elem -> str;
  w_get_attribute : World -> Elem -> string -> option str;
  w_is_enabled : World -> Elem -> bool;
  w_page_source : World -> Driver -> Bs.node;
  w_current_url : World -> Driver -> str;
  w_today : World -> date;
  (* commands on a session *)
  w_new_chrome : World -> option Driver * World;
  w_get : Driver -> str -> World -> bool * World;
  w_click : click_kind -> Elem -> World -> World;
  w_clear : Elem -> World -> World;
  w_send_keys : Elem -> str -> World -> World;
  w_screenshot : Elem -> str -> World -> World;
  w_back : Driver -> World -> World;
  w_print_to_pdf : Driver -> str -> World -> bool * World;
  (* time, network, files, database *)
  w_sleep : nat -> World -> World;
  w_fetch_image : Driver -> str -> str -> World -> bool * World;
  w_download : str -> str -> World -> option str * World;
  w_save_case : db_row -> World -> nat * World;
  (* urllib.parse.urljoin; None is the ValueError it raises on an address it
     cannot split (a bracket in the host that closes no IPv6 address) *)
  urljoin : str -> str -> option str
}.

Variable E : env.

Record state := { world : World; sent : list command }.

Definition M (A : Type) : Type := state -> A * state.

Definition ret {A} (a : A) : M A := fun s => (a, s).
Definition bind {A B} (m : M A) (k : A -> M B) : M B :=
  fun s => let (a, s') := m s in k a s'.

Definition look {A} (f : World -> A) : M A := fun s => (f (world s), s).

Definition act {A} (f : World -> A * World) : M A :=
  fun s => let (a, w) := f (world s) in (a, {| world := w; sent := sent s |}).

Definition send {A} (c : command) (f : World -> A * World) : M A :=
  fun s => let (a, w) := f (world s) in (a, {| world := w; sent := sent s ++ [c] |}).

Definition unit_ (f : World -> World) : World -> unit * World := fun w => (tt, f w).

End Env.

Arguments OfDriver {Driver Elem} d.
Arguments OfElem {Driver Elem} e.
Arguments NewSession {Driver Elem}.
Arguments Get {Driver Elem} d url.
Arguments Click {Driver Elem} k e.
Arguments Clear {Driver Elem} e.
Arguments SendKeys {Driver Elem} e v.
Arguments Screenshot {Driver Elem} e path.
Arguments Back {Driver Elem} d.
Arguments PageSource {Driver Elem} d.
Arguments PrintToPDF {Driver Elem} d.
Arguments Quit {Driver Elem} d.
Arguments ret {World Driver Elem A} a _.
Arguments bind {World Driver Elem A B} m k _.
Arguments look {World Driver Elem A} f _.
Arguments act {World Driver Elem A} f _.
Arguments send {World Driver Elem A} c f _.
Arguments unit_ {World} f _.

End Web.

(** ** The scraper functions of [app.py] *)

Import Web.

Declare Scope app_scope.
Delimit Scope app_scope with app.
Notation "x <- m ;; k" := (bind m (fun x => k))
  (at level 61, m at next level, right associativity) : app_scope.
Notation "m ;; k" := (bind m (fun _ => k))
  (at level 61, right associativity) : app_scope.
Open Scope app_scope.

(** The outcome written under ["Status"]: ["✅ Completed"] or
    ["❌ Failed - No View Button"]. *)
Inductive status := Completed | Failed_No_View_Button.

(** The dictionary [capture_case_details_automated] returns.  ["PDF Saved"]
    holds a check mark or a cross, ["Additional PDFs"] the number of
    attachments saved. *)
Record case_data := {
  Serial_Number : str;
  CNR_Number : option str;
  Case_Type_ : option str;
  Court_Number_and_Judge_ : option str;
  Filing_Number_ : option str;
  Registration_Number_ : option str;
  Court_Name : str;
  Next_Hearing_Date : option date;
  PDF_Saved : bool;
  Additional_PDFs : nat;
  Status : status
}.

(** What a run is set in: the collaborators, the Unicode tables, the import
    flags of the optional packages, [dateutil]'s parser and the download
    directory. *)
Record setting (World Driver Elem : Type) := {
  s_env : env World Driver Elem;
  s_tables : UnicodeDB;
  s_bs4 : bool;
  s_dateutil : bool;
  s_selenium : bool;
  s_parse : forall (dayfirst : bool) (text : str), option date;
  s_download_dir : str
}.

Section Scraper.
Variables World Driver Elem : Type.
Variable cfg : setting World Driver Elem.

Local Abbreviation E := (s_env cfg).
Local Abbreviation db := (s_tables cfg).
Local Abbreviation BEAUTIFULSOUP_AVAILABLE := (s_bs4 cfg).
Local Abbreviation DATEUTIL_AVAILABLE := (s_dateutil cfg).
Local Abbreviation SELENIUM_AVAILABLE := (s_selenium cfg).
Local Abbreviation dateparser_parse := (s_parse cfg).
Local Abbreviation DOWNLOAD_DIR := (s_download_dir cfg).
Local Abbreviation M := (Web.M World Driver Elem).

Definition find_element (c : context Driver Elem) (b : by_) : M (option Elem) :=
  look (fun w => w_find_element E w c b).
Definition find_elements (c : context Driver Elem) (b : by_) : M (list Elem) :=
  look (fun w => w_find_elements E w c b).
Definition text_of (e : Elem) : M str := look (fun w => w_text E w e).
Definition click (k : click_kind) (e : Elem) : M unit :=
  send (Click k e) (unit_ (w_click E k e)).
Definition back (d : Driver) : M unit := send (Back d) (unit_ (w_back E d)).
Definition time_sleep (ms : nat) : M unit := act (unit_ (w_sleep E ms)).
Definition page_soup (d : Driver) : M Bs.node :=
  send (PageSource d) (fun w => (w_page_source E w d, w)).

(** [webdriver.Chrome(options=chrome_options)] under [try]; the options and
    the implicit wait configure the session and are part of the world. *)
Definition setup_driver : M (option Driver) :=
  if negb SELENIUM_AVAILABLE then ret None
  else send NewSession (w_new_chrome E).

Definition CAPTCHA_IMG_XPATH : str :=
  lit "//img[contains(@src,'captcha') or contains(@id,'imgCaptcha') or @alt='Captcha']".

Definition save_captcha_image (driver : Driver) (save_path : str) : M (option str) :=
  if negb SELENIUM_AVAILABLE then ret None
  else
    captcha_img <- find_element (OfDriver driver) (XPATH CAPTCHA_IMG_XPATH) ;;
    match captcha_img with
    | None => ret None
    | Some img =>
        src <- look (fun w => w_get_attribute E w img "src") ;;
        match src with
        | Some ((_ :: _) as src') =>
            if startswith src' (lit "data:") then
              send (Screenshot img save_path)
                   (unit_ (w_screenshot E img save_path)) ;;
              ret (Some save_path)
            else
              ok <- act (w_fetch_image E driver src' save_path) ;;
              ret (if ok then Some save_path else None)
        | _ =>
            (* requests.get on an empty or missing address raises *)
            ret None
        end
    end.

Definition download_file (url dst_folder : str) : M (option str) :=
  act (w_download E url dst_folder).

Definition save_fullpage_pdf (driver : Driver) (output_path : str) : M bool :=
  if negb SELENIUM_AVAILABLE then ret false
  else send (PrintToPDF driver) (w_print_to_pdf E driver output_path).

Definition extract_case_details (driver : Driver) : M details :=
  if negb BEAUTIFULSOUP_AVAILABLE || negb SELENIUM_AVAILABLE then ret no_details
  else
    soup <- page_soup driver ;;
    let text := Bs.get_text db (lit " ") soup in
    ret (details_of_text db text).

Definition VIEW_LINK_XPATH : str :=
  lit "//a[contains(., 'View') or contains(., 'VIEW')]".
Definition VIEW_LINK_IN_ROW_XPATH : str :=
  lit ".//a[contains(., 'View') or contains(., 'VIEW')]".
Definition serial_cell_xpath (serial_number : str) : str :=
  lit "//td[contains(., '" ++ serial_number ++ lit "')]".

(** Strategy 1: the first View link whose enclosing row shows the serial. *)
Fixpoint click_view_link_of_row (serial_number : str) (view_links : list Elem) : M bool :=
  match view_links with
  | [] => ret false
  | link :: rest =>
      row <- find_element (OfElem link) (XPATH (lit "./ancestor::tr[1]")) ;;
      match row with
      | None => click_view_link_of_row serial_number rest
      | Some row =>
          row_text <- text_of row ;;
          if contains serial_number row_text then
            click Script link ;; time_sleep 3000 ;; ret true
          else click_view_link_of_row serial_number rest
      end
  end.

(** Strategy 3's loop: the first link with visible text. *)
Fixpoint click_first_labelled (all_links : list Elem) : M bool :=
  match all_links with
  | [] => ret false
  | link :: rest =>
      t <- text_of link ;;
      match strip db t with
      | [] => click_first_labelled rest
      | _ :: _ => click Script link ;; time_sleep 3000 ;; ret true
      end
  end.

(** The cell holding the serial, then its parent. *)
Definition row_of_serial (driver : Driver) (serial_number : str) : M (option Elem) :=
  serial_element <- find_element (OfDriver driver) (XPATH (serial_cell_xpath serial_number)) ;;
  match serial_element with
  | None => ret None
  | Some cell => find_element (OfElem cell) (XPATH (lit "./.."))
  end.

Definition find_and_click_view_button (driver : option Driver) (serial_number : str) : M bool :=
  time_sleep 2000 ;;
  match driver with
  | None => ret false             (* AttributeError, caught by the outer except *)
  | Some driver =>
    if negb SELENIUM_AVAILABLE then ret false   (* NameError of By, caught likewise *)
    else
      view_links <- find_elements (OfDriver driver) (XPATH VIEW_LINK_XPATH) ;;
      done1 <- click_view_link_of_row serial_number view_links ;;
      if done1 then ret true
      else
        row2 <- row_of_serial driver serial_number ;;
        links2 <- match row2 with
                  | Some row => find_elements (OfElem row) (XPATH VIEW_LINK_IN_ROW_XPATH)
                  | None => ret []
                  end ;;
        match links2 with
        | link :: _ => click Script link ;; time_sleep 3000 ;; ret true
        | [] =>
            row3 <- row_of_serial driver serial_number ;;
            match row3 with
            | Some row =>
                all_links <- find_elements (OfElem row) (TAG_NAME (lit "a")) ;;
                click_first_labelled all_links
            | None => ret false
            end
        end
  end.

Definition back_selectors : list str :=
  [lit "//a[contains(., 'Back')]";
   lit "//button[contains(., 'Back')]";
   lit "//input[@value='Back']";
   lit "//a[contains(@href, 'javascript:history.back()')]";
   lit "//a[contains(@onclick, 'back')]"].

Fixpoint click_first_back (driver : Driver) (selectors : list str) : M bool :=
  match selectors with
  | [] => ret false
  | selector :: rest =>
      back_btn <- find_element (OfDriver driver) (XPATH selector) ;;
      match back_btn with
      | Some b => click Script b ;; time_sleep 2000 ;; ret true
      | None => click_first_back driver rest
      end
  end.

(** Without Selenium every lookup raises the [NameError] of [By] inside its
    own [try], and the loop goes through the selectors in vain. *)
Definition click_back_button (driver : Driver) : M bool :=
  clicked <- (if negb SELENIUM_AVAILABLE then ret false
              else click_first_back driver back_selectors) ;;
  if clicked then ret true
  else back driver ;; time_sleep 2000 ;; ret true.

(** [a['href'].lower().endswith(".pdf")]: the last four characters are a
    dot and the letters p, d, f in either case (no other character has one of
    them as its lower case). *)
Definition lower_endswith_pdf (href : str) : bool :=
  match rev href with
  | f :: d :: p_ :: dot :: _ =>
      (((f =? 102) || (f =? 70)) && ((d =? 100) || (d =? 68))
       && ((p_ =? 112) || (p_ =? 80)) && (dot =? 46))%N
  | _ => false
  end.

(** [for a in soup_now.find_all("a", href=True): ...], threading [pdfs].
    [urljoin] stands outside every [try]: where it raises, the loop is left
    by the exception, and [None] is returned for it. *)
Fixpoint download_linked_pdfs (driver : Driver) (anchors : list Bs.node) (pdfs : list str)
    : M (option (list str)) :=
  match anchors with
  | [] => ret (Some pdfs)
  | a :: rest =>
      match Bs.get_attr "href" a with
      | Some a_href =>
          if lower_endswith_pdf a_href then
            base <- look (fun w => w_current_url E w driver) ;;
            match urljoin E base a_href with
            | None => ret None                  (* ValueError *)
            | Some href =>
                dl <- download_file href DOWNLOAD_DIR ;;
                match dl with
                | Some ((_ :: _) as local_name) =>
                    download_linked_pdfs driver rest (pdfs ++ [local_name])
                | _ => download_linked_pdfs driver rest pdfs
                end
            end
          else download_linked_pdfs driver rest pdfs
      | None => download_linked_pdfs driver rest pdfs
      end
  end.

Definition has_href (n : Bs.node) : bool :=
  match Bs.get_attr "href" n with Some _ => true | None => false end.

(** [os.path.join(DOWNLOAD_DIR, f"serial_{serial}.pdf")] *)
Definition pdf_path_of (serial : str) : str :=
  DOWNLOAD_DIR ++ lit "/serial_" ++ serial ++ lit ".pdf".

(** The dictionary returned when no View button was found. *)
Definition failed_case_data (c : case) : case_data :=
  {| Serial_Number := serial c;
     CNR_Number := None; Case_Type_ := None; Court_Number_and_Judge_ := None;
     Filing_Number_ := None; Registration_Number_ := None;
     Court_Name := court_name c;
     Next_Hearing_Date := next_hearing_date c;
     PDF_Saved := false;
     Additional_PDFs := 0;
     Status := Failed_No_View_Button |}.

(** The record of a completed capture. *)
Definition completed_case_data (c : case) (details : details) (pdf_saved : bool)
    (pdfs : list str) : case_data :=
  {| Serial_Number := serial c;
     CNR_Number := d_cnr details;
     Case_Type_ := d_case_type details;
     Court_Number_and_Judge_ := d_court_and_judge details;
     Filing_Number_ := d_filing details;
     Registration_Number_ := d_registration details;
     Court_Name := court_name c;
     Next_Hearing_Date := next_hearing_date c;
     PDF_Saved := pdf_saved;
     Additional_PDFs := length pdfs;
     Status := Completed |}.

(** [capture_case_details_automated]; [None] is an exception that leaves the
    function: the [NameError] of [BeautifulSoup] where the package is
    missing, or the [ValueError] of [urljoin].  Nothing in the function
    catches either. *)
Definition capture_case_details_automated (driver : option Driver) (c : case)
    : M (option case_data) :=
  let serial := serial c in
  found <- find_and_click_view_button driver serial ;;
  match found, driver with
  | true, Some driver =>
      time_sleep 3000 ;;
      let pdf_path := pdf_path_of serial in
      pdf_saved <- save_fullpage_pdf driver pdf_path ;;
      details <- extract_case_details driver ;;
      if negb BEAUTIFULSOUP_AVAILABLE then ret None       (* NameError *)
      else
        soup_now <- page_soup driver ;;
        pdfs <- download_linked_pdfs driver
                  (filter has_href (Bs.find_all ["a"]%string soup_now)) [] ;;
        match pdfs with
        | None => ret None                                (* ValueError *)
        | Some pdfs =>
            _ <- act (w_save_case E
                        {| row_case := c; row_details := details;
                           row_pdf_path := if pdf_saved then Some pdf_path else None;
                           row_additional_pdfs := pdfs |}) ;;
            went_back <- click_back_button driver ;;
            (if went_back then ret tt else back driver ;; time_sleep 2000) ;;
            ret (Some (completed_case_data c details pdf_saved pdfs))
        end
  | _, _ => ret (Some (failed_case_data c))
  end.

(** *** The Streamlit script *)

(** [st.session_state] *)
Record session_state := {
  current_step : nat;
  captured_cases : list case_data;
  matches : list case;
  all_cases : list case;
  driver : option Driver;
  capture_in_progress : bool;
  current_case_index : nat;
  captcha_value : str
}.

(** The state [main] initialises on the first run. *)
Definition initial_session_state : session_state :=
  {| current_step := 1; captured_cases := []; matches := []; all_cases := [];
     driver := None; capture_in_progress := false; current_case_index := 0;
     captcha_value := [] |}.

(** What the user did to trigger a script run; [Rerun] is a run no widget
    triggered ([st.rerun()]). *)
Inductive ui_event :=
| Rerun
| Press_Initialize                       (* "Initialize Browser Session" *)
| Press_Submit (captcha : str)           (* "Submit CAPTCHA and Scrape" *)
| Press_Refresh                          (* "Refresh CAPTCHA" *)
| Press_Start.                           (* "Start Automatic Capture of All Cases" *)

(** How a script run ends: [st.rerun()] was called, the script ran to its
    end and waits for the user, or an exception left it. *)
Inductive ending := Rerun_Requested | Waiting | Raised.

Definition ECOURTS_URL : str :=
  lit "https://services.ecourts.gov.in/ecourtindia_v6/?p=cause_list/index&app_token=999af70e3228e4c73736b14e53143cc8215edf44df7868a06331996cdf179d97#".

Definition max_pages : nat := 10.

Definition NEXT_LINK_XPATH : str :=
  lit "//a[contains(@class,'next') or contains(@aria-label,'Next')]".

(** The [while page_index <= max_pages] loop.  [fuel] bounds the unfolding;
    [None] is fuel running out while the loop condition still holds. *)
Fixpoint scrape_pages (fuel : nat) (d : Driver) (page_index : nat) (all_cases : list case)
    : M (option (list case)) :=
  if page_index <=? max_pages then
    match fuel with
    | 0 => ret None
    | S fuel' =>
        soup <- page_soup d ;;
        let cases := extract_cases_from_soup db BEAUTIFULSOUP_AVAILABLE
                       DATEUTIL_AVAILABLE dateparser_parse soup in
        let all_cases := all_cases ++ cases in
        next_btn <- find_element (OfDriver d) (LINK_TEXT (lit "Next")) ;;
        match next_btn with
        | Some next_btn =>
            enabled <- look (fun w => w_is_enabled E w next_btn) ;;
            if enabled then
              click Native next_btn ;; time_sleep 1500 ;;
              scrape_pages fuel' d (S page_index) all_cases
            else ret (Some all_cases)
        | None =>
            next_btn <- find_element (OfDriver d) (XPATH NEXT_LINK_XPATH) ;;
            match next_btn with
            | Some next_btn =>
                click Native next_btn ;; time_sleep 1500 ;;
                scrape_pages fuel' d (S page_index) all_cases
            | None => ret (Some all_cases)
            end
        end
    end
  else ret (Some all_cases).

(** [for c in all_cases: ...], threading [matches]. *)
Fixpoint filter_loop (today tomorrow : date) (all_cases matches : list case) : list case :=
  match all_cases with
  | [] => matches
  | c :: rest =>
      match next_hearing_date c with
      | Some listed =>
          if ((listed =? today) || (listed =? tomorrow))%Z
          then filter_loop today tomorrow rest (matches ++ [c])
          else filter_loop today tomorrow rest matches
      | None => filter_loop today tomorrow rest matches
      end
  end.

(** Lines 723-731: the rows whose hearing is today or tomorrow; [None] is
    the [OverflowError] of [today + timedelta(days=1)]. *)
Definition hearing_date_filter (today : date) (all_cases : list case) : option (list case) :=
  match date_add_days today 1 with
  | Some tomorrow => Some (filter_loop today tomorrow all_cases [])
  | None => None
  end.

Definition CAPTCHA_INPUT_XPATH : str :=
  lit "//input[contains(@id,'captcha') or contains(@name,'captcha')]".
Definition case_type_button_xpath (btn_text : str) : str :=
  lit "//button[contains(.,'" ++ btn_text ++ lit "') or //input[@value='" ++ btn_text ++ lit "']]".

Fixpoint click_case_type (d : Driver) (labels : list str) : M unit :=
  match labels with
  | [] => ret tt
  | btn_text :: rest =>
      btn <- find_element (OfDriver d) (XPATH (case_type_button_xpath btn_text)) ;;
      match btn with
      | Some btn => click Native btn
      | None => click_case_type d rest
      end
  end.

(** [process_scraping]; an exception caught by its outer handler leaves the
    session state as it was.  Without Selenium the first lookup raises the
    [NameError] of [By]; without BeautifulSoup the first turn of the loop
    raises that of [BeautifulSoup], before the page is read. *)
Definition process_scraping (ss : session_state) : M (session_state * ending) :=
  match driver ss with
  | None => ret (ss, Waiting)
  | Some d =>
    if negb SELENIUM_AVAILABLE then ret (ss, Waiting)
    else
      captcha_input <- find_element (OfDriver d) (XPATH CAPTCHA_INPUT_XPATH) ;;
      match captcha_input with
      | None => ret (ss, Waiting)
      | Some inp =>
          send (Clear inp) (unit_ (w_clear E inp)) ;;
          send (SendKeys inp (captcha_value ss))
               (unit_ (w_send_keys E inp (captcha_value ss))) ;;
          click_case_type d [lit "Civil"; lit "Criminal"] ;;
          time_sleep 2000 ;;
          if negb BEAUTIFULSOUP_AVAILABLE then ret (ss, Waiting)
          else
          scraped <- scrape_pages (S max_pages) d 1 [] ;;
          today <- look (w_today E) ;;
          match scraped with
          | None => ret (ss, Waiting)
          | Some all =>
              match hearing_date_filter today all with
              | None => ret (ss, Waiting)
              | Some ms =>
                  let ss' :=
                    {| current_step := match ms with [] => 1 | _ :: _ => 4 end;
                       captured_cases := captured_cases ss;
                       matches := ms; all_cases := all;
                       driver := driver ss;
                       capture_in_progress := capture_in_progress ss;
                       current_case_index := current_case_index ss;
                       captcha_value := captcha_value ss |} in
                  ret (ss', match ms with [] => Waiting | _ :: _ => Rerun_Requested end)
              end
          end
      end
  end.

(** What the start button does to the session state. *)
Definition start_capture (ss : session_state) : session_state :=
  {| current_step := current_step ss;
     captured_cases := [];
     matches := matches ss; all_cases := all_cases ss;
     driver := driver ss;
     capture_in_progress := true;
     current_case_index := 0;
     captcha_value := captcha_value ss |}.

(** [display_scraped_cases]: the table, and the start button. *)
Definition display_scraped_cases (ev : ui_event) (ss : session_state)
    : M (session_state * ending) :=
  match ev with
  | Press_Start => ret (start_capture ss, Rerun_Requested)
  | _ => ret (ss, Waiting)
  end.

(** [perform_capture]: one row per script run, then [st.rerun()]; past the
    last row the summary is shown and the flag cleared.  An exception of the
    capture leaves the function, and the script, before the session state is
    written. *)
Definition perform_capture (ss : session_state) : M (session_state * ending) :=
  let current_index := current_case_index ss in
  match nth_error (matches ss) current_index with
  | Some c =>
      captured <- capture_case_details_automated (driver ss) c ;;
      match captured with
      | None => ret (ss, Raised)
      | Some captured_data =>
          time_sleep 1000 ;;
          ret ({| current_step := current_step ss;
                  captured_cases := captured_cases ss ++ [captured_data];
                  matches := matches ss; all_cases := all_cases ss;
                  driver := driver ss;
                  capture_in_progress := capture_in_progress ss;
                  current_case_index := S current_index;
                  captcha_value := captcha_value ss |}, Rerun_Requested)
      end
  | None =>
      ret ({| current_step := current_step ss;
              captured_cases := captured_cases ss;
              matches := matches ss; all_cases := all_cases ss;
              driver := driver ss;
              capture_in_progress := false;
              current_case_index := current_index;
              captcha_value := captcha_value ss |}, Waiting)
  end.

Definition capture_cases_ui (ev : ui_event) (ss : session_state)
    : M (session_state * ending) :=
  if capture_in_progress ss then perform_capture ss
  else display_scraped_cases ev ss.

(** [scrape_cases_ui], one script run. *)
Definition scrape_cases_ui (ev : ui_event) (ss : session_state)
    : M (session_state * ending) :=
  match current_step ss with
  | 1 =>
      match ev with
      | Press_Initialize =>
          drv <- setup_driver ;;
          match drv with
          | Some d =>
              ok <- send (Get d ECOURTS_URL) (w_get E d ECOURTS_URL) ;;
              let ss1 :=
                {| current_step := if ok then 2 else current_step ss;
                   captured_cases := captured_cases ss;
                   matches := matches ss; all_cases := all_cases ss;
                   driver := Some d;
                   capture_in_progress := capture_in_progress ss;
                   current_case_index := current_case_index ss;
                   captcha_value := captcha_value ss |} in
              ret (ss1, if ok then Rerun_Requested else Waiting)
          | None => ret (ss, Waiting)
          end
      | _ => ret (ss, Waiting)
      end
  | 2 =>
      match driver ss with
      | Some d =>
          _ <- save_captcha_image d (lit "captcha.png") ;;
          match ev with
          | Press_Submit ((_ :: _) as v) =>
              ret ({| current_step := 3;
                      captured_cases := captured_cases ss;
                      matches := matches ss; all_cases := all_cases ss;
                      driver := driver ss;
                      capture_in_progress := capture_in_progress ss;
                      current_case_index := current_case_index ss;
                      captcha_value := v |}, Rerun_Requested)
          | Press_Refresh =>
              captcha_file <- save_captcha_image d (lit "captcha_refresh.png") ;;
              ret (ss, match captcha_file with Some _ => Rerun_Requested | None => Waiting end)
          | _ => ret (ss, Waiting)
          end
      | None => ret (ss, Waiting)
      end
  | 3 =>
      match matches ss with
      | [] => process_scraping ss
      | _ :: _ => display_scraped_cases ev ss
      end
  | 4 => capture_cases_ui ev ss
  | _ => ret (ss, Waiting)
  end.

(** A session: the script runs once per event, in order. *)
Fixpoint run_script (evs : list ui_event) (ss : session_state) : M session_state :=
  match evs with
  | [] => ret ss
  | ev :: rest =>
      r <- scrape_cases_ui ev ss ;;
      run_script rest (fst r)
  end.

(** The capture batch: [perform_capture] run again for as long as it asks
    for a rerun; it stops when a run ends otherwise, also by an exception.
    [None] is fuel running out first. *)
Fixpoint capture_batch (fuel : nat) (ss : session_state) : M (option session_state) :=
  match fuel with
  | 0 => ret None
  | S fuel' =>
      r <- perform_capture ss ;;
      match snd r with
      | Rerun_Requested => capture_batch fuel' (fst r)
      | Waiting | Raised => ret (Some (fst r))
      end
  end.

(** *** The batch and the pagination, unrolled

    The rows of a batch captured one after the other, with the pause
    [perform_capture] makes after each; and the pages the pagination loop
    reads, in order.  Both follow the control flow of the code above and are
    tied to it by the theorems on [capture_batch] and [scrape_pages]. *)
Fixpoint capture_rows (driver : option Driver) (rows : list case) : M (list case_data) :=
  match rows with
  | [] => ret []
  | c :: rest =>
      r <- capture_case_details_automated driver c ;;
      match r with
      | None => ret []
      | Some r =>
          time_sleep 1000 ;;
          rs <- capture_rows driver rest ;;
          ret (r :: rs)
      end
  end.

Fixpoint pages_read (fuel : nat) (d : Driver) (page_index : nat) : M (list Bs.node) :=
  if page_index <=? max_pages then
    match fuel with
    | 0 => ret []
    | S fuel' =>
        soup <- page_soup d ;;
        next_btn <- find_element (OfDriver d) (LINK_TEXT (lit "Next")) ;;
        match next_btn with
        | Some next_btn =>
            enabled <- look (fun w => w_is_enabled E w next_btn) ;;
            if enabled then
              click Native next_btn ;; time_sleep 1500 ;;
              rest <- pages_read fuel' d (S page_index) ;;
              ret (soup :: rest)
            else ret [soup]
        | None =>
            next_btn <- find_element (OfDriver d) (XPATH NEXT_LINK_XPATH) ;;
            match next_btn with
            | Some next_btn =>
                click Native next_btn ;; time_sleep 1500 ;;
                rest <- pages_read fuel' d (S page_index) ;;
                ret (soup :: rest)
            | None => ret [soup]
            end
        end
    end
  else ret [].

End Scraper.

(** Rows and their records, pairwise: a record carries the label, the court
    and the hearing date of its row. *)
Definition record_of (c : case) (r : case_data) : Prop :=
  Serial_Number r = serial c /\ Court_Name r = court_name c /\
  Next_Hearing_Date r = next_hearing_date c.

(** Every address of an attachment the pages of this world show can be
    joined with a base: [urljoin] does not raise on it. *)
Definition addresses_join {World Driver Elem} (cfg : setting World Driver Elem) : Prop :=
  forall w d a href base,
    In a (Bs.find_all ["a"]%string (w_page_source (s_env cfg) w d)) ->
    Bs.get_attr "href" a = Some href ->
    lower_endswith_pdf href = true ->
    urljoin (s_env cfg) base href <> None.

(** What a computation adds to the command log: whatever the state it
    starts in, the log grows by some commands [new], and [P] holds of the
    result and of [new]. *)
Definition adds {World Driver Elem A} (m : M World Driver Elem A)
    (P : A -> list (command Driver Elem) -> Prop) : Prop :=
  forall st, exists new,
    sent (snd (m st)) = sent st ++ new /\ P (fst (m st)) new.

(** Every command added satisfies [ok]. *)
Definition sends_only {World Driver Elem A} (ok : command Driver Elem -> Prop)
    (m : M World Driver Elem A) : Prop :=
  adds m (fun _ new => Forall ok new).

(** A locator that reports success has sent exactly one scripted click; one
    that reports failure has sent nothing. *)
Definition clicked_if_found {Driver Elem} (found : bool) (new : list (command Driver Elem))
    : Prop :=
  (found = true -> exists e, new = [Click Script e]) /\ (found = false -> new = []).

(** The back control is clicked, or the browser's own back is used. *)
Definition went_back {Driver Elem} (d : Driver) (ok : bool) (new : list (command Driver Elem))
    : Prop :=
  ok = true /\ ((exists e, new = [Click Script e]) \/ new = [Back d]).

(** How many times a command log releases a session, and how many pages it
    reads. *)
Definition is_quit {Driver Elem} (c : command Driver Elem) : bool :=
  match c with Quit _ => true | _ => false end.
Definition is_page_source {Driver Elem} (c : command Driver Elem) : bool :=
  match c with PageSource _ => true | _ => false end.
Definition is_click {Driver Elem} (c : command Driver Elem) : bool :=
  match c with Click _ _ => true | _ => false end.
Definition not_quit {Driver Elem} (c : command Driver Elem) : Prop := is_quit c = false.
Definition releases {Driver Elem} (log : list (command Driver Elem)) : nat :=
  length (filter is_quit log).
Definition page_reads {Driver Elem} (log : list (command Driver Elem)) : nat :=
  length (filter is_page_source log).


(** ** Reading the patterns

    What the patterns of the extractors accept, said without the matcher:
    these are the notions the statements below are about. *)
Section Reading.
Variable db : UnicodeDB.

(** Case folding as [re.IGNORECASE] sees it from an ASCII pattern: capitals
    fold to small letters, and so do the four characters whose lower case or
    [sre] equivalent is an ASCII letter (U+0130 and U+0131 to i, U+017F to s,
    U+212A to k). *)
Definition fold_case (c : N) : N :=
  if ascii_upper c then (c + 32)%N
  else if ((c =? 304) || (c =? 305))%N then 105%N
  else if (c =? 383)%N then 115%N
  else if (c =? 8490)%N then 107%N
  else c.

(** [l] and [c] are the same character up to case. *)
Definition same_ic (l c : N) : Prop := fold_case l = fold_case c.

(** [w] spells [l] up to case. *)
Definition spells_ic (l w : str) : Prop := Forall2 same_ic l w.

(** A letter in either case, or a digit: what [[A-Z0-9]] accepts under
    [re.IGNORECASE]. *)
Definition letter_or_digit_ic (c : N) : bool :=
  ascii_lower (fold_case c) || ascii_digit c.

(** A capital letter or a digit: what [[A-Z0-9]] accepts without the flag. *)
Definition capital_or_digit (c : N) : bool := ascii_upper c || ascii_digit c.

(** [tok] is the 16 characters of [text] from [i] on, all of class [cls]. *)
Definition token16_at (cls : N -> bool) (text : str) (i : nat) (tok : str) : Prop :=
  tok = slice text i (i + 16) /\ length tok = 16 /\ Forall (fun c => cls c = true) tok.

Definition NOTE_PHRASE : str := lit "(Note the CNR number".

(** From [j] on, [text] reads: white space (possibly none), then the note
    phrase in any case. *)
Definition note_follows (text : str) (j : nat) : Prop :=
  exists ws phrase rest,
    skipn j text = ws ++ phrase ++ rest /\
    Forall (fun c => isspace db c = true) ws /\
    spells_ic NOTE_PHRASE phrase.

(** A 16-character token starting at a word boundary and followed by the
    note. *)
Definition note_token_at (text : str) (i : nat) (tok : str) : Prop :=
  word_boundary db text i = true /\
  token16_at letter_or_digit_ic text i tok /\
  note_follows text (i + 16).

(** A 16-character token of capitals and digits standing alone: a word
    boundary on each side. *)
Definition standalone_token_at (text : str) (i : nat) (tok : str) : Prop :=
  word_boundary db text i = true /\
  token16_at capital_or_digit text i tok /\
  word_boundary db text (i + 16) = true.

(** The claim's own reading, where "alphanumeric" means the same in both
    searches: a 16-character token of ASCII letters and digits standing
    alone. *)
Definition standalone_alnum_token_at (text : str) (i : nat) (tok : str) : Prop :=
  word_boundary db text i = true /\
  token16_at ascii_alnum text i tok /\
  word_boundary db text (i + 16) = true.

(** A separator between a label and its value: colon, dash, white space. *)
Definition sep_char (c : N) : bool :=
  ((c =? 58) || (c =? 45))%N || isspace db c.

(** A character of a value: a letter in either case, a digit, a slash, a
    dot, a dash, white space. *)
Definition value_char (c : N) : bool :=
  letter_or_digit_ic c || ((c =? 47) || (c =? 46) || (c =? 45))%N || isspace db c.

Definition starts_with_value (t : str) : Prop :=
  exists c t', t = c :: t' /\ value_char c = true.

(** From [i] on, [text] reads: the label [key] in any case, separators
    [seps], then the value run [val], which ends at [rest].  The value run is
    not empty and as long as possible, and the separators are as long as
    a following value character allows. *)
Definition field_at (key text : str) (i : nat) (val : str) : Prop :=
  exists label seps rest,
    skipn i text = label ++ seps ++ val ++ rest /\
    spells_ic key label /\
    Forall (fun c => sep_char c = true) seps /\
    Forall (fun c => value_char c = true) val /\
    val <> [] /\
    ~ starts_with_value rest /\
    (forall seps' tail,
        seps ++ val ++ rest = seps' ++ tail ->
        Forall (fun c => sep_char c = true) seps' ->
        starts_with_value tail ->
        length seps' <= length seps).

End Reading.

(** ** Reading a row for its hearing date, in the spec's words

    The label and the date tokens read left to right, every run taken as long
    as it goes, with no regular expression.  [hearing_date_by_the_words]
    composes the readers the way the spec tells it; the extraction of
    [extract_cases_from_soup] is compared with it below. *)
Section Words.
Variable db : UnicodeDB.

(** What the Unicode tables guarantee and the date patterns rely on: white
    space is not a word character, and a decimal digit is one. *)
Record tables_ok : Prop := {
  space_not_alnum : forall c, uni_space db c = true -> uni_alnum db c = false;
  decimal_is_alnum : forall c, uni_decimal db c = true -> uni_alnum db c = true
}.

Definition and_then (o : option nat) (f : nat -> option nat) : option nat :=
  match o with Some j => f j | None => None end.

Definition or_else {A} (o o' : option A) : option A :=
  match o with Some x => Some x | None => o' end.

(** From [j] on: a run of [p], between [lo] and [hi] characters, as long as
    it goes; where it ends. *)
Definition run_end (p : N -> bool) (lo : nat) (hi : option nat) (text : str) (j : nat)
    : option nat :=
  let n := run p hi (skipn j text) in
  if n <? lo then None else Some (j + n).

(** One character of [p]. *)
Definition one_end (p : N -> bool) (text : str) (j : nat) : option nat :=
  match nth_error text j with
  | Some c => if p c then Some (S j) else None
  | None => None
  end.

Definition same_icb (l c : N) : bool := (fold_case l =? fold_case c)%N.

(** The word [l], in any case. *)
Fixpoint word_end (l : str) (text : str) (j : nat) : option nat :=
  match l with
  | [] => Some j
  | x :: l' =>
      match nth_error text j with
      | Some c => if same_icb x c then word_end l' text (S j) else None
      | None => None
      end
  end.

Definition spaces_end := run_end (isspace db) 1 None.
Definition digits_end (lo hi : nat) := run_end (isdecimal db) lo (Some hi).
Definition word_chars_end := run_end (isword db) 1 None.
Definition date_sep (c : N) : bool := ((c =? 47) || (c =? 45) || (c =? 46))%N.

(** Readers one after the other, each starting where the one before
    ended. *)
Fixpoint chain (readers : list (nat -> option nat)) (i : nat) : option nat :=
  match readers with
  | [] => Some i
  | f :: rest => and_then (f i) (chain rest)
  end.

(** A label variant: "Next Hearing Date", "Next Date", "Next Hearing" with
    white space between the words, or "NextDate"; the first that reads. *)
Definition label_words_end (text : str) (i : nat) : option nat :=
  or_else
    (chain [word_end (lit "Next") text; spaces_end text;
            word_end (lit "Hearing") text; spaces_end text;
            word_end (lit "Date") text] i)
 (or_else
    (chain [word_end (lit "Next") text; spaces_end text;
            word_end (lit "Date") text] i)
 (or_else
    (chain [word_end (lit "Next") text; spaces_end text;
            word_end (lit "Hearing") text] i)
    (chain [word_end (lit "NextDate") text] i))).

(** The label and the separators after it. *)
Definition label_end (text : str) (i : nat) : option nat :=
  chain [label_words_end text; run_end (sep_char db) 0 None text] i.

(** D/M/Y: one or two digits, a slash, dash or dot, one or two digits, a
    separator again, two to four digits. *)
Definition dmy_end (text : str) : nat -> option nat :=
  chain [digits_end 1 2 text; one_end date_sep text;
         digits_end 1 2 text; one_end date_sep text;
         digits_end 2 4 text].

(** D Month Y: one or two digits, white space, a word, white space, four
    digits. *)
Definition d_month_y_end (text : str) : nat -> option nat :=
  chain [digits_end 1 2 text; spaces_end text; word_chars_end text;
         spaces_end text; digits_end 4 4 text].

Definition date_token_end (text : str) (i : nat) : option nat :=
  or_else (dmy_end text i) (d_month_y_end text i).

(** The leftmost start among [i], ..., [i + n] at which [reader] reads
    something, with the end it reads. *)
Fixpoint leftmost (reader : nat -> option nat) (n i : nat) : option (nat * nat) :=
  match reader i with
  | Some e => Some (i, e)
  | None => match n with 0 => None | S n' => leftmost reader n' (S i) end
  end.

(** The first piece of [text] a reader accepts. *)
Definition first_token (reader : str -> nat -> option nat) (text : str) : option str :=
  option_map (fun ie => slice text (fst ie) (snd ie))
             (leftmost (reader text) (length text) 0).

Variable DATEUTIL_AVAILABLE : bool.
Variable dateparser_parse : forall (dayfirst : bool) (text : str), option date.

Definition hearing_date_by_the_words (row_text : str) : option date :=
  let parse := parse_date_nullable DATEUTIL_AVAILABLE dateparser_parse in
  let labelled :=
    match leftmost (label_end row_text) (length row_text) 0 with
    | Some (_, e) =>
        match first_token date_token_end (strip db (skipn e row_text)) with
        | Some token => parse token
        | None => None
        end
    | None => None
    end in
  match labelled with
  | Some d => Some d
  | None =>
      if contains (lit "Next") row_text then
        match first_token dmy_end row_text with
        | Some token => parse token
        | None => None
        end
      else None
  end.

End Words.

(** ** Patterns that read without backtracking *)
Section ReadsAs.
Variable db : UnicodeDB.
Variable ic : bool.
Variable s : str.

(** [r], run before [k], reads as the reader [f]: it matches exactly where
    [f] reads, and hands [k] the end [f] found. *)
Definition reads_for A (k : nat -> caps -> option A) (r : regex) (f : nat -> option nat) : Prop :=
  forall i c, mt db ic s r i c k = match f i with Some j => k j c | None => None end.

(** [k] cannot succeed at a position holding a character of [p]. *)
Definition fails_on A (k : nat -> caps -> option A) (p : N -> bool) : Prop :=
  forall j ch c, nth_error s j = Some ch -> p ch = true -> k j c = None.

Definition rejects (f : nat -> option nat) (p : N -> bool) : Prop :=
  forall j ch, nth_error s j = Some ch -> p ch = true -> f j = None.

Definition total A (k : nat -> caps -> option A) : Prop :=
  forall j c, k j c <> None.

End ReadsAs.

(** Where a match starts and ends. *)
Definition span (m : match_) : nat * nat := (m_start m, m_end m).

(** Two texts of the claim on identifiers: a lower-case token on its own,
    and the spec's example followed by anything. *)
Definition lone_lowercase_token : str := lit "ab12cd34ef56gh78".
Definition note_example (rest : str) : str :=
  lit "AB12CD34EF56GH78 (Note the CNR number" ++ rest.

(** The value group of a field pattern tried at [a], for a match that
    started at [i]: the longest run of value characters, at least one. *)
Definition value_match (db : UnicodeDB) (text : str) (i a : nat) : option match_ :=
  let n := run (value_char db) None (skipn a text) in
  if n <? 1 then None
  else Some {| m_start := i; m_end := a + n; m_caps := [(1, (a, a + n))] |}.

(** Two labelled fields, in one order and in the other. *)
Definition case_type_part : str := lit "Case Type: CS".
Definition filing_part : str := lit "Filing Number: 123/2024".
Definition fields_in_order : str := case_type_part ++ lit " " ++ filing_part.
Definition fields_swapped : str := filing_part ++ lit " " ++ case_type_part.

(** ** A small portal

    A concrete world for the examples: a portal page with a CAPTCHA field and
    a "Civil" button, a one-page listing whose two rows both carry the serial
    label 1 and a hearing on 12/05/2024, and a detail page per row with a
    "Back" link.  The session is where the browser is. *)
Module Portal.
Import Bs.

Inductive place := Blank | Front | Listing | Detail (n : nat).
Inductive handle := CaptchaInput | CivilButton | ViewLink (n : nat) | RowOf (n : nat) | BackLink.

Definition tables : UnicodeDB :=
  {| uni_space := fun _ => false; uni_alnum := fun _ => false; uni_decimal := fun _ => false |}.

(** 2024-05-12, the day of the hearings, is also today. *)
Definition hearing_day : date := 739018%Z.

Definition parse (dayfirst : bool) (text : str) : option date :=
  if dayfirst && eqb text (lit "12/05/2024") then Some hearing_day else None.

Definition txt (s : string) : node := NavigableString (lit s).

Definition data_row (n : nat) : node :=
  Tag "tr" [] [Tag "td" [] [txt "1"];
               Tag "td" [] [txt "A vs B"];
               Tag "td" [] [txt "Next Date: 12/05/2024"];
               Tag "td" [] [Tag "a" [("href"%string, lit "#")] [txt "View"]]].

Definition listing_page : node :=
  Tag "[document]" []
    [Tag "h2" [] [txt "District Court"];
     Tag "table" []
       [Tag "tr" [] [Tag "th" [] [txt "Sr"]; Tag "th" [] [txt "Parties"];
                     Tag "th" [] [txt "Stage"]; Tag "th" [] [txt "Action"]];
        data_row 0; data_row 1]].

Definition detail_page : node :=
  Tag "[document]" []
    [Tag "div" [] [txt "DLCT010012342024 (Note the CNR number for future reference)"];
     Tag "a" [("href"%string, lit "javascript:history.back()")] [txt "Back"]].

(** The same page with an order attached under an address whose host opens
    a bracket and does not close it. *)
Definition broken_detail_page : node :=
  Tag "[document]" []
    [Tag "div" [] [txt "DLCT010012342024 (Note the CNR number for future reference)"];
     Tag "a" [("href"%string, lit "//[v6/order.pdf")] [txt "Order"];
     Tag "a" [("href"%string, lit "javascript:history.back()")] [txt "Back"]].

Definition blank_page : node := Tag "[document]" [] [].

(** [urljoin] as far as the examples need it: an address that opens a
    bracket right after its two slashes and never closes it is refused
    ("Invalid IPv6 URL"). *)
Definition urljoin (base ref : str) : option str :=
  if startswith ref (lit "//[") && negb (existsb (N.eqb 93) ref) then None
  else Some (base ++ ref).

Definition is_xpath (b : Web.by_) (v : str) : bool :=
  match b with Web.XPATH v' => eqb v' v | _ => false end.

Definition find_element (w : place) (c : Web.context unit handle) (b : Web.by_) : option handle :=
  match w, c with
  | Front, Web.OfDriver _ =>
      if is_xpath b CAPTCHA_INPUT_XPATH then Some CaptchaInput
      else if is_xpath b (case_type_button_xpath (lit "Civil")) then Some CivilButton
      else None
  | Listing, Web.OfElem (ViewLink n) =>
      if is_xpath b (lit "./ancestor::tr[1]") then Some (RowOf n) else None
  | Detail _, Web.OfDriver _ =>
      if is_xpath b (lit "//a[contains(., 'Back')]") then Some BackLink else None
  | _, _ => None
  end.

Definition find_elements (w : place) (c : Web.context unit handle) (b : Web.by_) : list handle :=
  match w, c with
  | Listing, Web.OfDriver _ =>
      if is_xpath b VIEW_LINK_XPATH then [ViewLink 0; ViewLink 1] else []
  | _, _ => []
  end.

Definition text (w : place) (e : handle) : str :=
  match e with
  | RowOf _ => lit "1 A vs B Next Date: 12/05/2024 View"
  | ViewLink _ => lit "View"
  | BackLink => lit "Back"
  | _ => []
  end.

Definition click (k : Web.click_kind) (e : handle) (w : place) : place :=
  match w, e with
  | Front, CivilButton => Listing
  | Listing, ViewLink n => Detail n
  | Detail _, BackLink => Listing
  | _, _ => w
  end.

Definition page_source (w : place) (d : unit) : node :=
  match w with
  | Listing => listing_page
  | Detail _ => detail_page
  | _ => blank_page
  end.

Definition broken_page_source (w : place) (d : unit) : node :=
  match w with
  | Detail _ => broken_detail_page
  | _ => page_source w d
  end.

Definition world_showing (source : place -> unit -> node) : Web.env place unit handle :=
  {| Web.w_find_element := find_element;
     Web.w_find_elements := find_elements;
     Web.w_text := text;
     Web.w_get_attribute := fun _ _ _ => None;
     Web.w_is_enabled := fun _ _ => true;
     Web.w_page_source := source;
     Web.w_current_url := fun _ _ => lit "https://services.ecourts.gov.in/";
     Web.w_today := fun _ => hearing_day;
     Web.w_new_chrome := fun w => (Some tt, Blank);
     Web.w_get := fun _ _ _ => (true, Front);
     Web.w_click := click;
     Web.w_clear := fun _ w => w;
     Web.w_send_keys := fun _ _ w => w;
     Web.w_screenshot := fun _ _ w => w;
     Web.w_back := fun _ w => match w with Detail _ => Listing | _ => w end;
     Web.w_print_to_pdf := fun _ _ w => (true, w);
     Web.w_sleep := fun _ w => w;
     Web.w_fetch_image := fun _ _ _ w => (true, w);
     Web.w_download := fun _ _ w => (None, w);
     Web.w_save_case := fun _ w => (0, w);
     Web.urljoin := urljoin |}.

Definition world : Web.env place unit handle := world_showing page_source.

Definition start : Web.state place unit handle := {| Web.world := Blank; Web.sent := [] |}.

(** A whole session: start the browser, answer the CAPTCHA, let the listing
    be scraped, start the capture and let it run to its end. *)
Definition session : list ui_event :=
  [Press_Initialize; Rerun; Press_Submit (lit "x7k2p"); Rerun; Rerun;
   Press_Start; Rerun; Rerun; Rerun].

Definition config : setting place unit handle :=
  {| s_env := world; s_tables := tables;
     s_bs4 := true; s_dateutil := true; s_selenium := true;
     s_parse := parse; s_download_dir := lit "/srv/downloads" |}.

Definition run (evs : list ui_event) :=
  run_script config evs (initial_session_state unit) start.

(** The portal whose detail pages carry the broken address. *)
Definition broken_config : setting place unit handle :=
  {| s_env := world_showing broken_page_source; s_tables := tables;
     s_bs4 := true; s_dateutil := true; s_selenium := true;
     s_parse := parse; s_download_dir := lit "/srv/downloads" |}.

End Portal.

(** The spec's end-to-end listing: three rows with hearings on [today], two
    days later and the day after. *)
Definition row_due (label : string) (d : option date) : case :=
  {| serial := lit label; cols := [lit label]; court_name := lit "District Court";
     next_hearing_date := d |}.

Definition three_rows (today : date) : list case :=
  [row_due "1" (Some today); row_due "2" (Some (today + 2)%Z); row_due "3" (Some (today + 1)%Z)].

(** ** Notions for the further properties *)

(** [v] stands in [text], in one piece. *)
Definition piece_of (v text : str) : Prop := exists pre post, text = pre ++ v ++ post.

(** No white space at either end. *)
Definition tight (db : UnicodeDB) (u : str) : Prop :=
  match u with [] => True | c :: _ => isspace db c = false end /\
  match rev u with [] => True | c :: _ => isspace db c = false end.

(** [p] stands at the head of [s], or somewhere in [s], up to case. *)
Fixpoint startswith_ic (s p : str) {struct p} : bool :=
  match p, s with
  | [], _ => true
  | x :: p', y :: s' => same_icb x y && startswith_ic s' p'
  | _ :: _, [] => false
  end.

Fixpoint contains_ic (p s : str) : bool :=
  startswith_ic s p || match s with [] => false | _ :: s' => contains_ic p s' end.

Section Found.
Variables World Driver Elem : Type.
Variable cfg : setting World Driver Elem.

(** The element the first of [xpaths] that finds one finds on the page. *)
Fixpoint first_found (w : World) (d : Driver) (xpaths : list str) : option Elem :=
  match xpaths with
  | [] => None
  | x :: rest =>
      match w_find_element (s_env cfg) w (OfDriver d) (XPATH x) with
      | Some e => Some e
      | None => first_found w d rest
      end
  end.

(** The row around [link] is found and its text shows [serial_number]
    somewhere. *)
Definition row_shows (w : World) (serial_number : str) (link : Elem) : bool :=
  match w_find_element (s_env cfg) w (OfElem link) (XPATH (lit "./ancestor::tr[1]")) with
  | Some row => contains serial_number (w_text (s_env cfg) w row)
  | None => false
  end.

End Found.

(** An anchor whose address ends in ".pdf", in any case. *)
Definition pdf_link (a : Bs.node) : bool :=
  match Bs.get_attr "href" a with
  | Some href => lower_endswith_pdf href
  | None => false
  end.

(** The session state [process_scraping] leaves when it has scraped [all]
    and kept [ms]. *)
Definition scraped_state {Driver} (ss : session_state Driver) (all ms : list case)
    : session_state Driver :=
  {| current_step := match ms with [] => 1 | _ :: _ => 4 end;
     captured_cases := captured_cases ss;
     matches := ms; all_cases := all;
     driver := driver ss;
     capture_in_progress := capture_in_progress ss;
     current_case_index := current_case_index ss;
     captcha_value := captcha_value ss |}.

(** What every script run keeps of [st.session_state]: the step is one of
    the four; from step 2 on there is a driver; before step 4 nothing is
    matched and no capture runs; in step 4 something is matched; there are
    as many records as rows gone through, never more than rows matched. *)
Definition well_formed {Driver} (ss : session_state Driver) : Prop :=
  1 <= current_step ss <= 4 /\
  (2 <= current_step ss -> driver ss <> None) /\
  (current_step ss <> 4 ->
     matches ss = [] /\ capture_in_progress ss = false /\ current_case_index ss = 0) /\
  (current_step ss = 4 -> matches ss <> []) /\
  length (captured_cases ss) = current_case_index ss /\
  current_case_index ss <= length (matches ss).

(** ** The database ([ecourts_data.db])

    The two tables of [init_db] as lists of rows in rowid order.  A table
    declared [AUTOINCREMENT] remembers the largest rowid it has ever given
    ([sqlite_sequence]), which [DELETE] does not reset.  A table that does
    not exist is [None]; a statement on it raises [OperationalError]. *)
Module Db.

Definition bytes := list Byte.byte.

(** What the file system holds under a path. *)
Inductive file := Missing | Unreadable | Readable (data : bytes).

Record case_row := {
  c_id : nat;
  c_serial_number : option str;
  c_cnr_number : option str;
  c_case_type : option str;
  c_court_info : option str;
  c_filing_number : option str;
  c_registration_number : option str;
  c_court_name : option str;
  c_next_hearing_date : option str;
  c_captured_date : nat;
  c_pdf_path : option str;
  c_additional_pdfs : option str
}.

Record pdf_row := {
  p_id : nat;
  p_case_id : nat;
  p_filename : str;
  p_file_data : bytes;
  p_file_type : str;
  p_uploaded_date : nat
}.

Record table (A : Type) := { rows : list A; last_rowid : nat }.

Record database := {
  cases : option (table case_row);
  pdf_files : option (table pdf_row)
}.

(** No database file yet. *)
Definition absent : database := {| cases := None; pdf_files := None |}.

Inductive res (A : Type) := Ok (a : A) | Raises.
Arguments Ok {A} a.
Arguments Raises {A}.

(** [CREATE TABLE IF NOT EXISTS] *)
Definition create_if_not_exists {A} (t : option (table A)) : option (table A) :=
  match t with
  | Some t => Some t
  | None => Some {| rows := []; last_rowid := 0 |}
  end.

Definition init_db (db : database) : database :=
  {| cases := create_if_not_exists (cases db);
     pdf_files := create_if_not_exists (pdf_files db) |}.

(** [INSERT] into a table whose key is [INTEGER PRIMARY KEY AUTOINCREMENT]:
    the new rowid is one more than the largest the table has ever held. *)
Definition next_rowid {A} (id_of : A -> nat) (t : table A) : nat :=
  S (fold_right Nat.max (last_rowid t) (map id_of (rows t))).

Definition insert {A} (id_of : A -> nat) (mk : nat -> A) (t : table A) : nat * table A :=
  let id := next_rowid id_of t in
  (id, {| rows := rows t ++ [mk id]; last_rowid := id |}).

(** [os.path.basename], POSIX: what follows the last slash. *)
Fixpoint basename_from (p cur : str) : str :=
  match p with
  | [] => cur
  | c :: p' => if (c =? 47)%N then basename_from p' [] else basename_from p' (cur ++ [c])
  end.
Definition basename (p : str) : str := basename_from p [].

Section Calls.
(** [str(d)] for a [datetime.date] *)
Variable date_str : date -> str.
(** the files, by path, and [CURRENT_TIMESTAMP] at the time of the call *)
Variable fs : str -> file.
Variable now : nat.

(** [if os.path.exists(path): try: ... INSERT INTO pdf_files ... except
    Exception: st.error(...)] *)
Definition insert_pdf (case_id : nat) (file_type : str) (t : option (table pdf_row))
    (path : str) : option (table pdf_row) :=
  match fs path with
  | Readable data =>
      match t with
      | Some t =>
          Some (snd (insert p_id
                  (fun id => {| p_id := id; p_case_id := case_id;
                                p_filename := basename path; p_file_data := data;
                                p_file_type := file_type; p_uploaded_date := now |}) t))
      | None => None
      end
  | _ => t
  end.

(** [save_case_to_db(case_data, pdf_path, additional_pdfs)], on the
    dictionary [capture_case_details_automated] builds. *)
Definition save_case_to_db (r : db_row) (db : database) : res (nat * database) :=
  match cases db with
  | None => Raises
  | Some t =>
      let c := row_case r in
      let d := row_details r in
      let (case_id, t') :=
        insert c_id
          (fun id =>
             {| c_id := id;
                c_serial_number := Some (serial c);
                c_cnr_number := d_cnr d;
                c_case_type := d_case_type d;
                c_court_info := d_court_and_judge d;
                c_filing_number := d_filing d;
                c_registration_number := d_registration d;
                c_court_name := Some (court_name c);
                c_next_hearing_date := option_map date_str (next_hearing_date c);
                c_captured_date := now;
                c_pdf_path := row_pdf_path r;
                c_additional_pdfs :=
                  match row_additional_pdfs r with
                  | [] => None
                  | l => Some (Bs.join (lit ", ") l)
                  end |}) t in
      let with_main :=
        match row_pdf_path r with
        | Some ((_ :: _) as pdf_path) =>
            insert_pdf case_id (lit "main_pdf") (pdf_files db) pdf_path
        | _ => pdf_files db
        end in
      let with_all :=
        fold_left (insert_pdf case_id (lit "additional_pdf"))
                  (row_additional_pdfs r) with_main in
      Ok (case_id, {| cases := Some t'; pdf_files := with_all |})
  end.

End Calls.

(** [SELECT filename, file_data FROM pdf_files WHERE case_id = ? AND
    file_type = ?], [fetchone()] *)
Definition get_pdf_from_db (case_id : nat) (file_type : str) (db : database)
    : res (option (str * bytes)) :=
  match pdf_files db with
  | None => Raises
  | Some t =>
      Ok (option_map (fun p => (p_filename p, p_file_data p))
            (List.find (fun p => (p_case_id p =? case_id) && eqb (p_file_type p) file_type)
                       (rows t)))
  end.

(** [ORDER BY captured_date DESC]: the newest first, rows of one second in
    rowid order. *)
Fixpoint insert_desc (x : case_row) (l : list case_row) : list case_row :=
  match l with
  | [] => [x]
  | y :: l' =>
      if c_captured_date y <=? c_captured_date x then x :: l else y :: insert_desc x l'
  end.
Definition order_by_captured_date_desc (l : list case_row) : list case_row :=
  fold_right insert_desc [] l.

Definition get_all_cases (db : database) : res (list case_row) :=
  match cases db with
  | None => Raises
  | Some t => Ok (order_by_captured_date_desc (rows t))
  end.

(** [settings_ui]: the two counts shown, and what the "Clear Database"
    button does: both [DELETE]s, then the commit. *)
Definition counts (db : database) : res (nat * nat) :=
  match cases db, pdf_files db with
  | Some c, Some p => Ok (length (rows c), length (rows p))
  | _, _ => Raises
  end.

Definition clear_database (db : database) : res database :=
  match cases db, pdf_files db with
  | Some c, Some p =>
      Ok {| cases := Some {| rows := []; last_rowid := last_rowid c |};
            pdf_files := Some {| rows := []; last_rowid := last_rowid p |} |}
  | _, _ => Raises
  end.

(** A request to the database, and the database after it (a call that
    raises commits nothing). *)
Inductive request :=
| Init
| Save (date_str : date -> str) (fs : str -> file) (now : nat) (r : db_row)
| Clear.

Definition serve (db : database) (q : request) : database :=
  match q with
  | Init => init_db db
  | Save date_str fs now r =>
      match save_case_to_db date_str fs now r db with
      | Ok (_, db') => db'
      | Raises => db
      end
  | Clear => match clear_database db with Ok db' => db' | Raises => db end
  end.

(** The case ids the saves of a run return, oldest first. *)
Fixpoint saved_ids (db : database) (qs : list request) : list nat :=
  match qs with
  | [] => []
  | q :: rest =>
      match q with
      | Save date_str fs now r =>
          match save_case_to_db date_str fs now r db with
          | Ok (id, _) => [id]
          | Raises => []
          end
      | _ => []
      end ++ saved_ids (serve db q) rest
  end.

(** Both tables exist, no id is held twice or exceeds the last one given,
    and every stored file belongs to a stored case. *)
Definition sound (db : database) : Prop :=
  exists c p,
    cases db = Some c /\ pdf_files db = Some p /\
    NoDup (map c_id (rows c)) /\
    Forall (fun r => c_id r <= last_rowid c) (rows c) /\
    NoDup (map p_id (rows p)) /\
    Forall (fun f => p_id f <= last_rowid p) (rows p) /\
    Forall (fun f => In (p_case_id f) (map c_id (rows c))) (rows p).

(** The files of a call that can be read, in the order they are stored. *)
Definition stored_files (fs : str -> file) (r : db_row) : list str :=
  filter (fun p => match fs p with Readable _ => true | _ => false end)
         (match row_pdf_path r with Some ((_ :: _) as p) => [p] | _ => [] end
          ++ row_additional_pdfs r).

(** A table whose ids are distinct and none above the last one given. *)
Definition tidy {A} (id_of : A -> nat) (t : table A) : Prop :=
  NoDup (map id_of (rows t)) /\ Forall (fun r => id_of r <= last_rowid t) (rows t).

(** The last id the table of cases has given. *)
Definition cases_last (db : database) : nat :=
  match cases db with Some c => last_rowid c | None => 0 end.

(** [a] was captured no earlier than [b]. *)
Definition newer_first (a b : case_row) : Prop := c_captured_date b <= c_captured_date a.

End Db.

(** ** Examples for the further properties *)

(** The session of the small portal when the CAPTCHA has been answered. *)
Definition portal_answered : session_state unit :=
  {| current_step := 3; captured_cases := []; matches := []; all_cases := [];
     driver := Some tt; capture_in_progress := false; current_case_index := 0;
     captcha_value := lit "x7k2p" |}.
Definition portal_front : Web.state Portal.place unit Portal.handle :=
  {| world := Portal.Front; sent := [] |}.

(** The session of the small portal with its two rows scraped. *)
Definition portal_scraped : session_state unit :=
  {| current_step := 4; captured_cases := [];
     matches := [row_due "1" (Some Portal.hearing_day); row_due "1" (Some Portal.hearing_day)];
     all_cases := [row_due "1" (Some Portal.hearing_day); row_due "1" (Some Portal.hearing_day)];
     driver := Some tt; capture_in_progress := false; current_case_index := 0;
     captcha_value := lit "x7k2p" |}.
Definition portal_listing : Web.state Portal.place unit Portal.handle :=
  {| world := Portal.Listing; sent := [] |}.

(** The small portal on a machine without Selenium. *)
Definition portal_without_selenium : setting Portal.place unit Portal.handle :=
  {| s_env := Portal.world; s_tables := Portal.tables;
     s_bs4 := true; s_dateutil := true; s_selenium := false;
     s_parse := Portal.parse; s_download_dir := lit "/srv/downloads" |}.

(** One captured case, with the page saved as a one-byte file. *)
Definition saved_page : str := lit "/srv/downloads/serial_1.pdf".
Definition one_file (p : str) : Db.file :=
  if eqb p saved_page then Db.Readable [Byte.x25] else Db.Missing.
Definition iso_day (d : date) : str := lit "2024-05-12".
Definition one_case : db_row :=
  {| row_case := row_due "1" (Some Portal.hearing_day);
     row_details := no_details;
     row_pdf_path := Some saved_page;
     row_additional_pdfs := [] |}.
Definition fresh_db : Db.database := Db.init_db Db.absent.

(** Two cases saved one after the other, five and nine seconds in. *)
Definition two_saves : Db.database :=
  Db.serve (Db.serve fresh_db (Db.Save iso_day one_file 5 one_case))
           (Db.Save iso_day one_file 9 one_case).
Definition two_saves_cases : Db.table Db.case_row :=
  match Db.cases two_saves with
  | Some c => c
  | None => {| Db.rows := []; Db.last_rowid := 0 |}
  end.

(** * Properties *)

(** ** The matcher *)
Module ReFacts.
Import Py Re.

Section Runs.
Variable p : N -> bool.

Lemma run_zero t : run p (Some 0) t = 0.
Proof. destruct t; reflexivity. Qed.

Lemma run_le_hi h t : run p (Some h) t <= h.
Proof.
  revert t; induction h as [|h IH]; intros t.
  - rewrite run_zero; lia.
  - destruct t as [|c t]; simpl; [lia|].
    destruct (p c); [specialize (IH t); lia | lia].
Qed.

Lemma run_le_length hi t : run p hi t <= length t.
Proof.
  revert hi; induction t as [|c t IH]; intros hi.
  - destruct hi as [[|h]|]; simpl; lia.
  - destruct hi as [[|h]|]; simpl; try lia;
      destruct (p c); simpl; try lia.
    + specialize (IH (Some h)); lia.
    + specialize (IH None); lia.
Qed.

(** Every character of the run satisfies [p]. *)
Lemma run_inside hi t k :
  k < run p hi t -> exists c, nth_error t k = Some c /\ p c = true.
Proof.
  revert hi k; induction t as [|c t IH]; intros hi k Hk.
  - destruct hi as [[|h]|]; simpl in Hk; lia.
  - destruct hi as [[|h]|]; simpl in Hk; try lia;
      destruct (p c) eqn:Hc; try lia;
      (destruct k as [|k]; [exists c; auto | simpl; eapply IH; apply PeanoNat.lt_S_n, Hk]).
Qed.

(** An unbounded run stops at the end or at a character outside [p]. *)
Lemma run_stop t c :
  nth_error t (run p None t) = Some c -> p c = false.
Proof.
  induction t as [|a t IH]; simpl; [discriminate|].
  destruct (p a) eqn:Ha; simpl; auto.
  intros H; injection H as <-; exact Ha.
Qed.

(** A bounded run that stays below its bound stops the same way. *)
Lemma run_stop_below h t c :
  run p (Some h) t < h ->
  nth_error t (run p (Some h) t) = Some c -> p c = false.
Proof.
  revert t; induction h as [|h IH]; intros t; [lia|].
  destruct t as [|a t]; simpl; [discriminate|].
  destruct (p a) eqn:Ha; simpl.
  - intros Hlt; apply IH; lia.
  - intros _ H; injection H as <-; exact Ha.
Qed.

(** A prefix of [p]-characters is inside the run. *)
Lemma run_ge_prefix hi t n :
  (forall k, k < n -> exists c, nth_error t k = Some c /\ p c = true) ->
  (match hi with Some h => n <= h | None => True end) ->
  n <= run p hi t.
Proof.
  revert hi t; induction n as [|n IH]; intros hi t Hall Hhi; [lia|].
  destruct (Hall 0) as (c & Hc & Hp); [lia|].
  destruct t as [|a t]; [discriminate|]. simpl in Hc; injection Hc as ->.
  destruct hi as [[|h]|]; [lia| |]; simpl; rewrite Hp; apply le_n_S, IH;
    try (intros k Hk; apply (Hall (S k)); lia); try lia; exact I.
Qed.

End Runs.

Section TryDown.
Variable A : Type.
Variable k : nat -> option A.

Lemma try_down_below base lo cnt : cnt < lo -> try_down k base lo cnt = None.
Proof.
  intros H; destruct cnt as [|c]; cbn [try_down];
    [destruct (Nat.ltb_spec0 0 lo) | destruct (Nat.ltb_spec0 (S c) lo)];
    (reflexivity || lia).
Qed.

Lemma try_down_none base lo cnt :
  (forall j, lo <= j <= cnt -> k (base + j) = None) ->
  try_down k base lo cnt = None.
Proof.
  induction cnt as [|cnt IH]; intros H; cbn [try_down].
  - destruct (Nat.ltb_spec0 0 lo); [reflexivity|]. rewrite H by lia. reflexivity.
  - destruct (Nat.ltb_spec0 (S cnt) lo); [reflexivity|].
    rewrite H by lia. apply IH; intros j Hj; apply H; lia.
Qed.

Lemma try_down_some base lo cnt m x :
  lo <= m <= cnt ->
  (forall j, m < j <= cnt -> k (base + j) = None) ->
  k (base + m) = Some x ->
  try_down k base lo cnt = Some x.
Proof.
  induction cnt as [|cnt IH]; intros Hm Hn Hx; cbn [try_down].
  - assert (m = 0) by lia; subst.
    destruct (Nat.ltb_spec0 0 lo); [lia|]. rewrite Hx; reflexivity.
  - destruct (Nat.ltb_spec0 (S cnt) lo); [lia|].
    destruct (Nat.eq_dec m (S cnt)) as [->|Hne].
    + rewrite Hx; reflexivity.
    + rewrite Hn by lia. apply IH; [lia| |exact Hx].
      intros j Hj; apply Hn; lia.
Qed.

Lemma try_down_inv base lo cnt x :
  try_down k base lo cnt = Some x ->
  exists m, lo <= m <= cnt /\ k (base + m) = Some x /\
            forall j, m < j <= cnt -> k (base + j) = None.
Proof.
  induction cnt as [|cnt IH]; cbn [try_down].
  - destruct (Nat.ltb_spec0 0 lo); [discriminate|].
    destruct (k (base + 0)) eqn:H0; [|discriminate].
    intros H; injection H as ->. exists 0; repeat split; auto; lia.
  - destruct (Nat.ltb_spec0 (S cnt) lo); [discriminate|].
    destruct (k (base + S cnt)) eqn:HS.
    + intros H; injection H as ->. exists (S cnt); repeat split; auto; lia.
    + intros H; destruct (IH H) as (m & Hm & Hx & Hn).
      exists m; repeat split; auto; try lia.
      intros j Hj. destruct (Nat.eq_dec j (S cnt)) as [->|]; [exact HS|].
      apply Hn; lia.
Qed.

(** When the continuation cannot succeed inside the run, only the full run
    is tried with success: giving characters back never helps. *)
Lemma try_down_greedy base lo cnt :
  (forall j, j < cnt -> k (base + j) = None) ->
  try_down k base lo cnt = if cnt <? lo then None else k (base + cnt).
Proof.
  intros H. destruct (Nat.ltb_spec0 cnt lo) as [Hlt|Hge].
  - apply try_down_below; exact Hlt.
  - destruct (k (base + cnt)) eqn:Hk.
    + apply try_down_some with (m := cnt); auto; lia.
    + apply try_down_none. intros j Hj.
      destruct (Nat.eq_dec j cnt) as [->|]; [exact Hk | apply H; lia].
Qed.

End TryDown.
End ReFacts.

(** ** Searching *)
Module SearchFacts.
Import Py Re.

Section Search.
Variable db : UnicodeDB.
Variable ic : bool.
Variable s : str.
Variable r : regex.

Local Abbreviation match_at := (Re.match_at db ic s r).
Local Abbreviation search_at := (Re.search_at db ic s r).

Lemma search_at_first n i0 k m :
  k <= n ->
  match_at (i0 + k) = Some m ->
  (forall j, j < k -> match_at (i0 + j) = None) ->
  search_at n i0 = Some m.
Proof.
  revert i0 k; induction n as [|n IH]; intros i0 k Hk Hm Hnone.
  - assert (k = 0) by lia; subst. simpl. rewrite Nat.add_0_r in Hm.
    rewrite Hm; reflexivity.
  - simpl. destruct k as [|k].
    + rewrite Nat.add_0_r in Hm. rewrite Hm; reflexivity.
    + specialize (Hnone 0 ltac:(lia)) as H0. rewrite Nat.add_0_r in H0.
      rewrite H0. apply (IH (S i0) k); [lia| |].
      * rewrite <- Hm; f_equal; lia.
      * intros j Hj. rewrite <- (Hnone (S j)) by lia. f_equal; lia.
Qed.

Lemma search_at_none n i0 :
  (forall j, j <= n -> match_at (i0 + j) = None) ->
  search_at n i0 = None.
Proof.
  revert i0; induction n as [|n IH]; intros i0 H; simpl.
  - specialize (H 0 ltac:(lia)). rewrite Nat.add_0_r in H. rewrite H; reflexivity.
  - specialize (H 0 ltac:(lia)) as H0. rewrite Nat.add_0_r in H0. rewrite H0.
    apply IH. intros j Hj. rewrite <- (H (S j)) by lia. f_equal; lia.
Qed.

Lemma search_at_inv n i0 m :
  search_at n i0 = Some m ->
  exists k, k <= n /\ match_at (i0 + k) = Some m /\
            forall j, j < k -> match_at (i0 + j) = None.
Proof.
  revert i0; induction n as [|n IH]; intros i0; simpl.
  - destruct (match_at i0) eqn:H0; [|discriminate].
    intros H; injection H as ->. exists 0; rewrite Nat.add_0_r.
    repeat split; auto; lia.
  - destruct (match_at i0) eqn:H0.
    + intros H; injection H as ->. exists 0; rewrite Nat.add_0_r.
      repeat split; auto; lia.
    + intros H. destruct (IH _ H) as (k & Hk & Hm & Hn).
      exists (S k). repeat split; [lia| |].
      * rewrite <- Hm; f_equal; lia.
      * intros j Hj. destruct j as [|j]; [rewrite Nat.add_0_r; exact H0|].
        rewrite <- (Hn j) by lia. f_equal; lia.
Qed.

(** [findall] begins with the match [search] finds. *)
Lemma findall_head :
  hd_error (findall db ic s r) = option_map (group0 s) (search db ic s r).
Proof.
  unfold findall, search. cbn [findall_from]. rewrite Nat.sub_0_r.
  destruct (Re.search_at db ic s r (length s) 0); reflexivity.
Qed.

End Search.
End SearchFacts.

Import ReFacts SearchFacts.

(** ** Characters and case *)

Ltac b2p :=
  repeat rewrite ?andb_true_iff, ?andb_false_iff, ?orb_true_iff, ?orb_false_iff,
    ?N.leb_le, ?N.leb_gt, ?N.eqb_eq, ?N.eqb_neq, ?N.ltb_lt, ?N.ltb_ge in *.

Lemma fold_case_cases c :
  (ascii_upper c = true /\ fold_case c = (c + 32)%N /\ variants c = [c; c + 32]%N) \/
  (ascii_upper c = false /\ ascii_lower c = true /\ fold_case c = c /\ variants c = [c; c - 32]%N) \/
  ((c = 304 \/ c = 305)%N /\ fold_case c = 105%N /\ variants c = [c; 105; 73]%N) \/
  (c = 383%N /\ fold_case c = 115%N /\ variants c = [c; 115; 83]%N) \/
  (c = 8490%N /\ fold_case c = 107%N /\ variants c = [c; 107; 75]%N) \/
  (ascii_upper c = false /\ ascii_lower c = false /\ c <> 304%N /\ c <> 305%N /\
   c <> 383%N /\ c <> 8490%N /\ fold_case c = c /\ variants c = [c]).
Proof.
  unfold fold_case, variants.
  destruct (ascii_upper c) eqn:Hu; [left; auto|].
  destruct (ascii_lower c) eqn:Hl.
  { right; left. repeat split; auto.
    unfold ascii_lower, in_range in Hl. b2p.
    destruct (N.eqb_spec c 304); [lia|]. destruct (N.eqb_spec c 305); [lia|].
    destruct (N.eqb_spec c 383); [lia|]. destruct (N.eqb_spec c 8490); [lia|]. reflexivity. }
  destruct (N.eqb_spec c 304) as [->|]; [right; right; left; cbn; auto|].
  destruct (N.eqb_spec c 305) as [->|]; [right; right; left; cbn; auto|].
  cbn [orb].
  destruct (N.eqb_spec c 383) as [->|]; [right; right; right; left; cbn; auto|].
  destruct (N.eqb_spec c 8490) as [->|]; [right; right; right; right; left; cbn; auto|].
  right; right; right; right; right. repeat split; auto.
Qed.

Lemma lit_char_same_ic l c :
  is_ascii l = true -> lit_char true l c = true <-> same_ic l c.
Proof.
  unfold is_ascii, lit_char, forms, same_ic. intros Hl. apply N.ltb_lt in Hl.
  destruct (fold_case_cases l) as
    [(Hlu & -> & _)|[(Hlu & Hll & -> & _)|[([-> | ->] & _)|[(-> & _)|[(-> & _)|(Hlu & Hll & _ & _ & _ & _ & -> & _)]]]]];
    try lia;
  destruct (fold_case_cases c) as
    [(Hcu & -> & ->)|[(Hcu & Hcl & -> & ->)|[(Hc & -> & ->)|[(-> & -> & ->)|[(-> & -> & ->)|(Hcu & Hcl & ? & ? & ? & ? & -> & ->)]]]]];
  cbn [existsb]; unfold ascii_upper, ascii_lower, in_range in *; b2p; try lia.
Qed.

Section CharFacts.
Variable db : UnicodeDB.

Lemma in_set_upper_or_digit_ic c :
  in_set db true UPPER_OR_DIGIT c = letter_or_digit_ic c.
Proof.
  unfold in_set, UPPER_OR_DIGIT, in_item, forms, letter_or_digit_ic, ascii_digit.
  cbn [existsb]. rewrite orb_false_r. apply eq_true_iff_eq.
  destruct (fold_case_cases c) as
    [(Hcu & -> & ->)|[(Hcu & Hcl & -> & ->)|[(Hc & -> & ->)|[(-> & -> & ->)|[(-> & -> & ->)|(Hcu & Hcl & ? & ? & ? & ? & -> & ->)]]]]];
  cbn [existsb]; unfold ascii_upper, ascii_lower, in_range in *; b2p; try lia.
Qed.

Lemma in_set_upper_or_digit c :
  in_set db false UPPER_OR_DIGIT c = capital_or_digit c.
Proof.
  unfold in_set, UPPER_OR_DIGIT, in_item, forms, capital_or_digit, ascii_upper, ascii_digit.
  cbn [existsb]. rewrite !orb_false_r. reflexivity.
Qed.

Lemma in_set_space ic c : in_set db ic [CatS] c = isspace db c.
Proof. unfold in_set; cbn. apply orb_false_r. Qed.

(** White space is never an opening parenthesis, in any case. *)
Lemma space_not_paren ic c : isspace db c = true -> lit_char ic 40 c = false.
Proof.
  intros Hs. destruct (lit_char ic 40 c) eqn:H; [|reflexivity].
  assert (c = 40%N) as ->.
  { unfold lit_char, forms in H. destruct ic.
    - destruct (fold_case_cases c) as
        [(Hcu & _ & Hv)|[(Hcu & Hcl & _ & Hv)|[(Hc & _ & Hv)|[(-> & _ & Hv)|[(-> & _ & Hv)|(Hcu & Hcl & ? & ? & ? & ? & _ & Hv)]]]]];
        rewrite Hv in H; cbn [existsb] in H;
        unfold ascii_upper, ascii_lower, in_range in *; b2p; lia.
    - cbn [existsb] in H. rewrite orb_false_r in H. b2p. lia. }
  discriminate Hs.
Qed.

End CharFacts.


Section SubjectFacts.
Variable db : UnicodeDB.
Variable ic : bool.
Variable s : str.

Lemma char_at_skipn i : char_at s i = hd_error (skipn i s).
Proof.
  unfold char_at. revert i; induction s as [|a t IH]; intros [|i]; simpl; auto.
Qed.

Lemma skipn_cons i c rest : skipn i s = c :: rest -> char_at s i = Some c /\ skipn (S i) s = rest.
Proof.
  intros H. split; [rewrite char_at_skipn, H; reflexivity|].
  replace (S i) with (1 + i) by lia. rewrite <- skipn_skipn, H. reflexivity.
Qed.

Lemma char_at_cons i c : char_at s i = Some c -> skipn i s = c :: skipn (S i) s.
Proof.
  intros H. rewrite char_at_skipn in H.
  destruct (skipn i s) as [|a r] eqn:Hs; [discriminate|]. injection H as ->.
  apply skipn_cons in Hs. destruct Hs as [_ ->]. reflexivity.
Qed.

Lemma test_at_true p i :
  test_at s p i = true <-> exists c rest, skipn i s = c :: rest /\ p c = true.
Proof.
  unfold test_at. split.
  - destruct (char_at s i) eqn:H; [|discriminate]. intros Hp.
    exists n, (skipn (S i) s). split; [apply char_at_cons; exact H | exact Hp].
  - intros (c & rest & Hs & Hp). apply skipn_cons in Hs. destruct Hs as [-> _]. exact Hp.
Qed.

Lemma lit_at_some l i j :
  lit_at ic s l i = Some j ->
  j = i + length l /\
  exists w rest, skipn i s = w ++ rest /\ Forall2 (fun x c => lit_char ic x c = true) l w.
Proof.
  revert i j; induction l as [|x l IH]; intros i j; cbn [lit_at].
  - intros H; injection H as <-. split; [simpl; lia|].
    exists [], (skipn i s). split; [reflexivity | constructor].
  - destruct (test_at s (lit_char ic x) i) eqn:Ht; [|discriminate].
    apply test_at_true in Ht. destruct Ht as (c & rest & Hs & Hc).
    intros H. apply IH in H. destruct H as (-> & w & rest' & Hw & HF).
    split; [simpl; lia|].
    destruct (skipn_cons _ Hs) as [_ Hs']. rewrite Hs' in Hw. subst rest.
    exists (c :: w), rest'. split; [exact Hs | constructor; assumption].
Qed.

Lemma lit_at_intro l i w rest :
  skipn i s = w ++ rest ->
  Forall2 (fun x c => lit_char ic x c = true) l w ->
  lit_at ic s l i = Some (i + length l).
Proof.
  intros Hs HF. revert i Hs; induction HF as [|x c l w Hxc HF IH]; intros i Hs; cbn [lit_at].
  - simpl; f_equal; lia.
  - assert (test_at s (lit_char ic x) i = true) as ->.
    { apply test_at_true. exists c, (w ++ rest). split; [exact Hs | exact Hxc]. }
    destruct (skipn_cons _ Hs) as [_ Hs']. rewrite (IH _ Hs'). simpl; f_equal; lia.
Qed.

(** A literal cannot start where the subject has a character its first
    character rejects. *)
Lemma lit_at_head_fails x l i c :
  char_at s i = Some c -> lit_char ic x c = false -> lit_at ic s (x :: l) i = None.
Proof.
  intros Hc Hx. cbn [lit_at]. unfold test_at. rewrite Hc, Hx. reflexivity.
Qed.

End SubjectFacts.

Section RunFacts.
Variable p : N -> bool.

Lemma run_full_iff h t :
  run p (Some h) t = h <->
  length (firstn h t) = h /\ Forall (fun c => p c = true) (firstn h t).
Proof.
  revert t; induction h as [|h IH]; intros t.
  - rewrite run_zero. simpl. split; auto.
  - destruct t as [|a t]; cbn [run firstn length].
    + split; [discriminate | intros [H _]; discriminate].
    + destruct (p a) eqn:Ha.
      * rewrite !Nat.succ_inj_wd, IH. split.
        -- intros [H1 H2]; split; [assumption | constructor; assumption].
        -- intros [H1 H2]; inversion H2; subst; split; assumption.
      * split; [discriminate|]. intros [_ H]; inversion H; congruence.
Qed.

(** The white space run before a character that is not white space. *)
Lemma run_prefix ws rest :
  Forall (fun c => p c = true) ws ->
  match rest with [] => True | c :: _ => p c = false end ->
  run p None (ws ++ rest) = length ws.
Proof.
  intros HF Hr. induction HF as [|a ws Ha HF IH]; simpl.
  - destruct rest as [|c r]; simpl; [reflexivity | rewrite Hr; reflexivity].
  - rewrite Ha, IH. reflexivity.
Qed.

End RunFacts.

Lemma run_ext p q hi t : (forall c, p c = q c) -> run p hi t = run q hi t.
Proof.
  intros H. revert hi; induction t as [|a t IH]; intros hi.
  - destruct hi as [[|h]|]; reflexivity.
  - destruct hi as [[|h]|]; simpl; rewrite ?H; try reflexivity;
      destruct (q a); auto.
Qed.

Lemma try_down_exact A (k : nat -> option A) base lo cnt :
  cnt <= lo -> try_down k base lo cnt = if cnt =? lo then k (base + lo) else None.
Proof.
  intros Hle. destruct (Nat.eqb_spec cnt lo) as [->|Hne].
  - destruct (k (base + lo)) eqn:Hk.
    + apply try_down_some with (m := lo); auto; lia.
    + apply try_down_none. intros j Hj. assert (j = lo) as -> by lia. exact Hk.
  - apply try_down_below; lia.
Qed.

Section CnrFacts.
Variable db : UnicodeDB.
Variable text : str.

Lemma token16_run cls i :
  run cls (Some 16) (skipn i text) = 16 <-> token16_at cls text i (slice text i (i + 16)).
Proof.
  unfold token16_at, slice. replace (i + 16 - i) with 16 by lia.
  rewrite run_full_iff. tauto.
Qed.

Lemma token16_unique cls i tok :
  token16_at cls text i tok -> tok = slice text i (i + 16).
Proof. intros [H _]; exact H. Qed.

Lemma token16_bound cls i tok : token16_at cls text i tok -> i + 16 <= length text.
Proof.
  intros (-> & Hlen & _). unfold slice in Hlen.
  rewrite length_firstn, length_skipn in Hlen. lia.
Qed.

Lemma NOTE_PHRASE_head : NOTE_PHRASE = 40%N :: tl NOTE_PHRASE.
Proof. reflexivity. Qed.

(** The note pattern at a given start, without backtracking. *)
Lemma note_match_at i :
  match_at db true text CNR_NOTE_REGEX i =
  if word_boundary db text i
     && (run (in_set db true UPPER_OR_DIGIT) (Some 16) (skipn i text) =? 16)
  then
    match lit_at true text NOTE_PHRASE
            (i + 16 + run (isspace db) None (skipn (i + 16) text)) with
    | Some e => Some {| m_start := i; m_end := e; m_caps := [(1, (i, i + 16))] |}
    | None => None
    end
  else None.
Proof.
  unfold match_at, CNR_NOTE_REGEX, star. cbn [mt].
  destruct (word_boundary db text i); [|reflexivity]. cbn [andb].
  rewrite try_down_exact by apply run_le_hi.
  destruct (_ =? 16); [|reflexivity].
  rewrite (run_ext _ (isspace db) None _ (in_set_space db true)).
  rewrite try_down_greedy.
  - fold NOTE_PHRASE. reflexivity.
  - intros j Hj. fold NOTE_PHRASE.
    destruct (run_inside _ _ _ Hj) as (c & Hc & Hsp).
    rewrite nth_error_skipn in Hc.
    rewrite NOTE_PHRASE_head. erewrite lit_at_head_fails; [reflexivity | exact Hc |].
    apply space_not_paren with (db := db); exact Hsp.
Qed.

End CnrFacts.

Lemma run_firstn_Forall p hi t : Forall (fun c => p c = true) (firstn (run p hi t) t).
Proof.
  revert hi; induction t as [|a t IH]; intros hi.
  - destruct hi as [[|h]|]; constructor.
  - destruct hi as [[|h]|]; simpl; try constructor;
      destruct (p a) eqn:Ha; simpl; constructor; auto.
Qed.

Lemma spells_ic_lit_char l w :
  Forall (fun c => is_ascii c = true) l ->
  Forall2 (fun x c => lit_char true x c = true) l w <-> spells_ic l w.
Proof.
  intros Hl. unfold spells_ic. split; intros HF.
  - induction HF; constructor; inversion Hl; subst; auto.
    apply lit_char_same_ic; assumption.
  - induction HF; constructor; inversion Hl; subst; auto.
    apply lit_char_same_ic; assumption.
Qed.

Lemma NOTE_PHRASE_ascii : Forall (fun c => is_ascii c = true) NOTE_PHRASE.
Proof. repeat constructor. Qed.

Section CnrFacts2.
Variable db : UnicodeDB.
Variable text : str.

Lemma note_follows_iff j :
  note_follows db text j <->
  exists e, lit_at true text NOTE_PHRASE (j + run (isspace db) None (skipn j text)) = Some e.
Proof.
  split.
  - intros (ws & phrase & rest & Hs & Hws & Hph).
    assert (run (isspace db) None (skipn j text) = length ws) as ->.
    { rewrite Hs. apply run_prefix; [exact Hws|].
      unfold spells_ic in Hph. rewrite NOTE_PHRASE_head in Hph.
      destruct phrase as [|c0 ph]; [inversion Hph|]. simpl.
      assert (same_ic 40 c0) as Hx by (inversion Hph; assumption).
      apply (lit_char_same_ic 40 c0 eq_refl) in Hx.
      destruct (isspace db c0) eqn:Hsp; [|reflexivity].
      rewrite (space_not_paren db true _ Hsp) in Hx. discriminate. }
    exists (j + length ws + length NOTE_PHRASE).
    apply lit_at_intro with (w := phrase) (rest := rest).
    + rewrite Nat.add_comm, <- skipn_skipn, Hs, skipn_app, Nat.sub_diag, skipn_all.
      reflexivity.
    + apply spells_ic_lit_char; [apply NOTE_PHRASE_ascii | exact Hph].
  - intros (e & He). apply lit_at_some in He. destruct He as (_ & w & rest & Hs & HF).
    exists (firstn (run (isspace db) None (skipn j text)) (skipn j text)), w, rest.
    split; [|split].
    + rewrite Nat.add_comm, <- skipn_skipn in Hs. rewrite <- Hs. symmetry. apply firstn_skipn.
    + apply run_firstn_Forall.
    + apply spells_ic_lit_char; [apply NOTE_PHRASE_ascii | exact HF].
Qed.

Lemma note_match_some i tok :
  note_token_at db text i tok ->
  exists e, match_at db true text CNR_NOTE_REGEX i =
            Some {| m_start := i; m_end := e; m_caps := [(1, (i, i + 16))] |}.
Proof.
  intros (Hwb & Htok & Hnote). rewrite note_match_at, Hwb.
  rewrite (token16_unique Htok) in Htok. apply token16_run in Htok.
  rewrite (run_ext _ _ _ _ (in_set_upper_or_digit_ic db)), Htok. cbn [andb Nat.eqb].
  apply note_follows_iff in Hnote. destruct Hnote as (e & He).
  rewrite He. eauto.
Qed.

Lemma note_match_inv i m :
  match_at db true text CNR_NOTE_REGEX i = Some m ->
  m_caps m = [(1, (i, i + 16))] /\ note_token_at db text i (slice text i (i + 16)).
Proof.
  rewrite note_match_at.
  destruct (word_boundary db text i) eqn:Hwb; [|discriminate]. cbn [andb].
  destruct (Nat.eqb_spec (run (in_set db true UPPER_OR_DIGIT) (Some 16) (skipn i text)) 16)
    as [Hrun|]; [|discriminate].
  destruct (lit_at _ _ _ _) eqn:He; [|discriminate].
  intros H; injection H as <-. split; [reflexivity|].
  split; [exact Hwb|split].
  - apply token16_run. erewrite run_ext; [exact Hrun|].
    intros c. symmetry; apply in_set_upper_or_digit_ic.
  - apply note_follows_iff. eauto.
Qed.

End CnrFacts2.

Section StripFacts.
Variable db : UnicodeDB.

Lemma lstrip_id t :
  match t with [] => True | c :: _ => isspace db c = false end -> lstrip db t = t.
Proof. destruct t as [|c t]; simpl; [reflexivity|]. intros ->; reflexivity. Qed.

Lemma strip_id t : Forall (fun c => isspace db c = false) t -> strip db t = t.
Proof.
  intros HF. unfold strip, rstrip.
  assert (forall u, Forall (fun c => isspace db c = false) u -> lstrip db u = u) as L.
  { intros u Hu. apply lstrip_id. destruct Hu; [exact I | assumption]. }
  rewrite (L t HF). rewrite L by (apply Forall_rev; exact HF). apply rev_involutive.
Qed.

Lemma capital_or_digit_not_space c : capital_or_digit c = true -> isspace db c = false.
Proof.
  unfold capital_or_digit, isspace, is_ascii, ascii_upper, ascii_digit, in_range.
  intros H. b2p.
  destruct (N.ltb_spec c 128); [|lia]. b2p. lia.
Qed.

End StripFacts.

Section CnrFallback.
Variable db : UnicodeDB.
Variable text : str.

Lemma standalone_match_at i :
  match_at db false text CNR_FALLBACK_REGEX i =
  if word_boundary db text i
     && (run (in_set db false UPPER_OR_DIGIT) (Some 16) (skipn i text) =? 16)
     && word_boundary db text (i + 16)
  then Some {| m_start := i; m_end := i + 16; m_caps := [] |}
  else None.
Proof.
  unfold match_at, CNR_FALLBACK_REGEX. cbn [mt].
  destruct (word_boundary db text i); [|reflexivity]. cbn [andb].
  rewrite try_down_exact by apply run_le_hi.
  destruct (_ =? 16); [|reflexivity]. cbn [andb].
  destruct (word_boundary db text (i + 16)); reflexivity.
Qed.

Lemma standalone_match_some i tok :
  standalone_token_at db text i tok ->
  match_at db false text CNR_FALLBACK_REGEX i =
  Some {| m_start := i; m_end := i + 16; m_caps := [] |}.
Proof.
  intros (Hwb & Htok & Hwe). rewrite standalone_match_at, Hwb, Hwe.
  rewrite (token16_unique Htok) in Htok. apply token16_run in Htok.
  rewrite (run_ext _ _ _ _ (in_set_upper_or_digit db)), Htok. reflexivity.
Qed.

Lemma standalone_match_inv i m :
  match_at db false text CNR_FALLBACK_REGEX i = Some m ->
  m = {| m_start := i; m_end := i + 16; m_caps := [] |} /\
  standalone_token_at db text i (slice text i (i + 16)).
Proof.
  rewrite standalone_match_at.
  destruct (word_boundary db text i) eqn:Hwb; [|discriminate]. cbn [andb].
  destruct (Nat.eqb_spec (run (in_set db false UPPER_OR_DIGIT) (Some 16) (skipn i text)) 16)
    as [Hrun|]; [|discriminate]. cbn [andb].
  destruct (word_boundary db text (i + 16)) eqn:Hwe; [|discriminate].
  intros H; injection H as <-. split; [reflexivity|].
  split; [exact Hwb|split; [|exact Hwe]].
  apply token16_run. erewrite run_ext; [exact Hrun|].
  intros c. symmetry; apply in_set_upper_or_digit.
Qed.

End CnrFallback.

Section CnrTheorem.
Variable db : UnicodeDB.
Variable text : str.

Lemma note_search_none :
  (forall i tok, ~ note_token_at db text i tok) ->
  search db true text CNR_NOTE_REGEX = None.
Proof.
  intros Hno. apply search_at_none. intros j _.
  destruct (match_at db true text CNR_NOTE_REGEX (0 + j)) eqn:Hm; [|reflexivity].
  apply note_match_inv in Hm. destruct Hm as [_ Hm]. exfalso; eapply Hno; exact Hm.
Qed.

(** C4, as the code has it: the CNR number of a detail text.  The first
    sixteen letters or digits, of either case, that start at a word boundary
    and are followed by optional white space and the phrase
    "(Note the CNR number", in any case, are returned, stripped.  Where no
    such place exists, the first standalone run of sixteen capital letters or
    digits is returned: the second search does not ignore case.  Where
    neither exists the field is absent.  A text that begins with the spec's
    example gives AB12CD34EF56GH78, whatever follows. *)
Theorem cnr_number_extraction :
  (forall i tok,
      note_token_at db text i tok ->
      (forall j tok', j < i -> ~ note_token_at db text j tok') ->
      cnr_number db text = Some (strip db tok))
  /\ ((forall i tok, ~ note_token_at db text i tok) ->
      forall i tok,
        standalone_token_at db text i tok ->
        (forall j tok', j < i -> ~ standalone_token_at db text j tok') ->
        cnr_number db text = Some tok)
  /\ ((forall i tok, ~ note_token_at db text i tok) ->
      (forall i tok, ~ standalone_token_at db text i tok) ->
      cnr_number db text = None)
  /\ (forall rest,
        cnr_number db (note_example rest) = Some (lit "AB12CD34EF56GH78")).
Proof.
  split; [|split; [|split]].
  - intros i tok Htok Hfirst.
    destruct (note_match_some Htok) as (e & He).
    assert (search db true text CNR_NOTE_REGEX =
            Some {| m_start := i; m_end := e; m_caps := [(1, (i, i + 16))] |}) as Hs.
    { apply search_at_first with (k := i); [|exact He|].
      - destruct Htok as (_ & Htok & _). apply token16_bound in Htok. lia.
      - intros j Hj. simpl.
        destruct (match_at db true text CNR_NOTE_REGEX j) eqn:Hm; [|reflexivity].
        apply note_match_inv in Hm. destruct Hm as [_ Hm].
        exfalso; eapply Hfirst; [exact Hj | exact Hm]. }
    unfold cnr_number. rewrite Hs. unfold group. cbn.
    destruct Htok as (_ & (-> & _) & _). reflexivity.
  - intros Hno i tok Htok Hfirst.
    unfold cnr_number. rewrite (note_search_none Hno).
    pose proof (standalone_match_some Htok) as He.
    assert (search db false text CNR_FALLBACK_REGEX =
            Some {| m_start := i; m_end := i + 16; m_caps := [] |}) as Hs.
    { apply search_at_first with (k := i); [|exact He|].
      - destruct Htok as (_ & Htok & _). apply token16_bound in Htok. lia.
      - intros j Hj. simpl.
        destruct (match_at db false text CNR_FALLBACK_REGEX j) eqn:Hm; [|reflexivity].
        apply standalone_match_inv in Hm. destruct Hm as [_ Hm].
        exfalso; eapply Hfirst; [exact Hj | exact Hm]. }
    rewrite Hs. unfold group0. cbn [m_start m_end].
    destruct Htok as (_ & (Heq & _ & Hcls) & _). rewrite <- Heq.
    f_equal. apply strip_id. eapply Forall_impl; [|exact Hcls].
    intros c Hc. apply capital_or_digit_not_space; exact Hc.
  - intros Hno Hno'. unfold cnr_number. rewrite (note_search_none Hno).
    assert (search db false text CNR_FALLBACK_REGEX = None) as ->; [|reflexivity].
    apply search_at_none. intros j _.
    destruct (match_at db false text CNR_FALLBACK_REGEX (0 + j)) eqn:Hm; [|reflexivity].
    apply standalone_match_inv in Hm. destruct Hm as [_ Hm]. exfalso; eapply Hno'; exact Hm.
  - intros rest. vm_compute. reflexivity.
Qed.

End CnrTheorem.

(** A standalone token of sixteen lower-case letters and digits, with no
    note after it, is not returned.  Nor is the token of the spec's example
    returned from every text that contains the example: not when a letter
    comes right before it (the token does not start at a word boundary, and
    nothing is returned), and not when an earlier token carries the note
    (the earlier one is returned). *)
Lemma cnr_lone_lowercase_token :
  (forall db, standalone_alnum_token_at db lone_lowercase_token 0 lone_lowercase_token)
  /\ (forall db, cnr_number db lone_lowercase_token = None)
  /\ (forall db, cnr_number db (lit "X" ++ note_example (lit " for future reference)")) = None)
  /\ (forall db rest,
        cnr_number db (lit "ZZ99ZZ99ZZ99ZZ99 (Note the CNR number) " ++ note_example rest)
        = Some (lit "ZZ99ZZ99ZZ99ZZ99")).
Proof.
  split; [|split; [|split]]; intros db.
  - repeat split; try reflexivity. repeat constructor.
  - vm_compute. reflexivity.
  - vm_compute. reflexivity.
  - intros rest. vm_compute. reflexivity.
Qed.

(** ** Labelled fields *)

Lemma try_down_ext A (k k' : nat -> option A) base lo cnt :
  (forall j, k j = k' j) -> try_down k base lo cnt = try_down k' base lo cnt.
Proof.
  intros H. induction cnt as [|cnt IH]; cbn [try_down]; rewrite H; [reflexivity|].
  rewrite IH; reflexivity.
Qed.

Lemma try_down_top A (k : nat -> option A) base lo cnt x :
  k (base + cnt) = Some x ->
  try_down k base lo cnt = if cnt <? lo then None else Some x.
Proof.
  intros H. destruct cnt; cbn [try_down]; rewrite H; reflexivity.
Qed.

Section FieldChars.
Variable db : UnicodeDB.

Lemma in_set_separators c : in_set db true SEPARATORS c = sep_char db c.
Proof.
  unfold in_set, SEPARATORS, in_item, forms, sep_char.
  cbn [existsb]. rewrite orb_false_r, orb_assoc. f_equal.
  apply eq_true_iff_eq.
  destruct (fold_case_cases c) as
    [(Hcu & _ & ->)|[(Hcu & Hcl & _ & ->)|[(Hc & _ & ->)|[(-> & _ & ->)|[(-> & _ & ->)|(Hcu & Hcl & ? & ? & ? & ? & _ & ->)]]]]];
  cbn [existsb]; unfold ascii_upper, ascii_lower, in_range in *; b2p; try lia.
Qed.

Lemma in_set_value_chars c : in_set db true VALUE_CHARS c = value_char db c.
Proof.
  unfold in_set, VALUE_CHARS, in_item, forms, value_char, letter_or_digit_ic, ascii_digit.
  cbn [existsb]. rewrite orb_false_r, !orb_assoc. f_equal.
  apply eq_true_iff_eq.
  destruct (fold_case_cases c) as
    [(Hcu & -> & ->)|[(Hcu & Hcl & -> & ->)|[(Hc & -> & ->)|[(-> & -> & ->)|[(-> & -> & ->)|(Hcu & Hcl & ? & ? & ? & ? & -> & ->)]]]]];
  cbn [existsb]; unfold ascii_upper, ascii_lower, in_range in *; b2p; try lia.
Qed.

Lemma key_text_ascii k : Forall (fun c => is_ascii c = true) (key_text k).
Proof. destruct k; repeat constructor. Qed.

End FieldChars.

Section FieldFacts.
Variable db : UnicodeDB.
Variable key text : str.

Lemma field_match_at i :
  match_at db true text (field_regex key) i =
  match lit_at true text key i with
  | Some j => try_down (value_match db text i) j 0 (run (sep_char db) None (skipn j text))
  | None => None
  end.
Proof.
  unfold match_at, field_regex, star, plus. cbn [mt].
  destruct (lit_at true text key i) as [j|]; [|reflexivity].
  rewrite (run_ext _ _ None _ (in_set_separators db)).
  apply try_down_ext. intros a. unfold value_match.
  rewrite (run_ext _ _ None _ (in_set_value_chars db)).
  erewrite try_down_top; reflexivity.
Qed.

End FieldFacts.

Section MoreRuns.
Variable p : N -> bool.

Lemma run_app_ge w r : Forall (fun c => p c = true) w -> length w <= run p None (w ++ r).
Proof.
  induction 1 as [|a w Ha _ IH]; simpl; [lia|]. rewrite Ha. lia.
Qed.

Lemma run_pos_iff t :
  1 <= run p None t <-> exists c t', t = c :: t' /\ p c = true.
Proof.
  destruct t as [|a t]; simpl.
  - split; [lia | intros (c & t' & H & _); discriminate].
  - destruct (p a) eqn:Ha.
    + split; [eauto | lia].
    + split; [lia | intros (c & t' & H & Hc); injection H as <- <-; congruence].
Qed.

Lemma firstn_run_Forall hi t a :
  a <= run p hi t -> Forall (fun c => p c = true) (firstn a t).
Proof.
  intros Ha. replace a with (Nat.min a (run p hi t)) by lia.
  rewrite <- firstn_firstn.
  generalize (run_firstn_Forall p hi t). generalize (firstn (run p hi t) t) as l.
  intros l Hl. clear Ha. revert a. induction Hl; intros [|a]; simpl; constructor; auto.
Qed.

Lemma run_rest_stops t : 
  ~ exists c t', skipn (run p None t) t = c :: t' /\ p c = true.
Proof.
  intros (c & t' & Hs & Hc).
  assert (nth_error t (run p None t) = Some c) as Hn.
  { rewrite <- (Nat.add_0_r (run p None t)), <- nth_error_skipn, Hs. reflexivity. }
  apply run_stop in Hn. congruence.
Qed.

End MoreRuns.

Section FieldFacts2.
Variable db : UnicodeDB.
Variable key text : str.
Hypothesis key_ascii : Forall (fun c => is_ascii c = true) key.

Lemma starts_with_value_run t :
  starts_with_value db t <-> 1 <= run (value_char db) None t.
Proof. unfold starts_with_value. symmetry. apply run_pos_iff. Qed.

Lemma value_match_some i a m :
  value_match db text i a = Some m ->
  starts_with_value db (skipn a text) /\
  m = {| m_start := i;
         m_end := a + run (value_char db) None (skipn a text);
         m_caps := [(1, (a, a + run (value_char db) None (skipn a text)))] |}.
Proof.
  unfold value_match. destruct (Nat.ltb_spec (run (value_char db) None (skipn a text)) 1);
    [discriminate|].
  intros Hm; injection Hm as <-. split; [|reflexivity].
  apply starts_with_value_run; assumption.
Qed.

Lemma value_match_none i a :
  value_match db text i a = None -> ~ starts_with_value db (skipn a text).
Proof.
  unfold value_match. destruct (Nat.ltb_spec (run (value_char db) None (skipn a text)) 1);
    [|discriminate].
  intros _ Hs. apply starts_with_value_run in Hs. lia.
Qed.

Lemma field_match_some i val :
  field_at db key text i val ->
  exists m, match_at db true text (field_regex key) i = Some m /\
            group text 1 m = Some val.
Proof.
  intros (label & seps & rest & Hs & Hlab & Hseps & Hval & Hne & Hrest & Hmax).
  assert (length label = length key) as Hlen by (symmetry; eapply Forall2_length; exact Hlab).
  rewrite field_match_at.
  erewrite lit_at_intro; [|exact Hs|apply spells_ic_lit_char; assumption].
  set (j := i + length key).
  assert (skipn j text = seps ++ val ++ rest) as Hj.
  { unfold j. rewrite Nat.add_comm, <- skipn_skipn, Hs, <- Hlen, skipn_app, Nat.sub_diag, skipn_all.
    reflexivity. }
  assert (skipn (j + length seps) text = val ++ rest) as Hv.
  { rewrite Nat.add_comm, <- skipn_skipn, Hj, skipn_app, Nat.sub_diag, skipn_all. reflexivity. }
  assert (run (value_char db) None (val ++ rest) = length val) as Hrun.
  { apply run_prefix; [exact Hval|]. destruct rest as [|c r]; [exact I|].
    destruct (value_char db c) eqn:Hc; [|reflexivity].
    exfalso; apply Hrest. exists c, r; auto. }
  exists {| m_start := i; m_end := j + length seps + length val;
            m_caps := [(1, (j + length seps, j + length seps + length val))] |}.
  split.
  - apply try_down_some with (m := length seps).
    + split; [lia|]. rewrite Hj. apply run_app_ge; exact Hseps.
    + intros a Ha. destruct (value_match db text i (j + a)) eqn:Hm; [|reflexivity].
      apply value_match_some in Hm. destruct Hm as [Hst _].
      rewrite Nat.add_comm, <- skipn_skipn, Hj in Hst.
      assert (length (firstn a (seps ++ val ++ rest)) <= length seps); [|
        rewrite length_firstn in *; rewrite Hj in Ha;
        pose proof (run_le_length (sep_char db) None (seps ++ val ++ rest)); lia].
      apply Hmax with (tail := skipn a (seps ++ val ++ rest)).
      * symmetry; apply firstn_skipn.
      * rewrite Hj in Ha. apply firstn_run_Forall with (hi := None). lia.
      * exact Hst.
    + unfold value_match. rewrite Hv, Hrun.
      destruct val as [|v0 val']; [contradiction|]. reflexivity.
  - unfold group. cbn. unfold slice.
    replace (j + length seps + length val - (j + length seps)) with (length val) by lia.
    rewrite Hv, firstn_app, Nat.sub_diag, firstn_all. cbn. rewrite app_nil_r. reflexivity.
Qed.

Lemma field_match_inv i m :
  match_at db true text (field_regex key) i = Some m ->
  exists val, group text 1 m = Some val /\ field_at db key text i val.
Proof.
  rewrite field_match_at.
  destruct (lit_at true text key i) as [j|] eqn:Hlit; [|discriminate].
  apply lit_at_some in Hlit. destruct Hlit as (Hj & label & rest0 & Hs & Hlab).
  apply spells_ic_lit_char in Hlab; [|exact key_ascii].
  assert (length label = length key) as Hlen by (symmetry; eapply Forall2_length; exact Hlab).
  assert (skipn j text = rest0) as Hr0.
  { rewrite Hj, Nat.add_comm, <- skipn_skipn, Hs, <- Hlen, skipn_app, Nat.sub_diag, skipn_all.
    reflexivity. }
  intros Htd. apply try_down_inv in Htd.
  destruct Htd as (a & [_ Ha] & Hm & Hnone).
  apply value_match_some in Hm. destruct Hm as [Hst ->].
  set (n := run (value_char db) None (skipn (j + a) text)).
  assert (skipn (j + a) text = skipn a rest0) as Hja.
  { rewrite Nat.add_comm, <- skipn_skipn, Hr0. reflexivity. }
  assert (a <= length rest0) as Hal.
  { rewrite Hr0 in Ha. pose proof (run_le_length (sep_char db) None rest0). lia. }
  exists (firstn n (skipn (j + a) text)). split.
  { unfold group. cbn. unfold slice. f_equal. f_equal. lia. }
  exists label, (firstn a rest0), (skipn n (skipn (j + a) text)).
  assert (firstn a rest0 ++ firstn n (skipn (j + a) text) ++ skipn n (skipn (j + a) text)
          = rest0) as Hsplit.
  { rewrite firstn_skipn, Hja. apply firstn_skipn. }
  split; [rewrite Hsplit; exact Hs|].
  split; [exact Hlab|].
  split; [rewrite Hr0 in Ha; eapply firstn_run_Forall; exact Ha|].
  split; [apply run_firstn_Forall|].
  split.
  { apply starts_with_value_run in Hst. fold n in Hst.
    intros Hnil. apply (f_equal (@length N)) in Hnil. rewrite length_firstn in Hnil.
    pose proof (run_le_length (value_char db) None (skipn (j + a) text)). fold n in H.
    simpl in Hnil. lia. }
  split; [apply run_rest_stops|].
  intros seps' tail Heq Hseps' Htail.
  rewrite Hsplit in Heq. rewrite length_firstn, Nat.min_l by exact Hal.
  destruct (Nat.le_gt_cases (length seps') a) as [|Hgt]; [assumption|exfalso].
  assert (length seps' <= run (sep_char db) None (skipn j text)) as Hle.
  { rewrite Hr0, Heq. apply run_app_ge; exact Hseps'. }
  specialize (Hnone (length seps') (conj Hgt Hle)).
  apply value_match_none in Hnone. apply Hnone.
  rewrite Nat.add_comm, <- skipn_skipn, Hr0, Heq, skipn_app, Nat.sub_diag, skipn_all.
  exact Htail.
Qed.

End FieldFacts2.

Section FieldTheorem.
Variable db : UnicodeDB.
Variable k : detail_key.
Variable text : str.

Lemma field_at_bound i val : field_at db (key_text k) text i val -> i <= length text.
Proof.
  intros (label & seps & rest & Hs & _ & _ & _ & Hne & _).
  destruct (Nat.le_gt_cases i (length text)) as [|Hgt]; [assumption|].
  rewrite skipn_all2 in Hs by lia.
  destruct label; [|discriminate]. destruct seps; [|discriminate].
  destruct val; [contradiction | discriminate].
Qed.

(** C8, as the code has it: a labelled field of a detail text.  The value
    is read at the first place where the label stands, in any case, followed
    by colons, dashes and white space and by at least one character of the
    value class (letters, digits, slash, dot, dash, white space): the whole
    run of such characters, stripped.  Where the label stands nowhere so, the
    field is absent. *)
Theorem labeled_field_extraction :
  (forall i val,
      field_at db (key_text k) text i val ->
      (forall j val', j < i -> ~ field_at db (key_text k) text j val') ->
      labeled_field db k text = Some (strip db val))
  /\ ((forall i val, ~ field_at db (key_text k) text i val) ->
      labeled_field db k text = None).
Proof.
  split.
  - intros i val Hat Hfirst.
    destruct (field_match_some (key_text_ascii k) Hat) as (m & Hm & Hg).
    unfold labeled_field.
    assert (search db true text (field_regex (key_text k)) = Some m) as ->;
      [|rewrite Hg; reflexivity].
    apply search_at_first with (k := i).
    + apply field_at_bound with (val := val); exact Hat.
    + exact Hm.
    + intros j Hj. simpl.
      destruct (match_at db true text (field_regex (key_text k)) j) eqn:Hmj; [|reflexivity].
      apply field_match_inv in Hmj; [|apply key_text_ascii].
      destruct Hmj as (val' & _ & Hat'). exfalso; eapply Hfirst; [exact Hj | exact Hat'].
  - intros Hno. unfold labeled_field.
    assert (search db true text (field_regex (key_text k)) = None) as ->; [|reflexivity].
    apply search_at_none. intros j _. simpl.
    destruct (match_at db true text (field_regex (key_text k)) j) eqn:Hmj; [|reflexivity].
    apply field_match_inv in Hmj; [|apply key_text_ascii].
    destruct Hmj as (val' & _ & Hat'). exfalso; eapply Hno; exact Hat'.
Qed.

End FieldTheorem.

(** The run of a value goes on through a label that follows it on the
    line, so the order of two labels changes the values read. *)
Lemma labeled_fields_swapped :
  (forall db, labeled_field db Case_Type fields_in_order = Some (lit "CS Filing Number"))
  /\ (forall db, labeled_field db Case_Type fields_swapped = Some (lit "CS"))
  /\ (forall db, labeled_field db Filing_Number fields_in_order = Some (lit "123/2024"))
  /\ (forall db, labeled_field db Filing_Number fields_swapped = Some (lit "123/2024 Case Type"))
  /\ (forall db, labeled_field db Case_Type (lit "Case Type: CS-1") = Some (lit "CS-1")).
Proof. repeat split; intros db; vm_compute; reflexivity. Qed.

(** ** Reading without backtracking *)
Section Reads.
Variable db : UnicodeDB.
Variable ic : bool.
Variable s : str.

Local Abbreviation mt := (Re.mt db ic s).
Local Abbreviation reads_for := (reads_for db ic s).
Local Abbreviation fails_on := (@fails_on s).
Local Abbreviation rejects := (rejects s).

Lemma mt_ext A r : forall i c (k k' : nat -> caps -> option A),
  (forall j c', k j c' = k' j c') -> mt r i c k = mt r i c k'.
Proof.
  induction r as [l|cs|cs lo hi| |r1 IH1 r2 IH2|r1 IH1 r2 IH2|n r IH];
    intros i c k k' H; cbn [Re.mt].
  - destruct (lit_at ic s l i); auto.
  - destruct (test_at s (in_set db ic cs) i); auto.
  - apply try_down_ext; auto.
  - destruct (word_boundary db s i); auto.
  - apply IH1. intros j c'. apply IH2. exact H.
  - rewrite (IH1 i c k k' H), (IH2 i c k k' H). reflexivity.
  - apply IH. intros j c'. apply H.
Qed.

Lemma set_reads A (k : nat -> caps -> option A) cs :
  reads_for k (Set_ cs) (one_end (in_set db ic cs) s).
Proof.
  intros i c. cbn [Re.mt]. unfold test_at, char_at, one_end.
  destruct (nth_error s i) as [ch|]; [|reflexivity].
  destruct (in_set db ic cs ch); reflexivity.
Qed.

Lemma rep_reads_greedy A (k : nat -> caps -> option A) cs lo hi :
  fails_on k (in_set db ic cs) ->
  reads_for k (Rep cs lo hi) (run_end (in_set db ic cs) lo hi s).
Proof.
  intros Hk i c. cbn [Re.mt]. unfold run_end. rewrite try_down_greedy.
  - destruct (_ <? lo); reflexivity.
  - intros j Hj. destruct (run_inside _ _ _ Hj) as (ch & Hch & Hp).
    rewrite nth_error_skipn in Hch. eapply Hk; eassumption.
Qed.

Lemma rep_reads_last A (k : nat -> caps -> option A) cs lo hi :
  total k ->
  reads_for k (Rep cs lo hi) (run_end (in_set db ic cs) lo hi s).
Proof.
  intros Hk i c. cbn [Re.mt]. unfold run_end.
  destruct (k (i + run (in_set db ic cs) hi (skipn i s)) c) eqn:Hx.
  - rewrite (try_down_top _ _ _ _ Hx). destruct (_ <? lo); [reflexivity | symmetry; exact Hx].
  - exfalso; eapply Hk; exact Hx.
Qed.

Lemma seq_reads A (k : nat -> caps -> option A) r1 r2 f1 f2 :
  reads_for (fun j c => mt r2 j c k) r1 f1 ->
  reads_for k r2 f2 ->
  reads_for k (Seq r1 r2) (fun i => and_then (f1 i) f2).
Proof.
  intros H1 H2 i c. cbn [Re.mt]. rewrite H1. unfold and_then.
  destruct (f1 i) as [j|]; [apply H2 | reflexivity].
Qed.

Lemma alt_reads A (k : nat -> caps -> option A) r1 r2 f1 f2 :
  total k ->
  reads_for k r1 f1 -> reads_for k r2 f2 ->
  reads_for k (Alt r1 r2) (fun i => or_else (f1 i) (f2 i)).
Proof.
  intros Hk H1 H2 i c. cbn [Re.mt]. rewrite H1, H2. unfold or_else.
  destruct (f1 i) as [j|]; [|reflexivity].
  destruct (k j c) eqn:Hx; [reflexivity | exfalso; eapply Hk; exact Hx].
Qed.

(** What a reader rejects, the pattern read by it fails on. *)
Lemma reads_fails_on A (k : nat -> caps -> option A) r f p :
  reads_for k r f -> rejects f p -> fails_on (fun j c => mt r j c k) p.
Proof.
  intros H Hf j ch c Hch Hp. rewrite H, (Hf j ch Hch Hp). reflexivity.
Qed.

Lemma and_then_rejects f g p : rejects f p -> rejects (fun i => and_then (f i) g) p.
Proof. intros H j ch Hch Hp. rewrite (H j ch Hch Hp). reflexivity. Qed.

Lemma one_end_rejects (q p : N -> bool) :
  (forall ch, p ch = true -> q ch = false) -> rejects (one_end q s) p.
Proof.
  intros H j ch Hch Hp. unfold one_end. rewrite Hch, (H ch Hp). reflexivity.
Qed.

Lemma run_end_rejects (q p : N -> bool) lo hi :
  1 <= lo -> (forall ch, p ch = true -> q ch = false) -> rejects (run_end q lo hi s) p.
Proof.
  intros Hlo H j ch Hch Hp. unfold run_end.
  assert (run q hi (skipn j s) = 0) as ->.
  { rewrite <- (Nat.add_0_r j), <- nth_error_skipn in Hch.
    destruct (skipn j s) as [|a t]; [discriminate|]. injection Hch as ->.
    destruct hi as [[|h]|]; simpl; rewrite ?(H ch Hp); reflexivity. }
  destruct (Nat.ltb_spec 0 lo); [reflexivity | lia].
Qed.

End Reads.

Section Chains.
Variable db : UnicodeDB.
Variable ic : bool.
Variable s : str.

Local Abbreviation mt := (Re.mt db ic s).
Local Abbreviation reads_for := (reads_for db ic s).
Local Abbreviation rejects := (rejects s).

Lemma reads_for_ext A (k : nat -> caps -> option A) r f f' :
  (forall i, f i = f' i) -> reads_for k r f -> reads_for k r f'.
Proof. intros H Hr i c. rewrite Hr, H. reflexivity. Qed.

Lemma chain_one f i : chain [f] i = f i.
Proof. simpl. unfold and_then. destruct (f i); reflexivity. Qed.

(** The last pattern of a sequence. *)
Lemma chain_last A (k : nat -> caps -> option A) r f :
  reads_for k r f -> reads_for k r (chain [f]).
Proof. apply reads_for_ext. intros i; symmetry; apply chain_one. Qed.

(** A pattern before the rest of a sequence. *)
Lemma chain_cons A (k : nat -> caps -> option A) r1 r2 f fs :
  reads_for (fun j c => mt r2 j c k) r1 f ->
  reads_for k r2 (chain fs) ->
  reads_for k (Seq r1 r2) (chain (f :: fs)).
Proof. intros H1 H2. exact (seq_reads H1 H2). Qed.

Lemma chain_rejects f fs p : rejects f p -> rejects (chain (f :: fs)) p.
Proof. intros H j ch Hch Hp. simpl. rewrite (H j ch Hch Hp). reflexivity. Qed.

(** A run before the rest of a sequence that rejects the run's characters. *)
Lemma chain_cons_run A (k : nat -> caps -> option A) cs lo hi r2 fs :
  reads_for k r2 (chain fs) ->
  rejects (chain fs) (in_set db ic cs) ->
  reads_for k (Seq (Rep cs lo hi) r2) (chain (run_end (in_set db ic cs) lo hi s :: fs)).
Proof.
  intros H2 Hrej. apply chain_cons; [|exact H2].
  apply rep_reads_greedy. eapply reads_fails_on; eassumption.
Qed.

Lemma run_end_ext p q lo hi i :
  (forall c, p c = q c) -> run_end p lo hi s i = run_end q lo hi s i.
Proof. intros H. unfold run_end. rewrite (run_ext _ _ hi _ H). reflexivity. Qed.

Lemma one_end_ext p q i :
  (forall c, p c = q c) -> one_end p s i = one_end q s i.
Proof. intros H. unfold one_end. destruct (nth_error s i); [rewrite H|]; reflexivity. Qed.

Lemma chain_ext fs fs' i :
  Forall2 (fun f f' => forall j, f j = f' j) fs fs' -> chain fs i = chain fs' i.
Proof.
  intros H; revert i; induction H as [|f f' fs fs' Hf _ IH]; intros i; simpl; [reflexivity|].
  rewrite Hf. destruct (f' i); simpl; auto.
Qed.

Lemma rejects_ext f f' p : (forall j, f j = f' j) -> rejects f p -> rejects f' p.
Proof. intros H Hr j ch Hch Hp. rewrite <- H. eapply Hr; eassumption. Qed.

End Chains.

Lemma lit_char_same_icb l c : is_ascii l = true -> lit_char true l c = same_icb l c.
Proof.
  intros Hl. apply eq_true_iff_eq. rewrite (lit_char_same_ic l c Hl).
  unfold same_icb, same_ic. symmetry. apply N.eqb_eq.
Qed.

Lemma lit_at_word_end s l i :
  Forall (fun c => is_ascii c = true) l -> lit_at true s l i = word_end l s i.
Proof.
  intros Hl; revert i; induction Hl as [|x l Hx _ IH]; intros i; cbn [lit_at word_end].
  - reflexivity.
  - unfold test_at, char_at. destruct (nth_error s i) as [c|]; [|reflexivity].
    rewrite (lit_char_same_icb x c Hx). destruct (same_icb x c); auto.
Qed.

Lemma lit_reads db s A (k : nat -> caps -> option A) l :
  Forall (fun c => is_ascii c = true) l ->
  reads_for db true s k (Lit l) (word_end l s).
Proof. intros Hl i c. cbn [Re.mt]. rewrite (lit_at_word_end s i Hl). reflexivity. Qed.

(** A word rejects the characters its first letter rejects. *)
Lemma word_end_rejects s x l p :
  (forall ch, p ch = true -> same_icb x ch = false) -> rejects s (word_end (x :: l) s) p.
Proof.
  intros H j ch Hch Hp. cbn [word_end]. rewrite Hch, (H ch Hp). reflexivity.
Qed.

Section ClassFacts.
Variable db : UnicodeDB.

Lemma in_set_digit ic c : in_set db ic [CatD] c = isdecimal db c.
Proof. unfold in_set; cbn. apply orb_false_r. Qed.

Lemma in_set_word ic c : in_set db ic [CatW] c = isword db c.
Proof. unfold in_set; cbn. apply orb_false_r. Qed.

Lemma in_set_date_sep c : in_set db false DATE_SEP c = date_sep c.
Proof.
  unfold in_set, DATE_SEP, date_sep, in_item, forms. cbn [existsb].
  rewrite !orb_false_r, (N.eqb_sym 47), (N.eqb_sym 45), (N.eqb_sym 46), orb_assoc.
  reflexivity.
Qed.

Lemma space_ascii_cases c :
  isspace db c = true -> (c < 128 /\ (9 <= c <= 13 \/ 28 <= c <= 32))%N \/
                         ((128 <= c)%N /\ uni_space db c = true).
Proof.
  unfold isspace, is_ascii, in_range. destruct (N.ltb_spec c 128) as [Hlt|Hge]; intros H.
  - left. b2p. lia.
  - right. auto.
Qed.

(** White space starts neither "Hearing" nor "Date", in any case. *)
Lemma space_not_letter x ch :
  (x = 72 \/ x = 68)%N -> isspace db ch = true -> same_icb x ch = false.
Proof.
  intros Hx Hs. unfold same_icb. apply N.eqb_neq. intros Heq.
  assert (ch = 72 \/ ch = 104 \/ ch = 68 \/ ch = 100)%N as Hc.
  { destruct (fold_case_cases ch) as
      [(Hcu & Hf & _)|[(Hcu & Hcl & Hf & _)|[(Hc & Hf & _)|[(-> & Hf & _)|[(-> & Hf & _)|(Hcu & Hcl & ? & ? & ? & ? & Hf & _)]]]]];
    rewrite Hf in Heq; destruct Hx as [-> | ->]; cbn in Heq;
    unfold ascii_upper, ascii_lower, in_range in *; b2p; lia. }
  destruct (space_ascii_cases ch Hs) as [[? ?]|[? _]]; lia.
Qed.

Lemma digit_not_date_sep ch : isdecimal db ch = true -> date_sep ch = false.
Proof.
  unfold isdecimal, is_ascii, ascii_digit, in_range, date_sep.
  destruct (N.ltb_spec ch 128) as [Hlt|Hge]; intros H.
  - b2p. lia.
  - b2p. lia.
Qed.

Hypothesis ok : tables_ok db.

Lemma space_not_word ch : isspace db ch = true -> isword db ch = false.
Proof.
  intros Hs. destruct (space_ascii_cases ch Hs) as [[Hlt Hr]|[Hge Hu]].
  - unfold isword, is_ascii, ascii_alnum, ascii_digit, ascii_upper, ascii_lower, in_range.
    destruct (N.ltb_spec ch 128) as [_|Hge]; [|lia]. b2p. lia.
  - unfold isword, is_ascii. destruct (N.ltb_spec ch 128) as [Hlt|_]; [lia|].
    apply (space_not_alnum ok); exact Hu.
Qed.

Lemma digit_is_word ch : isdecimal db ch = true -> isword db ch = true.
Proof.
  unfold isdecimal, isword, is_ascii, ascii_alnum. destruct (N.ltb_spec ch 128) as [Hlt|Hge].
  - intros ->. reflexivity.
  - apply (decimal_is_alnum ok).
Qed.

Lemma word_not_space ch : isword db ch = true -> isspace db ch = false.
Proof.
  intros Hw. destruct (isspace db ch) eqn:Hs; [|reflexivity].
  rewrite (space_not_word ch Hs) in Hw. discriminate.
Qed.

Lemma digit_not_space ch : isdecimal db ch = true -> isspace db ch = false.
Proof. intros H. apply word_not_space, digit_is_word, H. Qed.

Lemma space_not_digit ch : isspace db ch = true -> isdecimal db ch = false.
Proof.
  intros Hs. destruct (isdecimal db ch) eqn:Hd; [|reflexivity].
  rewrite (digit_not_space ch Hd) in Hs. discriminate.
Qed.

End ClassFacts.

Section DatePatterns.
Variable db : UnicodeDB.
Variable s : str.

(** The D/M/Y pattern reads as [dmy_end], whatever comes after it, if that
    cannot fail. *)
Lemma dmy_reads A (k : nat -> caps -> option A) :
  total k -> reads_for db false s k DMY_REGEX (dmy_end db s).
Proof.
  intros Hk.
  assert (forall fs, rejects s (chain (one_end (in_set db false DATE_SEP) s :: fs))
                       (in_set db false [CatD])) as Hrej.
  { intros fs. apply chain_rejects, one_end_rejects. intros ch Hd.
    rewrite in_set_digit in Hd. rewrite in_set_date_sep.
    apply digit_not_date_sep with (db := db); exact Hd. }
  eapply reads_for_ext; [|unfold DMY_REGEX;
    apply chain_cons_run; [apply chain_cons; [apply set_reads|];
      apply chain_cons_run; [apply chain_cons; [apply set_reads|];
        apply chain_last, rep_reads_last; exact Hk | apply Hrej] | apply Hrej]].
  intros i. unfold dmy_end, digits_end. apply chain_ext.
  repeat constructor; intros j;
    first [apply run_end_ext; intros c; apply in_set_digit
          | apply one_end_ext; intros c; apply in_set_date_sep].
Qed.

Hypothesis ok : tables_ok db.

Lemma d_month_y_reads A (k : nat -> caps -> option A) :
  total k -> reads_for db false s k D_MONTH_Y_REGEX (d_month_y_end db s).
Proof.
  intros Hk.
  eapply reads_for_ext; [|unfold D_MONTH_Y_REGEX, plus;
    apply chain_cons_run; [
      apply chain_cons_run; [
        apply chain_cons_run; [
          apply chain_cons_run; [apply chain_last, rep_reads_last; exact Hk|] |] |] |]].
  - intros i. unfold d_month_y_end, digits_end, spaces_end, word_chars_end. apply chain_ext.
    repeat constructor; intros j; apply run_end_ext; intros c;
      first [apply in_set_digit | apply in_set_space | apply in_set_word].
  - apply chain_rejects, run_end_rejects; [lia|]. intros ch H.
    rewrite in_set_space in H. rewrite in_set_digit. apply space_not_digit; assumption.
  - apply chain_rejects, run_end_rejects; [lia|]. intros ch H.
    rewrite in_set_word in H. rewrite in_set_space. apply word_not_space; assumption.
  - apply chain_rejects, run_end_rejects; [lia|]. intros ch H.
    rewrite in_set_space in H. rewrite in_set_word. apply space_not_word; assumption.
  - apply chain_rejects, run_end_rejects; [lia|]. intros ch H.
    rewrite in_set_digit in H. rewrite in_set_space. apply digit_not_space; assumption.
Qed.

Lemma date_token_reads A (k : nat -> caps -> option A) :
  total k -> reads_for db false s k DATE_TOKEN_REGEX (date_token_end db s).
Proof.
  intros Hk. unfold DATE_TOKEN_REGEX, date_token_end.
  apply (alt_reads Hk (dmy_reads Hk) (d_month_y_reads Hk)).
Qed.

End DatePatterns.

Section LabelPattern.
Variable db : UnicodeDB.
Variable s : str.

Lemma spaces_then_word_rejects x l fs :
  (x = 72 \/ x = 68)%N ->
  rejects s (chain (word_end (x :: l) s :: fs)) (in_set db true [CatS]).
Proof.
  intros Hx. apply chain_rejects, word_end_rejects. intros ch H.
  rewrite in_set_space in H. apply space_not_letter with (db := db); assumption.
Qed.

Lemma label_words_reads A (k : nat -> caps -> option A) :
  total k -> reads_for db true s k DATE_LABEL_WORDS (label_words_end db s).
Proof.
  intros Hk. unfold DATE_LABEL_WORDS, label_words_end, plus.
  assert (forall fs fs' i,
             Forall2 (fun f f' => forall j, f j = f' j) fs fs' ->
             chain fs i = chain fs' i) as Hext by (intros; apply chain_ext; assumption).
  assert (forall j, run_end (in_set db true [CatS]) 1 None s j = spaces_end db s j) as Hsp.
  { intros j. apply run_end_ext. intros c. apply in_set_space. }
  repeat apply alt_reads; try exact Hk.
  - eapply reads_for_ext;
      [|apply chain_cons; [apply lit_reads; repeat constructor|];
        apply chain_cons_run; [apply chain_cons; [apply lit_reads; repeat constructor|];
          apply chain_cons_run; [apply chain_last, lit_reads; repeat constructor|] |]].
    + intros i. apply Hext. repeat constructor; auto.
    + apply spaces_then_word_rejects; right; reflexivity.
    + apply spaces_then_word_rejects; left; reflexivity.
  - eapply reads_for_ext;
      [|apply chain_cons; [apply lit_reads; repeat constructor|];
        apply chain_cons_run; [apply chain_last, lit_reads; repeat constructor|]].
    + intros i. apply Hext. repeat constructor; auto.
    + apply spaces_then_word_rejects; right; reflexivity.
  - eapply reads_for_ext;
      [|apply chain_cons; [apply lit_reads; repeat constructor|];
        apply chain_cons_run; [apply chain_last, lit_reads; repeat constructor|]].
    + intros i. apply Hext. repeat constructor; auto.
    + apply spaces_then_word_rejects; left; reflexivity.
  - apply chain_last, lit_reads. repeat constructor.
Qed.

End LabelPattern.

(** ** From readers to [search] and [findall] *)
Section Spans.
Variable db : UnicodeDB.
Variable ic : bool.
Variable s : str.
Variable r : regex.
Variable f : nat -> option nat.

Hypothesis match_reads :
  forall i, option_map span (match_at db ic s r i) = option_map (pair i) (f i).

Lemma search_at_leftmost n i0 :
  option_map span (search_at db ic s r n i0) = leftmost f n i0.
Proof.
  revert i0; induction n as [|n IH]; intros i0; simpl;
    specialize (match_reads i0);
    destruct (match_at db ic s r i0) as [m|]; destruct (f i0) as [e|];
    simpl in match_reads; try discriminate; try assumption; auto.
Qed.

Lemma findall_first_token :
  hd_error (findall db ic s r) =
  option_map (fun ie => slice s (fst ie) (snd ie)) (leftmost f (length s) 0).
Proof.
  rewrite findall_head, <- search_at_leftmost. unfold search.
  destruct (search_at db ic s r (length s) 0); reflexivity.
Qed.

End Spans.

Lemma final_total i : total (fun j c => Some {| m_start := i; m_end := j; m_caps := c |}).
Proof. intros j c; discriminate. Qed.

(** A pattern that reads as [f] has its matches where [f] reads. *)
Lemma reads_match_at db ic s r f :
  (forall i, reads_for db ic s
               (fun j c => Some {| m_start := i; m_end := j; m_caps := c |}) r f) ->
  forall i, option_map span (match_at db ic s r i) = option_map (pair i) (f i).
Proof.
  intros H i. unfold match_at. rewrite (H i). destruct (f i); reflexivity.
Qed.

Section LabelSearch.
Variable db : UnicodeDB.
Variable s : str.

Lemma label_match_at i :
  option_map span (match_at db true s DATE_LABEL_REGEX i) = option_map (pair i) (label_end db s i).
Proof.
  unfold match_at, DATE_LABEL_REGEX, star. cbn [mt].
  rewrite label_words_reads.
  - unfold label_end. cbn [chain]. unfold and_then at 1.
    destruct (label_words_end db s i) as [j|]; [|reflexivity].
    erewrite try_down_top by reflexivity. cbn [Nat.ltb Nat.leb option_map span m_start m_end].
    unfold run_end, and_then. cbn [Nat.ltb Nat.leb].
    rewrite (run_ext _ _ None _ (in_set_separators db)). reflexivity.
  - intros j c Hn. erewrite try_down_top in Hn by reflexivity. discriminate.
Qed.

End LabelSearch.

Section HearingDateTheorem.
Variable db : UnicodeDB.
Hypothesis ok : tables_ok db.
Variable DATEUTIL_AVAILABLE : bool.
Variable dateparser_parse : forall (dayfirst : bool) (text : str), option date.

Lemma findall_date_tokens t :
  hd_error (findall db false t DATE_TOKEN_REGEX) = first_token (date_token_end db) t.
Proof.
  apply findall_first_token, reads_match_at. intros i.
  apply date_token_reads; [exact ok | apply final_total].
Qed.

Lemma findall_dmy_tokens t :
  hd_error (findall db false t DMY_REGEX) = first_token (dmy_end db) t.
Proof.
  apply findall_first_token, reads_match_at. intros i.
  apply dmy_reads, final_total.
Qed.

Lemma search_label t :
  option_map span (search db true t DATE_LABEL_REGEX) = leftmost (label_end db t) (length t) 0.
Proof. apply search_at_leftmost, label_match_at. Qed.

Lemma match_head A B (l : list A) (g : A -> option B) :
  match l with x :: _ => g x | [] => None end =
  match hd_error l with Some x => g x | None => None end.
Proof. destruct l; reflexivity. Qed.


End HearingDateTheorem.


(** ** Listing rows *)
Section ListingFacts.
Variable db : UnicodeDB.
Variables BEAUTIFULSOUP_AVAILABLE DATEUTIL_AVAILABLE : bool.
Variable dateparser_parse : forall (dayfirst : bool) (text : str), option date.

Local Abbreviation case_of_row := (case_of_row db DATEUTIL_AVAILABLE dateparser_parse).
Local Abbreviation rows_loop := (rows_loop db DATEUTIL_AVAILABLE dateparser_parse).
Local Abbreviation extract :=
  (extract_cases_from_soup db BEAUTIFULSOUP_AVAILABLE DATEUTIL_AVAILABLE dateparser_parse).

(** The row loop appends, in order, one case per row that has cells. *)
Lemma rows_loop_map court rows cases :
  rows_loop court rows cases =
  cases ++ map (case_of_row court) (filter (has_cells db) rows).
Proof.
  revert cases; induction rows as [|tr rows IH]; intros cases; simpl.
  - rewrite app_nil_r; reflexivity.
  - unfold has_cells at 1. destruct (row_cols db tr) as [|c0 cs] eqn:Hc.
    + apply IH.
    + rewrite IH. simpl. rewrite <- app_assoc. reflexivity.
Qed.

Lemma case_of_row_cols court tr : cols (case_of_row court tr) = row_cols db tr.
Proof. reflexivity. Qed.

Lemma case_of_row_court court tr : court_name (case_of_row court tr) = court.
Proof. reflexivity. Qed.

(** C10: the rows of a listing page.  Without a table there are none; with
    one, the cases are those of the table's rows after the first that have
    cells, in order, so the first row and the rows without cells are never
    emitted; and every case carries the text of the first heading, or
    "Unknown Court". *)
Theorem listing_rows soup_obj :
  let cases := extract soup_obj in
  (Bs.find ["table"]%string soup_obj = None -> cases = [])
  /\ (forall table,
        Bs.find ["table"]%string soup_obj = Some table ->
        BEAUTIFULSOUP_AVAILABLE = true ->
        cases = map (case_of_row (court_of db soup_obj))
                    (filter (has_cells db) (tl (Bs.find_all ["tr"]%string table))))
  /\ (forall table c,
        Bs.find ["table"]%string soup_obj = Some table ->
        In c cases ->
        exists tr, In tr (tl (Bs.find_all ["tr"]%string table)) /\
                   row_cols db tr <> [] /\
                   c = case_of_row (court_of db soup_obj) tr)
  /\ Forall (fun c => cols c <> []) cases
  /\ Forall (fun c =>
               court_name c =
               match Bs.find ["h1"; "h2"; "h3"]%string soup_obj with
               | Some h => Bs.get_text db [] h
               | None => lit "Unknown Court"
               end) cases.
Proof.
  assert (forall table,
             Bs.find ["table"]%string soup_obj = Some table ->
             extract soup_obj = [] \/
             extract soup_obj =
             map (case_of_row (court_of db soup_obj))
                 (filter (has_cells db) (tl (Bs.find_all ["tr"]%string table)))) as Hshape.
  { intros table Ht. unfold extract_cases_from_soup. rewrite Ht.
    destruct BEAUTIFULSOUP_AVAILABLE; [right|left; reflexivity].
    cbn [negb]. rewrite rows_loop_map. reflexivity. }
  assert (forall c, In c (extract soup_obj) ->
             exists table tr,
               Bs.find ["table"]%string soup_obj = Some table /\
               In tr (tl (Bs.find_all ["tr"]%string table)) /\
               row_cols db tr <> [] /\
               c = case_of_row (court_of db soup_obj) tr) as Hin.
  { intros c Hc. destruct (Bs.find ["table"]%string soup_obj) as [table|] eqn:Ht.
    - destruct (Hshape table eq_refl) as [H|H]; rewrite H in Hc; [contradiction|].
      apply in_map_iff in Hc. destruct Hc as (tr & <- & Htr).
      apply filter_In in Htr. destruct Htr as [Htr Hcells].
      exists table, tr. repeat split; auto.
      unfold has_cells in Hcells. destruct (row_cols db tr); [discriminate | discriminate].
    - unfold extract_cases_from_soup in Hc. rewrite Ht in Hc.
      destruct BEAUTIFULSOUP_AVAILABLE; contradiction. }
  cbv zeta. split; [|split; [|split; [|split]]].
  - intros Ht. unfold extract_cases_from_soup. rewrite Ht.
    destruct BEAUTIFULSOUP_AVAILABLE; reflexivity.
  - intros table Ht Hbs. unfold extract_cases_from_soup. rewrite Ht, Hbs.
    cbn [negb]. rewrite rows_loop_map. reflexivity.
  - intros table c Ht Hc. destruct (Hin c Hc) as (table' & tr & Ht' & Htr & Hcols & ->).
    rewrite Ht in Ht'. injection Ht' as <-. exists tr. auto.
  - apply Forall_forall. intros c Hc.
    destruct (Hin c Hc) as (_ & tr & _ & _ & Hcols & ->). exact Hcols.
  - apply Forall_forall. intros c Hc.
    destruct (Hin c Hc) as (_ & tr & _ & _ & _ & ->). reflexivity.
Qed.

End ListingFacts.

(** ** The hearing-date filter *)

Lemma filter_subsequence A (p : A -> bool) l : subsequence (filter p l) l.
Proof.
  induction l as [|x l IH]; simpl; [constructor|].
  destruct (p x); constructor; exact IH.
Qed.

Lemma filter_loop_filter today all_cases matches :
  filter_loop today (today + 1)%Z all_cases matches = matches ++ filter (due today) all_cases.
Proof.
  revert matches; induction all_cases as [|c rest IH]; intros matches; simpl.
  - rewrite app_nil_r; reflexivity.
  - unfold due at 1. destruct (next_hearing_date c) as [listed|]; [|apply IH].
    destruct ((listed =? today) || (listed =? today + 1))%Z; rewrite IH; [|reflexivity].
    rewrite <- app_assoc. reflexivity.
Qed.

(** C2: on any day but the last of the calendar, the filter returns the rows
    due today or tomorrow: a subsequence of its input in the input's order,
    each with a hearing date equal to today or to the day after; the rows
    without a date are left out, and nothing is raised. *)
Theorem hearing_date_filter_due today all_cases :
  (1 <= today < MAXORDINAL)%Z ->
  exists matches,
    hearing_date_filter today all_cases = Some matches /\
    matches = filter (due today) all_cases /\
    subsequence matches all_cases /\
    Forall (fun c => next_hearing_date c = Some today \/
                     next_hearing_date c = Some (today + 1)%Z) matches /\
    (forall c, In c all_cases -> next_hearing_date c = None -> ~ In c matches).
Proof.
  intros Hday. exists (filter (due today) all_cases).
  split; [|split; [reflexivity|split; [apply filter_subsequence|split]]].
  - unfold hearing_date_filter, date_add_days.
    destruct (Z.ltb_spec 0 (today + 1)); [|lia].
    destruct (Z.leb_spec (today + 1) MAXORDINAL); [|lia].
    cbn [andb]. rewrite filter_loop_filter. reflexivity.
  - apply Forall_forall. intros c Hc. apply filter_In in Hc. destruct Hc as [_ Hd].
    unfold due in Hd. destruct (next_hearing_date c) as [listed|]; [|discriminate].
    apply orb_true_iff in Hd. destruct Hd as [Hd|Hd]; apply Z.eqb_eq in Hd; subst; auto.
  - intros c _ Hnone Hc. apply filter_In in Hc. destruct Hc as [_ Hd].
    unfold due in Hd. rewrite Hnone in Hd. discriminate.
Qed.

(** Three rows with hearings today, in two days and tomorrow: the first and
    the third are kept, in that order. *)
Lemma hearing_date_filter_due_witness :
  exists matches,
    hearing_date_filter 739018 (three_rows 739018) = Some matches /\
    matches = filter (due 739018) (three_rows 739018) /\
    subsequence matches (three_rows 739018) /\
    Forall (fun c => next_hearing_date c = Some 739018%Z \/
                     next_hearing_date c = Some (739018 + 1)%Z) matches /\
    (forall c, In c (three_rows 739018) -> next_hearing_date c = None -> ~ In c matches).
Proof. apply hearing_date_filter_due. unfold MAXORDINAL. lia. Defined.

(** ** The capture batch *)

(** Run a computation apart: name its result and the state it leaves. *)
Ltac step_m :=
  match goal with
  | |- context [let (_, _) := ?m ?st in _] =>
      let a := fresh "a" in let st' := fresh "st" in
      let Hm := fresh "Hm" in destruct (m st) as [a st'] eqn:Hm
  end.

(** The next computation of a sequence, run apart. *)
Ltac next_m := cbv beta zeta; unfold bind at 1; cbv beta zeta; step_m; cbv beta zeta.

Section Capture.
Variables World Driver Elem : Type.
Variable cfg : setting World Driver Elem.

Local Abbreviation state := (Web.state World Driver Elem).

Lemma find_and_click_no_driver serial_number (st : state) :
  fst (find_and_click_view_button cfg None serial_number st) = false.
Proof. reflexivity. Qed.

(** The attachments are collected unless an address cannot be joined. *)
Lemma download_linked_pdfs_joined d anchors : forall pdfs (st : state),
  Forall (fun a => forall href base,
            Bs.get_attr "href" a = Some href -> lower_endswith_pdf href = true ->
            urljoin (s_env cfg) base href <> None) anchors ->
  fst (download_linked_pdfs cfg d anchors pdfs st) <> None.
Proof.
  induction anchors as [|a rest IH]; intros pdfs st Hall; [discriminate|].
  inversion Hall as [|? ? Ha Hrest]; subst.
  cbn [download_linked_pdfs].
  destruct (Bs.get_attr "href" a) as [href|] eqn:Hh; [|apply IH; exact Hrest].
  destruct (lower_endswith_pdf href) eqn:Hp; [|apply IH; exact Hrest].
  unfold bind at 1. unfold look at 1. cbn [fst snd].
  specialize (Ha href (w_current_url (s_env cfg) (world st) d) eq_refl Hp).
  destruct (urljoin (s_env cfg) (w_current_url (s_env cfg) (world st) d) href) as [joined|];
    [|contradiction].
  unfold bind. destruct (download_file cfg joined (s_download_dir cfg) st) as [dl st1].
  destruct dl as [[|ch local_name]|]; apply IH; exact Hrest.
Qed.

(** How a capture ends: with the failed record where the View button was
    not found; where it was, with a completed record or by an exception. *)
Lemma capture_cases driver c (st : state) :
  let found := fst (find_and_click_view_button cfg driver (serial c) st) in
  let r := fst (capture_case_details_automated cfg driver c st) in
  (found = false -> r = Some (failed_case_data c)) /\
  (found = true ->
   r = None \/
   exists details pdf_saved pdfs, r = Some (completed_case_data c details pdf_saved pdfs)).
Proof.
  cbv zeta. destruct driver as [d|]; [|split; [reflexivity | intros H; discriminate H]].
  destruct (capture_case_details_automated cfg (Some d) c st) as [r st'] eqn:Hr.
  cbn [fst]. revert Hr.
  unfold capture_case_details_automated. cbv beta zeta. unfold bind at 1.
  destruct (find_and_click_view_button cfg (Some d) (serial c) st) as [found st1].
  cbn [fst]. destruct found.
  - next_m. next_m. next_m.
    destruct (negb (s_bs4 cfg)).
    { intros H; injection H as <- <-. split; [discriminate | auto]. }
    next_m. next_m.
    match goal with
    | H : download_linked_pdfs _ _ _ _ _ = (?o, _) |- _ => destruct o as [pdfs|]
    end.
    + unfold bind. repeat step_m. intros H; injection H as <- <-.
      split; [discriminate|]. intros _. right. eauto.
    + intros H; injection H as <- <-. split; [discriminate | auto].
  - intros H; injection H as <- <-. split; [reflexivity | discriminate].
Qed.

(** What every record carries over from its row. *)
Lemma capture_record driver c (st : state) r :
  fst (capture_case_details_automated cfg driver c st) = Some r -> record_of c r.
Proof.
  destruct (capture_cases driver c st) as [Hf Ht]. cbv zeta in Hf, Ht.
  destruct (fst (find_and_click_view_button cfg driver (serial c) st)).
  - destruct (Ht eq_refl) as [->|(details & pdf_saved & pdfs & ->)]; [discriminate|].
    intros H; injection H as <-. repeat split.
  - rewrite (Hf eq_refl). intros H; injection H as <-. repeat split.
Qed.

Lemma capture_failed driver c (st : state) :
  fst (find_and_click_view_button cfg driver (serial c) st) = false ->
  fst (capture_case_details_automated cfg driver c st) = Some (failed_case_data c).
Proof. apply capture_cases. Qed.

Lemma capture_completed driver c (st : state) r :
  fst (find_and_click_view_button cfg driver (serial c) st) = true ->
  fst (capture_case_details_automated cfg driver c st) = Some r ->
  Status r = Completed.
Proof.
  intros Hfound Hr. destruct (capture_cases driver c st) as [_ Ht].
  destruct (Ht Hfound) as [Hn|(details & pdf_saved & pdfs & Hs)]; rewrite Hr in *;
    [discriminate|]. injection Hs as ->. reflexivity.
Qed.

(** With BeautifulSoup at hand, on pages whose attachments all have
    addresses that join, no capture is left by an exception. *)
Lemma capture_returns driver c (st : state) :
  s_bs4 cfg = true -> addresses_join cfg ->
  fst (capture_case_details_automated cfg driver c st) <> None.
Proof.
  intros Hbs Hjoin. destruct driver as [d|]; [|discriminate].
  unfold capture_case_details_automated. cbv beta zeta. unfold bind at 1.
  destruct (find_and_click_view_button cfg (Some d) (serial c) st) as [[|] st1];
    [|discriminate].
  next_m. next_m. next_m.
  rewrite Hbs. cbn [negb].
  unfold bind at 1. unfold page_soup, send. cbn [fst snd world sent].
  unfold bind at 1.
  match goal with
  | |- context [download_linked_pdfs cfg d ?an [] ?s] =>
      pose proof (@download_linked_pdfs_joined d an [] s) as Hd;
      destruct (download_linked_pdfs cfg d an [] s) as [[pdfs|] st6]
  end.
  - unfold bind. repeat step_m. discriminate.
  - exfalso. apply Hd; [|reflexivity].
    apply Forall_forall. intros anchor Ha href base Hh Hp.
    apply filter_In in Ha. destruct Ha as [Ha _].
    eapply Hjoin; eassumption.
Qed.

(** One row of the batch, then the others. *)
Lemma capture_rows_cons driver c rest (st : state) :
  capture_rows cfg driver (c :: rest) st =
  match capture_case_details_automated cfg driver c st with
  | (Some r, st1) =>
      let st2 := snd (time_sleep cfg 1000 st1) in
      (r :: fst (capture_rows cfg driver rest st2), snd (capture_rows cfg driver rest st2))
  | (None, st1) => ([], st1)
  end.
Proof.
  cbn [capture_rows]. unfold bind, ret.
  destruct (capture_case_details_automated cfg driver c st) as [[r|] st1]; [|reflexivity].
  cbv zeta. destruct (time_sleep cfg 1000 st1) as [u st2]. cbn [snd].
  destruct (capture_rows cfg driver rest st2); reflexivity.
Qed.

(** The records of the rows gone through belong to the first rows, one to
    one. *)
Lemma capture_rows_records driver rows : forall (st : state),
  let rs := fst (capture_rows cfg driver rows st) in
  length rs <= length rows /\ Forall2 record_of (firstn (length rs) rows) rs.
Proof.
  induction rows as [|c rest IH]; intros st; cbv zeta;
    [cbn; split; [lia | constructor]|].
  rewrite capture_rows_cons.
  pose proof (@capture_record driver c st) as Hr.
  destruct (capture_case_details_automated cfg driver c st) as [[r|] st1];
    [|cbn; split; [lia | constructor]].
  cbv zeta. destruct (IH (snd (time_sleep cfg 1000 st1))) as [Hlen Hall].
  cbn [fst snd length firstn] in *. split; [lia|].
  constructor; [apply Hr; reflexivity | exact Hall].
Qed.

(** Where no capture is left by an exception, every row is gone through. *)
Lemma capture_rows_length driver rows : forall (st : state),
  (forall c s, fst (capture_case_details_automated cfg driver c s) <> None) ->
  length (fst (capture_rows cfg driver rows st)) = length rows.
Proof.
  induction rows as [|c rest IH]; intros st Hret; [reflexivity|].
  rewrite capture_rows_cons. specialize (Hret c st) as Hc.
  destruct (capture_case_details_automated cfg driver c st) as [[r|] st1];
    [|exfalso; apply Hc; reflexivity].
  cbv zeta. cbn [fst length]. f_equal. apply IH. exact Hret.
Qed.

(** Record [K] of a batch is the record of row [K], captured in the state
    the rows before it have left. *)
Lemma capture_rows_nth driver rows : forall K c r (st : state),
  nth_error rows K = Some c ->
  nth_error (fst (capture_rows cfg driver rows st)) K = Some r ->
  fst (capture_case_details_automated cfg driver c
         (snd (capture_rows cfg driver (firstn K rows) st))) = Some r.
Proof.
  induction rows as [|c0 rest IH]; intros K c r st HK.
  - destruct K; discriminate.
  - destruct K as [|K].
    + injection HK as ->. cbn [firstn]. rewrite capture_rows_cons.
      cbn [capture_rows ret snd].
      destruct (capture_case_details_automated cfg driver c st) as [[r0|] st1];
        cbv zeta; cbn [fst nth_error]; [|discriminate].
      intros H; injection H as ->. reflexivity.
    + cbn [nth_error] in HK. cbn [firstn]. rewrite !capture_rows_cons.
      destruct (capture_case_details_automated cfg driver c0 st) as [[r0|] st1];
        cbv zeta; cbn [fst snd nth_error]; [|discriminate].
      apply IH. exact HK.
Qed.

Lemma capture_batch_step fuel ss (st : state) :
  capture_batch cfg (S fuel) ss st =
  let (r, st') := perform_capture cfg ss st in
  match snd r with
  | Rerun_Requested => capture_batch cfg fuel (fst r) st'
  | Waiting | Raised => (Some (fst r), st')
  end.
Proof.
  cbn [capture_batch]. unfold bind. destruct (perform_capture cfg ss st) as [r st'].
  destruct (snd r); reflexivity.
Qed.

(** The reruns of [perform_capture] from row [current_case_index] on are the
    rows that remain, captured one after the other for as long as no capture
    is left by an exception; the flag is cleared when all are through. *)
Lemma capture_batch_rows n : forall ss (st : state),
  current_case_index ss + n = length (matches ss) ->
  let rest := skipn (current_case_index ss) (matches ss) in
  let run := capture_rows cfg (driver ss) rest st in
  exists ss',
    capture_batch cfg (S n) ss st = (Some ss', snd run) /\
    captured_cases ss' = captured_cases ss ++ fst run /\
    matches ss' = matches ss /\ driver ss' = driver ss /\
    capture_in_progress ss' =
      (if length (fst run) =? length rest then false else capture_in_progress ss).
Proof.
  induction n as [|n IH]; intros ss st Hn; cbv zeta.
  - assert (nth_error (matches ss) (current_case_index ss) = None) as Hnone
      by (apply nth_error_None; lia).
    rewrite skipn_all2 by lia.
    rewrite capture_batch_step. unfold perform_capture. rewrite Hnone.
    cbn. eexists. split; [reflexivity|]. cbn. rewrite app_nil_r. auto.
  - destruct (nth_error (matches ss) (current_case_index ss)) as [c|] eqn:Hc;
      [|apply nth_error_None in Hc; lia].
    assert (skipn (current_case_index ss) (matches ss) =
            c :: skipn (S (current_case_index ss)) (matches ss)) as Hskip.
    { clear - Hc. revert Hc. generalize (current_case_index ss) as k.
      induction (matches ss) as [|x l IHl]; intros [|k] H; try discriminate.
      - injection H as ->. reflexivity.
      - cbn [nth_error] in H. apply IHl in H. exact H. }
    rewrite Hskip. rewrite capture_batch_step. rewrite !capture_rows_cons.
    unfold perform_capture. rewrite Hc. unfold bind at 1.
    destruct (capture_case_details_automated cfg (driver ss) c st) as [[r|] st1].
    + unfold bind, ret. cbv zeta.
      destruct (time_sleep cfg 1000 st1) as [u st2]. cbn [snd fst].
      match goal with
      | |- context [capture_batch cfg (S n) ?s1 st2] =>
          destruct (IH s1 st2) as (ss' & Hb & Hcap & Hm & Hd & Hp); [cbn; lia|];
          cbn [matches driver current_case_index captured_cases capture_in_progress]
            in Hb, Hcap, Hm, Hd, Hp
      end.
      rewrite Hb. destruct (capture_rows cfg (driver ss) _ st2) as [rs st3].
      cbn [fst snd length] in *. exists ss'. split; [reflexivity|].
      rewrite Hcap, <- app_assoc. cbn [Nat.eqb]. auto.
    + cbn [ret fst snd length]. exists ss. rewrite app_nil_r. cbn [Nat.eqb]. auto.
Qed.

End Capture.

Section Batch.
Variables World Driver Elem : Type.
Variable cfg : setting World Driver Elem.

Local Abbreviation state := (Web.state World Driver Elem).

Lemma records_serials rows rs :
  Forall2 record_of rows rs -> map Serial_Number rs = map serial rows.
Proof.
  induction 1 as [|c r cs rs' Hr _ IH]; [reflexivity|].
  destruct Hr as (Hs & _). cbn [map]. rewrite Hs, IH. reflexivity.
Qed.

Lemma start_capture_batch ss (st : state) :
  let run := capture_rows cfg (driver ss) (matches ss) st in
  exists ss',
    capture_batch cfg (S (length (matches ss))) (start_capture ss) st = (Some ss', snd run) /\
    captured_cases ss' = fst run /\
    matches ss' = matches ss /\
    capture_in_progress ss' = negb (length (fst run) =? length (matches ss)).
Proof.
  destruct (@capture_batch_rows _ _ _ cfg (length (matches ss)) (start_capture ss) st eq_refl)
    as (ss' & Hb & Hc & Hm & _ & Hp).
  exists ss'. cbn in Hb, Hc, Hm, Hp. rewrite Hp.
  repeat split; auto; destruct (_ =? _); reflexivity.
Qed.

(** X21: with BeautifulSoup at hand and on pages whose attachment addresses
    all join, the capture workflow produces one record per filtered row, in
    the rows' order, and then stops.  Record [K] belongs to row [K]; when the
    View button of row [K] is not found, in the state the rows before have
    left, the record is marked failed, with no detail, no saved page and no
    attachment, and otherwise it is marked completed.  The other rows are
    captured all the same. *)
Theorem capture_batch_records ss (st : state) :
  s_bs4 cfg = true -> addresses_join cfg ->
  let rows := matches ss in
  exists ss' st',
    capture_batch cfg (S (length rows)) (start_capture ss) st = (Some ss', st') /\
    capture_in_progress ss' = false /\
    length (captured_cases ss') = length rows /\
    Forall2 record_of rows (captured_cases ss') /\
    (forall K c,
        nth_error rows K = Some c ->
        let before := snd (capture_rows cfg (driver ss) (firstn K rows) st) in
        exists r,
          nth_error (captured_cases ss') K = Some r /\
          (fst (find_and_click_view_button cfg (driver ss) (serial c) before) = false ->
           Status r = Failed_No_View_Button /\
           CNR_Number r = None /\ Case_Type_ r = None /\
           Court_Number_and_Judge_ r = None /\ Filing_Number_ r = None /\
           Registration_Number_ r = None /\
           PDF_Saved r = false /\ Additional_PDFs r = 0) /\
          (fst (find_and_click_view_button cfg (driver ss) (serial c) before) = true ->
           Status r = Completed)).
Proof.
  intros Hbs Hjoin. cbv zeta.
  destruct (start_capture_batch ss st) as (ss' & Hb & Hc & Hm & Hp).
  assert (length (fst (capture_rows cfg (driver ss) (matches ss) st)) = length (matches ss))
    as Hlen.
  { apply capture_rows_length. intros c s. apply capture_returns; assumption. }
  exists ss', (snd (capture_rows cfg (driver ss) (matches ss) st)).
  split; [exact Hb|]. split; [rewrite Hp, Hlen, Nat.eqb_refl; reflexivity|].
  split; [rewrite Hc; exact Hlen|]. split.
  - pose proof (capture_rows_records cfg (driver ss) (matches ss) st) as [_ Hall].
    cbv zeta in Hall. rewrite Hlen, firstn_all in Hall. rewrite Hc. exact Hall.
  - intros K c HK.
    assert (K < length (matches ss)) as HKlt by (apply nth_error_Some; rewrite HK; discriminate).
    rewrite Hc.
    destruct (nth_error (fst (capture_rows cfg (driver ss) (matches ss) st)) K) as [r|] eqn:Hn;
      [|apply nth_error_None in Hn; lia].
    pose proof (capture_rows_nth cfg (driver ss) (matches ss) K st HK Hn) as Hr.
    exists r. split; [reflexivity|]. split.
    + intros Hf. rewrite (capture_failed cfg (driver ss) c _ Hf) in Hr.
      injection Hr as <-. cbn. repeat split.
    + intros Ht. eapply capture_completed; [exact Ht | exact Hr].
Qed.

(** C6, as the code has it: the batch, given a run for every row and one
    more, stops, and the serial labels of its records are then the labels of
    the first filtered rows, in the rows' order: of all of them when the
    batch has gone through (the flag is cleared).  Nothing removes a
    repeated label, so the labels of the records of a batch gone through are
    pairwise distinct exactly when those of the rows are. *)
Theorem captured_serial_labels ss (st : state) :
  exists ss' st',
    capture_batch cfg (S (length (matches ss))) (start_capture ss) st = (Some ss', st') /\
    map Serial_Number (captured_cases ss') =
      firstn (length (captured_cases ss')) (map serial (matches ss)) /\
    (capture_in_progress ss' = false ->
     map Serial_Number (captured_cases ss') = map serial (matches ss) /\
     (NoDup (map Serial_Number (captured_cases ss')) <-> NoDup (map serial (matches ss)))).
Proof.
  destruct (start_capture_batch ss st) as (ss' & Hb & Hc & Hm & Hp).
  pose proof (capture_rows_records cfg (driver ss) (matches ss) st) as [Hle Hall].
  cbv zeta in Hle, Hall. rewrite <- Hc in Hle, Hall, Hp.
  exists ss', (snd (capture_rows cfg (driver ss) (matches ss) st)).
  split; [exact Hb|].
  assert (map Serial_Number (captured_cases ss') =
          firstn (length (captured_cases ss')) (map serial (matches ss))) as Heq.
  { rewrite (records_serials Hall). symmetry. apply firstn_map. }
  split; [exact Heq|]. intros Hdone. rewrite Hdone in Hp.
  assert (length (captured_cases ss') = length (matches ss)) as Hlen.
  { destruct (Nat.eqb_spec (length (captured_cases ss')) (length (matches ss)));
      [assumption | discriminate]. }
  rewrite Hlen, <- (length_map serial), firstn_all in Heq.
  split; [exact Heq | rewrite Heq; reflexivity].
Qed.

End Batch.

(** A batch in the small portal goes through: its two rows, two records. *)
Lemma capture_batch_records_witness :
  let rows := matches portal_scraped in
  exists ss' st',
    capture_batch Portal.config (S (length rows)) (start_capture portal_scraped) portal_listing
      = (Some ss', st') /\
    capture_in_progress ss' = false /\
    length (captured_cases ss') = length rows /\
    Forall2 record_of rows (captured_cases ss') /\
    (forall K c,
        nth_error rows K = Some c ->
        let before := snd (capture_rows Portal.config (driver portal_scraped)
                             (firstn K rows) portal_listing) in
        exists r,
          nth_error (captured_cases ss') K = Some r /\
          (fst (find_and_click_view_button Portal.config (driver portal_scraped)
                  (serial c) before) = false ->
           Status r = Failed_No_View_Button /\
           CNR_Number r = None /\ Case_Type_ r = None /\
           Court_Number_and_Judge_ r = None /\ Filing_Number_ r = None /\
           Registration_Number_ r = None /\
           PDF_Saved r = false /\ Additional_PDFs r = 0) /\
          (fst (find_and_click_view_button Portal.config (driver portal_scraped)
                  (serial c) before) = true ->
           Status r = Completed)).
Proof.
  apply (@capture_batch_records _ _ _ Portal.config portal_scraped portal_listing);
    [reflexivity|].
  intros w d a href base Ha Hh Hp. exfalso.
  destruct w; cbn in Ha;
    repeat (destruct Ha as [<-|Ha]; [cbn in Hh; injection Hh as <-; discriminate Hp|]);
    exact Ha.
Defined.

(** C1 on the code: in the portal whose detail pages carry an address that
    does not join, the batch of two rows stops in the first.  The View link
    is clicked, the page printed and read twice; [urljoin] then raises, no
    record is written, the index stays at the first row, the flag stays set
    and the browser stays on the detail page.  The same rows in the portal
    without that address give two records. *)
Theorem capture_batch_halts :
  let r := capture_batch Portal.broken_config 3 (start_capture portal_scraped) portal_listing in
  let good := capture_batch Portal.config 3 (start_capture portal_scraped) portal_listing in
  length (matches portal_scraped) = 2 /\
  option_map (fun ss => captured_cases ss) (fst r) = Some [] /\
  option_map (fun ss => capture_in_progress ss) (fst r) = Some true /\
  option_map (fun ss => current_case_index ss) (fst r) = Some 0 /\
  sent (snd r) = [Click Script (Portal.ViewLink 0); PrintToPDF tt; PageSource tt; PageSource tt] /\
  world (snd r) = Portal.Detail 0 /\
  fst (perform_capture Portal.broken_config (start_capture portal_scraped) portal_listing)
    = (start_capture portal_scraped, Raised) /\
  option_map (fun ss => length (captured_cases ss)) (fst good) = Some 2.
Proof.
  cbv zeta. split; [reflexivity|].
  split; [vm_compute; reflexivity|]. split; [vm_compute; reflexivity|].
  split; [vm_compute; reflexivity|]. split; [vm_compute; reflexivity|].
  split; [vm_compute; reflexivity|]. split; vm_compute; reflexivity.
Qed.

(** In the small portal both rows carry the label 1, and so do both
    records of the finished batch. *)
Lemma portal_serial_labels_repeat :
  let ss := fst (Portal.run Portal.session) in
  capture_in_progress ss = false /\
  map serial (matches ss) = [lit "1"; lit "1"] /\
  map Serial_Number (captured_cases ss) = [lit "1"; lit "1"] /\
  map Status (captured_cases ss) = [Completed; Completed] /\
  ~ NoDup (map Serial_Number (captured_cases ss)).
Proof.
  cbv zeta. split; [vm_compute; reflexivity|]. split; [vm_compute; reflexivity|].
  split; [vm_compute; reflexivity|]. split; [vm_compute; reflexivity|].
  assert (map Serial_Number (captured_cases (fst (Portal.run Portal.session)))
          = [lit "1"; lit "1"]) as -> by (vm_compute; reflexivity).
  intros H. inversion H as [|x l Hin _]; subst. apply Hin. left; reflexivity.
Qed.

(** ** What reaches the browser *)
Section Log.
Variables World Driver Elem : Type.

Local Abbreviation M := (Web.M World Driver Elem).
Local Abbreviation command := (Web.command Driver Elem).

Lemma adds_ret A (a : A) (P : A -> list command -> Prop) :
  P a [] -> adds (World := World) (ret a) P.
Proof. intros H st. exists []. cbn. rewrite app_nil_r. auto. Qed.

Lemma adds_look A (f : World -> A) (P : A -> list command -> Prop) :
  (forall a, P a []) -> adds (look (Driver := Driver) (Elem := Elem) f) P.
Proof. intros H st. exists []. cbn. rewrite app_nil_r. auto. Qed.

Lemma adds_act A (f : World -> A * World) (P : A -> list command -> Prop) :
  (forall a, P a []) -> adds (act (Driver := Driver) (Elem := Elem) f) P.
Proof.
  intros H st. exists []. unfold act. destruct (f (world st)) as [a w]. cbn.
  rewrite app_nil_r. auto.
Qed.

Lemma adds_send A c (f : World -> A * World) (P : A -> list command -> Prop) :
  (forall a, P a [c]) -> adds (send c f) P.
Proof.
  intros H st. exists [c]. unfold send. destruct (f (world st)) as [a w]. cbn. auto.
Qed.

Lemma adds_bind A B (m : M A) (k : A -> M B) P1 P2 (P : B -> list command -> Prop) :
  adds m P1 ->
  (forall a, adds (k a) (P2 a)) ->
  (forall a n1 b n2, P1 a n1 -> P2 a b n2 -> P b (n1 ++ n2)) ->
  adds (bind m k) P.
Proof.
  intros Hm Hk HP st. unfold bind.
  destruct (Hm st) as (n1 & Hs1 & H1). destruct (m st) as [a st1]. cbn in Hs1, H1.
  destruct (Hk a st1) as (n2 & Hs2 & H2).
  exists (n1 ++ n2). split; [rewrite Hs2, Hs1, app_assoc; reflexivity|].
  eapply HP; eassumption.
Qed.

Lemma adds_weaken A (m : M A) (P Q : A -> list command -> Prop) :
  adds m P -> (forall a n, P a n -> Q a n) -> adds m Q.
Proof. intros H HPQ st. destruct (H st) as (n & Hs & HP). eauto. Qed.

Variable ok : command -> Prop.

Lemma only_ret A (a : A) : sends_only ok (ret (World := World) a).
Proof. apply adds_ret. constructor. Qed.

Lemma only_look A (f : World -> A) : sends_only ok (look (Driver := Driver) (Elem := Elem) f).
Proof. apply adds_look. constructor. Qed.

Lemma only_act A (f : World -> A * World) :
  sends_only ok (act (Driver := Driver) (Elem := Elem) f).
Proof. apply adds_act. constructor. Qed.

Lemma only_send A c (f : World -> A * World) : ok c -> sends_only ok (send c f).
Proof. intros H. apply adds_send. repeat constructor. exact H. Qed.

Lemma only_bind A B (m : M A) (k : A -> M B) :
  sends_only ok m -> (forall a, sends_only ok (k a)) -> sends_only ok (bind m k).
Proof.
  intros Hm Hk.
  apply adds_bind with (P1 := fun _ n => Forall ok n) (P2 := fun _ _ n => Forall ok n);
    [exact Hm | exact Hk |].
  intros. apply Forall_app; auto.
Qed.

End Log.

Create HintDb quiet.

Ltac quiet_step :=
  first
    [ assumption
    | solve [auto with quiet nocore]
    | apply only_ret | apply only_look | apply only_act
    | apply only_send; reflexivity
    | apply only_bind; [|intros]
    | match goal with
      | |- sends_only _ (match ?x with _ => _ end) => destruct x
      end ].

Ltac quiet_tac := cbv zeta; repeat quiet_step.

(** ** The session is never released *)
Section Quiet.
Variables World Driver Elem : Type.
Variable cfg : setting World Driver Elem.

Local Abbreviation quiet := (sends_only (World := World) (@not_quit Driver Elem)).

Lemma quiet_find_element c b : quiet (find_element cfg c b).
Proof. unfold find_element. quiet_tac. Qed.
Lemma quiet_find_elements c b : quiet (find_elements cfg c b).
Proof. unfold find_elements. quiet_tac. Qed.
Lemma quiet_text_of e : quiet (text_of cfg e).
Proof. unfold text_of. quiet_tac. Qed.
Lemma quiet_click k e : quiet (click cfg k e).
Proof. unfold click. quiet_tac. Qed.
Lemma quiet_back d : quiet (back cfg d).
Proof. unfold back. quiet_tac. Qed.
Lemma quiet_time_sleep ms : quiet (time_sleep cfg ms).
Proof. unfold time_sleep. quiet_tac. Qed.
Lemma quiet_page_soup d : quiet (page_soup cfg d).
Proof. unfold page_soup. quiet_tac. Qed.
Hint Resolve quiet_find_element quiet_find_elements quiet_text_of quiet_click
  quiet_back quiet_time_sleep quiet_page_soup : quiet.

Lemma quiet_setup_driver : quiet (setup_driver cfg).
Proof. unfold setup_driver. quiet_tac. Qed.
Lemma quiet_save_captcha_image d path : quiet (save_captcha_image cfg d path).
Proof. unfold save_captcha_image. quiet_tac. Qed.
Lemma quiet_download_file url dst : quiet (download_file cfg url dst).
Proof. unfold download_file. quiet_tac. Qed.
Lemma quiet_save_fullpage_pdf d path : quiet (save_fullpage_pdf cfg d path).
Proof. unfold save_fullpage_pdf. quiet_tac. Qed.
Lemma quiet_extract_case_details d : quiet (extract_case_details cfg d).
Proof. unfold extract_case_details. quiet_tac. Qed.
Hint Resolve quiet_setup_driver quiet_save_captcha_image quiet_download_file
  quiet_save_fullpage_pdf quiet_extract_case_details : quiet.

Lemma quiet_click_view_link_of_row serial_number links :
  quiet (click_view_link_of_row cfg serial_number links).
Proof. induction links as [|link rest IH]; cbn [click_view_link_of_row]; quiet_tac. Qed.
Lemma quiet_click_first_labelled links : quiet (click_first_labelled cfg links).
Proof. induction links as [|link rest IH]; cbn [click_first_labelled]; quiet_tac. Qed.
Lemma quiet_row_of_serial d serial_number : quiet (row_of_serial cfg d serial_number).
Proof. unfold row_of_serial. quiet_tac. Qed.
Hint Resolve quiet_click_view_link_of_row quiet_click_first_labelled quiet_row_of_serial : quiet.

Lemma quiet_find_and_click_view_button d serial_number :
  quiet (find_and_click_view_button cfg d serial_number).
Proof. unfold find_and_click_view_button. quiet_tac. Qed.
Lemma quiet_click_first_back d selectors : quiet (click_first_back cfg d selectors).
Proof. induction selectors as [|sel rest IH]; cbn [click_first_back]; quiet_tac. Qed.
Hint Resolve quiet_find_and_click_view_button quiet_click_first_back : quiet.
Lemma quiet_click_back_button d : quiet (click_back_button cfg d).
Proof. unfold click_back_button. quiet_tac. Qed.
Lemma quiet_download_linked_pdfs d anchors pdfs :
  quiet (download_linked_pdfs cfg d anchors pdfs).
Proof.
  revert pdfs; induction anchors as [|a rest IH]; intros pdfs;
    cbn [download_linked_pdfs]; quiet_tac.
Qed.
Hint Resolve quiet_click_back_button quiet_download_linked_pdfs : quiet.

Lemma quiet_capture_case_details_automated d c :
  quiet (capture_case_details_automated cfg d c).
Proof. unfold capture_case_details_automated. quiet_tac. Qed.
Hint Resolve quiet_capture_case_details_automated : quiet.

Lemma quiet_scrape_pages fuel d page_index all_cases :
  quiet (scrape_pages cfg fuel d page_index all_cases).
Proof.
  revert page_index all_cases; induction fuel as [|fuel IH]; intros page_index all_cases;
    cbn [scrape_pages]; quiet_tac.
Qed.
Lemma quiet_click_case_type d labels : quiet (click_case_type cfg d labels).
Proof. induction labels as [|l rest IH]; cbn [click_case_type]; quiet_tac. Qed.
Hint Resolve quiet_scrape_pages quiet_click_case_type : quiet.

Lemma quiet_process_scraping ss : quiet (process_scraping cfg ss).
Proof. unfold process_scraping. quiet_tac. Qed.
Lemma quiet_display_scraped_cases ev ss : quiet (display_scraped_cases (World := World) (Elem := Elem) ev ss).
Proof. unfold display_scraped_cases. quiet_tac. Qed.
Lemma quiet_perform_capture ss : quiet (perform_capture cfg ss).
Proof. unfold perform_capture. quiet_tac. Qed.
Hint Resolve quiet_process_scraping quiet_display_scraped_cases quiet_perform_capture : quiet.

Lemma quiet_scrape_cases_ui ev ss : quiet (scrape_cases_ui cfg ev ss).
Proof. unfold scrape_cases_ui, capture_cases_ui. quiet_tac. Qed.
Hint Resolve quiet_scrape_cases_ui : quiet.

Lemma quiet_run_script evs ss : quiet (run_script cfg evs ss).
Proof.
  revert ss; induction evs as [|ev rest IH]; intros ss; cbn [run_script]; quiet_tac.
Qed.

End Quiet.

Lemma releases_app Driver Elem (a b : list (command Driver Elem)) :
  releases (a ++ b) = releases a + releases b.
Proof. unfold releases. rewrite filter_app, length_app. reflexivity. Qed.

Lemma releases_none Driver Elem (new : list (command Driver Elem)) :
  Forall not_quit new -> releases new = 0.
Proof.
  unfold releases. induction 1 as [|c new Hc _ IH]; [reflexivity|].
  cbn [filter]. rewrite Hc. exact IH.
Qed.

Section Release.
Variables World Driver Elem : Type.
Variable cfg : setting World Driver Elem.

Local Abbreviation state := (Web.state World Driver Elem).

Lemma quiet_capture_batch fuel ss :
  sends_only (@not_quit Driver Elem) (capture_batch cfg fuel ss).
Proof.
  revert ss; induction fuel as [|fuel IH]; intros ss; cbn [capture_batch].
  - apply only_ret.
  - apply only_bind; [apply quiet_perform_capture|]. intros r.
    destruct (snd r); [apply IH | apply only_ret | apply only_ret].
Qed.

(** C5, as the code has it: whatever the user does and however the world
    answers, a session of script runs sends no quit: the log of a run, cut at
    any point, releases a browser session as many times as the log it started
    from, and so does a capture batch.  A session acquired at bootstrap is
    never released. *)
Theorem session_never_released evs ss (st : state) :
  (exists new,
      sent (snd (run_script cfg evs ss st)) = sent st ++ new /\
      Forall not_quit new /\
      releases (sent (snd (run_script cfg evs ss st))) = releases (sent st))
  /\ (forall fuel,
        releases (sent (snd (capture_batch cfg fuel ss st))) = releases (sent st)).
Proof.
  split.
  - destruct (quiet_run_script cfg evs ss st) as (new & Hs & Hq).
    exists new. split; [exact Hs|split; [exact Hq|]].
    rewrite Hs, releases_app, (releases_none Hq). lia.
  - intros fuel. destruct (quiet_capture_batch fuel ss st) as (new & Hs & Hq).
    rewrite Hs, releases_app, (releases_none Hq). lia.
Qed.

End Release.

(** A whole session in the small portal: the browser is started, both rows
    are captured, the batch ends, and the session was never released. *)
Lemma portal_session_not_released :
  let r := Portal.run Portal.session in
  In NewSession (sent (snd r)) /\
  capture_in_progress (fst r) = false /\
  length (captured_cases (fst r)) = 2 /\
  driver (fst r) = Some tt /\
  releases (sent (snd r)) = 0.
Proof.
  cbv zeta. split; [vm_compute; left; reflexivity|].
  split; [vm_compute; reflexivity|]. split; [vm_compute; reflexivity|].
  split; vm_compute; reflexivity.
Qed.

(** ** The locators click *)
Section Locators.
Variables World Driver Elem : Type.
Variable cfg : setting World Driver Elem.

Local Abbreviation state := (Web.state World Driver Elem).
Local Abbreviation command := (Web.command Driver Elem).

Lemma found_ret : adds (World := World) (ret false) (@clicked_if_found Driver Elem).
Proof. apply adds_ret. split; [discriminate | reflexivity]. Qed.

Lemma found_click e :
  adds (click cfg Script e ;; time_sleep cfg 3000 ;; ret true) (@clicked_if_found Driver Elem).
Proof.
  intros st. exists [Click Script e]. unfold bind, click, time_sleep, send, act, unit_, ret.
  cbn. split; [reflexivity|]. split; [eauto | discriminate].
Qed.

Lemma found_after_look A (m : Web.M World Driver Elem A) k :
  adds m (fun _ new => new = []) ->
  (forall a, adds (k a) (@clicked_if_found Driver Elem)) ->
  adds (bind m k) (@clicked_if_found Driver Elem).
Proof.
  intros Hm Hk.
  apply adds_bind with (P1 := fun _ n => n = []) (P2 := fun _ => (@clicked_if_found Driver Elem));
    [exact Hm | exact Hk |].
  intros a n1 b n2 -> H. exact H.
Qed.

Lemma silent_look A (f : World -> A) :
  adds (look (Driver := Driver) (Elem := Elem) f) (fun _ new => new = []).
Proof. apply adds_look. reflexivity. Qed.

Lemma silent_sleep ms : adds (time_sleep cfg ms) (fun _ new => new = []).
Proof. unfold time_sleep. apply adds_act. reflexivity. Qed.

Lemma silent_row_of_serial d serial_number :
  adds (row_of_serial cfg d serial_number) (fun _ new => new = []).
Proof.
  unfold row_of_serial, find_element.
  apply adds_bind with (P1 := fun _ n => n = []) (P2 := fun _ _ n => n = []).
  - apply silent_look.
  - intros [cell|]; [apply silent_look | apply adds_ret; reflexivity].
  - intros a n1 b n2 -> ->. reflexivity.
Qed.

Lemma found_click_view_link_of_row serial_number links :
  adds (click_view_link_of_row cfg serial_number links) (@clicked_if_found Driver Elem).
Proof.
  induction links as [|link rest IH]; cbn [click_view_link_of_row]; [apply found_ret|].
  apply found_after_look; [apply silent_look|]. intros [row|]; [|exact IH].
  apply found_after_look; [apply silent_look|]. intros row_text.
  destruct (contains serial_number row_text); [apply found_click | exact IH].
Qed.

Lemma found_click_first_labelled links :
  adds (click_first_labelled cfg links) (@clicked_if_found Driver Elem).
Proof.
  induction links as [|link rest IH]; cbn [click_first_labelled]; [apply found_ret|].
  apply found_after_look; [apply silent_look|]. intros t.
  destruct (strip (s_tables cfg) t); [exact IH | apply found_click].
Qed.

Lemma found_find_and_click_view_button d serial_number :
  adds (find_and_click_view_button cfg d serial_number) (@clicked_if_found Driver Elem).
Proof.
  unfold find_and_click_view_button.
  apply found_after_look; [apply silent_sleep|]. intros _.
  destruct d as [d|]; [|apply found_ret].
  destruct (negb (s_selenium cfg)); [apply found_ret|].
  apply found_after_look; [apply silent_look|]. intros view_links.
  apply adds_bind with (P1 := (@clicked_if_found Driver Elem))
    (P2 := fun (done1 b : bool) (n : list command) =>
             if done1 then n = [] /\ b = true else clicked_if_found b n).
  - apply found_click_view_link_of_row.
  - intros [|]; [apply adds_ret; auto|].
    apply found_after_look; [apply silent_row_of_serial|]. intros row2.
    apply found_after_look.
    { destruct row2; [apply silent_look | apply adds_ret; reflexivity]. }
    intros [|link links2].
    + apply found_after_look; [apply silent_row_of_serial|]. intros [row|]; [|apply found_ret].
      apply found_after_look; [apply silent_look|]. intros all_links.
      apply found_click_first_labelled.
    + apply found_click.
  - intros done1 n1 b n2 [H1t H1f] H2. destruct done1.
    + destruct H2 as [-> ->]. rewrite app_nil_r. split; [intros _; auto | discriminate].
    + rewrite (H1f eq_refl). exact H2.
Qed.

Lemma found_click_first_back d selectors :
  adds (click_first_back cfg d selectors) (@clicked_if_found Driver Elem).
Proof.
  induction selectors as [|sel rest IH]; cbn [click_first_back]; [apply found_ret|].
  apply found_after_look; [apply silent_look|]. intros [b|]; [|exact IH].
  intros st. exists [Click Script b]. unfold bind, click, time_sleep, send, act, unit_, ret.
  cbn. split; [reflexivity|]. split; [eauto | discriminate].
Qed.

Lemma went_back_click_back_button d : adds (click_back_button cfg d) (@went_back Driver Elem d).
Proof.
  unfold click_back_button.
  apply adds_bind with (P1 := (@clicked_if_found Driver Elem))
    (P2 := fun (clicked b : bool) (n : list command) =>
             b = true /\ if clicked then n = [] else n = [Back d]).
  - destruct (negb (s_selenium cfg)); [apply found_ret | apply found_click_first_back].
  - intros [|]; [apply adds_ret; auto|].
    intros st. exists [Back d]. unfold bind, back, time_sleep, send, act, unit_, ret.
    cbn. auto.
  - intros clicked n1 b n2 [H1t H1f] [-> H2]. split; [reflexivity|]. destruct clicked.
    + left. rewrite H2, app_nil_r. auto.
    + right. rewrite (H1f eq_refl), H2. reflexivity.
Qed.


End Locators.


(** ** Pagination *)
Ltac pages_lia := unfold max_pages in *; lia.

Section Pagination.
Variables World Driver Elem : Type.
Variable cfg : setting World Driver Elem.

Local Abbreviation state := (Web.state World Driver Elem).
Local Abbreviation rows_of :=
  (extract_cases_from_soup (s_tables cfg) (s_bs4 cfg) (s_dateutil cfg) (s_parse cfg)).

Lemma page_reads_app (a b : list (command Driver Elem)) :
  page_reads (a ++ b) = page_reads a + page_reads b.
Proof. unfold page_reads. rewrite filter_app, length_app. reflexivity. Qed.

(** With enough fuel the loop ends on its own; it returns the rows of the
    pages it read, after those it was given, and leaves the state the reading
    of those pages leaves. *)
Lemma scrape_pages_unrolled fuel : forall d page_index all_cases (st : state),
  max_pages + 1 <= page_index + fuel ->
  scrape_pages cfg fuel d page_index all_cases st =
  (Some (all_cases ++ flat_map rows_of (fst (pages_read cfg fuel d page_index st))),
   snd (pages_read cfg fuel d page_index st)).
Proof.
  induction fuel as [|fuel IH]; intros d page_index all_cases st Hfuel.
  - cbn [scrape_pages pages_read].
    destruct (Nat.leb_spec page_index max_pages); [pages_lia|].
    cbn -[Nat.sub Nat.add max_pages]. rewrite app_nil_r. reflexivity.
  - cbn [scrape_pages pages_read].
    destruct (Nat.leb_spec page_index max_pages);
      [|cbn -[Nat.sub Nat.add max_pages]; rewrite app_nil_r; reflexivity].
    unfold bind, page_soup, find_element, click, time_sleep, send, look, act, unit_, ret.
    cbn [fst snd world sent].
    repeat match goal with
    | |- context [match ?x with Some _ => _ | None => _ end] =>
        match x with
        | w_find_element _ _ _ _ => destruct x
        end
    | |- context [if ?x then _ else _] =>
        match x with
        | w_is_enabled _ _ _ => destruct x
        end
    end;
    cbn [fst snd world sent];
    try (rewrite IH by pages_lia;
         match goal with
         | |- context [pages_read cfg fuel d (S page_index) ?s] =>
             destruct (pages_read cfg fuel d (S page_index) s) as [rest st']
         end;
         cbn [fst snd flat_map]; rewrite <- app_assoc; reflexivity);
    cbn [flat_map]; rewrite app_nil_r; reflexivity.
Qed.

(** The pages read are at most those left under the ceiling, and each one
    is one read of the page source. *)
Lemma pages_read_bound fuel : forall d page_index (st : state),
  let r := pages_read cfg fuel d page_index st in
  length (fst r) <= max_pages + 1 - page_index /\
  exists new, sent (snd r) = sent st ++ new /\ page_reads new = length (fst r).
Proof.
  induction fuel as [|fuel IH]; intros d page_index st; cbv zeta.
  - cbn [pages_read]. destruct (page_index <=? max_pages); cbn -[Nat.sub Nat.add max_pages];
      (split; [pages_lia | exists []; rewrite app_nil_r; auto]).
  - cbn [pages_read].
    destruct (Nat.leb_spec page_index max_pages);
      [|cbn -[Nat.sub Nat.add max_pages]; split; [pages_lia | exists []; rewrite app_nil_r; auto]].
    unfold bind, page_soup, find_element, click, time_sleep, send, look, act, unit_, ret.
    cbn [fst snd world sent].
    repeat match goal with
    | |- context [match ?x with Some _ => _ | None => _ end] =>
        match x with
        | w_find_element _ _ _ _ => destruct x
        end
    | |- context [if ?x then _ else _] =>
        match x with
        | w_is_enabled _ _ _ => destruct x
        end
    end;
    cbn [fst snd world sent];
    try (match goal with
         | |- context [pages_read cfg fuel d (S page_index) ?s] =>
             destruct (IH d (S page_index) s) as (Hlen & new & Hs & Hn);
             destruct (pages_read cfg fuel d (S page_index) s) as [rest st']
         end;
         cbn [fst snd length sent] in *; split; [pages_lia|];
         eexists; rewrite Hs, <- !app_assoc; split; [reflexivity|];
         rewrite !page_reads_app, Hn; cbn -[Nat.sub Nat.add max_pages]; pages_lia);
    (cbn [length]; split; [pages_lia|]; eexists; split; [reflexivity|]; cbn -[Nat.sub Nat.add max_pages]; pages_lia).
Qed.

(** Where a "Next" link is always found and enabled, every page up to the
    ceiling is read. *)
Lemma pages_read_all fuel : forall d page_index (st : state),
  (forall w, exists b,
      w_find_element (s_env cfg) w (OfDriver d) (LINK_TEXT (lit "Next")) = Some b /\
      w_is_enabled (s_env cfg) w b = true) ->
  max_pages + 1 <= page_index + fuel ->
  length (fst (pages_read cfg fuel d page_index st)) = max_pages + 1 - page_index.
Proof.
  induction fuel as [|fuel IH]; intros d page_index st Hnext Hfuel.
  - cbn [pages_read]. destruct (Nat.leb_spec page_index max_pages); [pages_lia|]. cbn -[Nat.sub Nat.add max_pages]. pages_lia.
  - cbn [pages_read].
    destruct (Nat.leb_spec page_index max_pages); [|cbn -[Nat.sub Nat.add max_pages]; pages_lia].
    unfold bind, page_soup, find_element, click, time_sleep, send, look, act, unit_, ret.
    cbn [fst snd world sent].
    destruct (Hnext (world st)) as (b & -> & Hen). cbn [fst snd world sent]. rewrite Hen.
    cbn [fst snd world sent].
    match goal with
    | |- context [pages_read cfg fuel d (S page_index) ?s] =>
        specialize (IH d (S page_index) s Hnext ltac:(unfold max_pages in *; lia));
        destruct (pages_read cfg fuel d (S page_index) s) as [rest st']
    end.
    cbn [fst snd length] in *. pages_lia.
Qed.

(** Where no next control is found, the first page is the only one read. *)
Lemma pages_read_one fuel d (st : state) :
  w_find_element (s_env cfg) (world st) (OfDriver d) (LINK_TEXT (lit "Next")) = None ->
  w_find_element (s_env cfg) (world st) (OfDriver d) (XPATH NEXT_LINK_XPATH) = None ->
  fst (pages_read cfg (S fuel) d 1 st) = [w_page_source (s_env cfg) (world st) d].
Proof.
  intros H1 H2. cbn [pages_read Nat.leb max_pages].
  unfold bind, page_soup, find_element, send, look, ret. cbn [fst snd world sent].
  rewrite H1. cbn [fst snd world]. rewrite H2. reflexivity.
Qed.

(** A page under the ceiling is always read, whatever follows it. *)
Lemma pages_read_some fuel d page_index (st : state) :
  page_index <= max_pages ->
  1 <= length (fst (pages_read cfg (S fuel) d page_index st)).
Proof.
  intros Hle. cbn [pages_read].
  destruct (Nat.leb_spec page_index max_pages); [|pages_lia].
  unfold bind, page_soup, find_element, click, time_sleep, send, look, act, unit_, ret.
  cbn [fst snd world sent].
  repeat match goal with
  | |- context [match ?x with Some _ => _ | None => _ end] =>
      match x with
      | w_find_element _ _ _ _ => destruct x
      end
  | |- context [if ?x then _ else _] =>
      match x with
      | w_is_enabled _ _ _ => destruct x
      end
  | |- context [let (_, _) := ?x in _] => destruct x
  end; cbn [fst snd length]; pages_lia.
Qed.

(** C3: the paginator, started on page 1 with nothing accumulated, always
    comes back with rows and never with an error: they are the rows of the
    pages it read, page after page; it reads at least the first page and at
    most [max_pages] = 10 of them, one page source each.  Where no next
    control is found the first page is the only one read; where "Next" is
    found enabled on every page, reading stops at the tenth. *)
Theorem pagination_bounded d (st : state) :
  let r := scrape_pages cfg (S max_pages) d 1 [] st in
  let pages := fst (pages_read cfg (S max_pages) d 1 st) in
  max_pages = 10 /\
  fst r = Some (flat_map rows_of pages) /\
  1 <= length pages <= max_pages /\
  (exists new, sent (snd r) = sent st ++ new /\ page_reads new = length pages) /\
  (w_find_element (s_env cfg) (world st) (OfDriver d) (LINK_TEXT (lit "Next")) = None ->
   w_find_element (s_env cfg) (world st) (OfDriver d) (XPATH NEXT_LINK_XPATH) = None ->
   fst r = Some (rows_of (w_page_source (s_env cfg) (world st) d))) /\
  ((forall w, exists b,
       w_find_element (s_env cfg) w (OfDriver d) (LINK_TEXT (lit "Next")) = Some b /\
       w_is_enabled (s_env cfg) w b = true) ->
   length pages = max_pages).
Proof.
  cbv zeta. rewrite scrape_pages_unrolled by (pages_lia). cbn [fst snd app].
  destruct (pages_read_bound (S max_pages) d 1 st) as (Hlen & new & Hs & Hn).
  split; [reflexivity|split; [reflexivity|split; [|split; [|split]]]].
  - split; [apply pages_read_some; pages_lia | pages_lia].
  - exists new. auto.
  - intros H1 H2. rewrite (pages_read_one max_pages d st H1 H2). cbn [flat_map].
    rewrite app_nil_r. reflexivity.
  - intros Hnext. rewrite pages_read_all; [pages_lia | exact Hnext |].
    pages_lia.
Qed.

End Pagination.

(** * Further properties *)

(** ** Pieces of a text, and trimming *)
Lemma piece_of_refl t : piece_of t t.
Proof. exists [], []. rewrite app_nil_r. reflexivity. Qed.

Lemma piece_of_trans a b c : piece_of a b -> piece_of b c -> piece_of a c.
Proof.
  intros (p1 & q1 & ->) (p2 & q2 & ->). exists (p2 ++ p1), (q1 ++ q2).
  rewrite <- !app_assoc. reflexivity.
Qed.

Lemma piece_of_skipn n t : piece_of (skipn n t) t.
Proof. exists (firstn n t), []. rewrite app_nil_r, firstn_skipn. reflexivity. Qed.

Lemma piece_of_firstn n t : piece_of (firstn n t) t.
Proof. exists [], (skipn n t). simpl. rewrite firstn_skipn. reflexivity. Qed.

Lemma piece_of_slice t i j : piece_of (slice t i j) t.
Proof. eapply piece_of_trans; [apply piece_of_firstn | apply piece_of_skipn]. Qed.

Lemma piece_of_Forall (P : N -> Prop) v t : piece_of v t -> Forall P t -> Forall P v.
Proof.
  intros (pre & post & ->) H. apply Forall_app in H. destruct H as [_ H].
  apply Forall_app in H. tauto.
Qed.

Lemma piece_of_rev v t : piece_of v t -> piece_of (rev v) (rev t).
Proof.
  intros (pre & post & ->). exists (rev post), (rev pre).
  rewrite !rev_app_distr, <- app_assoc. reflexivity.
Qed.

Section Trim.
Variable db : UnicodeDB.

Lemma lstrip_suffix t : exists n, lstrip db t = skipn n t.
Proof.
  induction t as [|c t [n IH]]; [exists 0; reflexivity|].
  simpl. destruct (isspace db c); [exists (S n); exact IH | exists 0; reflexivity].
Qed.

Lemma lstrip_head t :
  match lstrip db t with [] => True | c :: _ => isspace db c = false end.
Proof.
  induction t as [|c t IH]; simpl; [exact I|].
  destruct (isspace db c) eqn:Hc; [exact IH | exact Hc].
Qed.

Lemma lstrip_piece t : piece_of (lstrip db t) t.
Proof. destruct (lstrip_suffix t) as [n ->]. apply piece_of_skipn. Qed.

Lemma strip_piece t : piece_of (strip db t) t.
Proof.
  unfold strip, rstrip. eapply piece_of_trans; [|apply lstrip_piece].
  rewrite <- (rev_involutive (lstrip db t)) at 2.
  apply piece_of_rev, lstrip_piece.
Qed.

Lemma last_suffix (w u : str) n : w = skipn n u -> w <> [] -> hd_error (rev w) = hd_error (rev u).
Proof.
  intros -> Hne.
  rewrite <- (firstn_skipn n u) at 2. rewrite rev_app_distr.
  destruct (rev (skipn n u)) eqn:E; [|reflexivity].
  exfalso. apply Hne. apply (f_equal (@rev N)) in E. rewrite rev_involutive in E. exact E.
Qed.

Lemma strip_tight t : tight db (strip db t).
Proof.
  unfold strip, rstrip, tight. rewrite rev_involutive.
  set (u := lstrip db t). split; [|apply lstrip_head].
  destruct (lstrip_suffix (rev u)) as [n Hn].
  destruct (lstrip db (rev u)) as [|c w] eqn:E; [exact I|].
  assert (hd_error (rev (c :: w)) = hd_error (rev (rev u))) as H.
  { apply last_suffix with (n := n); [exact Hn | discriminate]. }
  rewrite rev_involutive in H.
  destruct (rev (c :: w)) as [|x r]; [exact I|].
  pose proof (lstrip_head t) as Hh. fold u in Hh.
  destruct u as [|y u']; [discriminate|]. simpl in H. injection H as ->. exact Hh.
Qed.

Lemma tight_strip u : tight db u -> strip db u = u.
Proof.
  intros [H1 H2]. unfold strip, rstrip.
  rewrite (lstrip_id db u H1), (lstrip_id db (rev u) H2). apply rev_involutive.
Qed.

Lemma strip_idem t : strip db (strip db t) = strip db t.
Proof. apply tight_strip, strip_tight. Qed.

End Trim.

(** ** The shape of the extracted fields *)
Lemma capital_or_digit_ic c : capital_or_digit c = true -> letter_or_digit_ic c = true.
Proof.
  unfold capital_or_digit, letter_or_digit_ic. intros H.
  apply orb_true_iff in H. destruct H as [H|H]; [|rewrite H; apply orb_true_r].
  destruct (fold_case_cases c) as
    [(Hu & -> & _)|[(Hu & _)|[([-> | ->] & _)|[(-> & _)|[(-> & _)|(Hu & _)]]]]];
    try (rewrite H in Hu; discriminate); try discriminate.
  unfold ascii_upper, ascii_lower, in_range in *. b2p. left. lia.
Qed.

Lemma letter_or_digit_ic_not_space db c :
  Forall (fun c => uni_space db c = false) [304; 305; 383; 8490]%N ->
  letter_or_digit_ic c = true -> isspace db c = false.
Proof.
  intros Hdb H.
  inversion Hdb as [|? ? H304 Hdb1]; subst. inversion Hdb1 as [|? ? H305 Hdb2]; subst.
  inversion Hdb2 as [|? ? H383 Hdb3]; subst. inversion Hdb3 as [|? ? H8490 _]; subst.
  unfold letter_or_digit_ic in H. unfold isspace, is_ascii.
  destruct (fold_case_cases c) as
    [(Hu & Hf & _)|[(Hu & Hl & Hf & _)|[([-> | ->] & _)|[(-> & _)|[(-> & _)|(Hu & Hl & _ & _ & _ & _ & Hf & _)]]]]];
    try (cbn; assumption).
  - unfold ascii_upper, in_range in *. b2p.
    destruct (N.ltb_spec c 128); [|lia]. b2p. lia.
  - unfold ascii_lower, in_range in *. b2p.
    destruct (N.ltb_spec c 128); [|lia]. b2p. lia.
  - rewrite Hf, Hl in H. cbn [orb] in H.
    unfold ascii_digit, in_range in *. b2p.
    destruct (N.ltb_spec c 128); [|lia]. b2p. lia.
Qed.

Section CnrShape.
Variable db : UnicodeDB.

Lemma cnr_number_inv text v :
  cnr_number db text = Some v ->
  exists i, v = strip db (slice text i (i + 16)) /\
            token16_at letter_or_digit_ic text i (slice text i (i + 16)).
Proof.
  unfold cnr_number.
  destruct (search db true text CNR_NOTE_REGEX) as [m|] eqn:Hs.
  - apply search_at_inv in Hs. destruct Hs as (k & _ & Hm & _).
    apply note_match_inv in Hm. destruct Hm as (Hc & _ & Htok & _).
    unfold group. rewrite Hc. cbn. intros H; injection H as <-.
    exists k. split; [reflexivity | exact Htok].
  - destruct (search db false text CNR_FALLBACK_REGEX) as [m|] eqn:Hf; [|discriminate].
    apply search_at_inv in Hf. destruct Hf as (k & _ & Hm & _).
    apply standalone_match_inv in Hm. destruct Hm as (-> & _ & (Heq & Hlen & Hcls) & _).
    unfold group0. cbn. intros H; injection H as <-.
    exists k. split; [reflexivity|]. split; [reflexivity|]. split; [exact Hlen|].
    eapply Forall_impl; [|exact Hcls]. intros c. apply capital_or_digit_ic.
Qed.

(** X1: where the tables hold none of the four letters outside ASCII as
    white space, a CNR number, when one is extracted, is sixteen characters
    long, each a letter or a digit, and stands in the text in one piece. *)
Theorem cnr_number_shape text v :
  Forall (fun c => uni_space db c = false) [304; 305; 383; 8490]%N ->
  cnr_number db text = Some v ->
  length v = 16 /\ Forall (fun c => letter_or_digit_ic c = true) v /\ piece_of v text.
Proof.
  intros Hdb Hv. apply cnr_number_inv in Hv.
  destruct Hv as (i & -> & _ & Hlen & Hcls).
  rewrite strip_id.
  - split; [exact Hlen|]. split; [exact Hcls | apply piece_of_slice].
  - eapply Forall_impl; [|exact Hcls].
    intros c. apply letter_or_digit_ic_not_space; exact Hdb.
Qed.

End CnrShape.

(** The spec's example, followed by the rest of its sentence. *)
Lemma cnr_number_shape_witness :
  length (lit "AB12CD34EF56GH78") = 16 /\
  Forall (fun c => letter_or_digit_ic c = true) (lit "AB12CD34EF56GH78") /\
  piece_of (lit "AB12CD34EF56GH78") (note_example (lit " for reference)")).
Proof.
  apply (@cnr_number_shape Portal.tables).
  - repeat constructor.
  - vm_compute. reflexivity.
Defined.

Section FieldShape.
Variable db : UnicodeDB.

(** X2: the value of a labelled field, when one is extracted, is made of
    value characters only, has no white space at either end, and stands in
    the text in one piece.  It may be empty. *)
Theorem labeled_field_shape k text v :
  labeled_field db k text = Some v ->
  Forall (fun c => value_char db c = true) v /\ strip db v = v /\ piece_of v text.
Proof.
  unfold labeled_field.
  destruct (search db true text (field_regex (key_text k))) as [m|] eqn:Hs; [|discriminate].
  apply search_at_inv in Hs. destruct Hs as (i & _ & Hm & _).
  apply field_match_inv in Hm; [|apply key_text_ascii].
  destruct Hm as (val & -> & label & seps & rest & Hsk & _ & _ & Hval & _).
  cbn. intros H; injection H as <-.
  split; [|split].
  - eapply piece_of_Forall; [apply strip_piece | exact Hval].
  - apply strip_idem.
  - eapply piece_of_trans; [apply strip_piece|].
    eapply piece_of_trans; [|apply (piece_of_skipn (0 + i) text)].
    rewrite Hsk. exists (label ++ seps), rest. rewrite <- !app_assoc. reflexivity.
Qed.

End FieldShape.

(** A label followed by white space and a bracket: the value read is the
    empty string, not an absent field. *)
Lemma labeled_field_shape_witness :
  labeled_field Portal.tables Case_Type (lit "Case Type:  (pending)") = Some [] /\
  Forall (fun c => value_char Portal.tables c = true) [] /\
  strip Portal.tables [] = [] /\ piece_of [] (lit "Case Type:  (pending)").
Proof.
  split; [vm_compute; reflexivity|].
  apply (@labeled_field_shape Portal.tables Case_Type). vm_compute. reflexivity.
Defined.

(** ** Rows and their hearing dates *)
Lemma same_icb_refl x : same_icb x x = true.
Proof. unfold same_icb. apply N.eqb_refl. Qed.

Lemma startswith_startswith_ic p : forall s, startswith s p = true -> startswith_ic s p = true.
Proof.
  induction p as [|x p IH]; intros s; [reflexivity|].
  destruct s as [|y s]; simpl; [discriminate|].
  intros H. apply andb_true_iff in H. destruct H as [Hx Hp].
  apply N.eqb_eq in Hx. subst y. rewrite same_icb_refl. apply IH. exact Hp.
Qed.

Lemma contains_contains_ic p s : contains p s = true -> contains_ic p s = true.
Proof.
  induction s as [|c s IH]; cbn [contains contains_ic].
  - rewrite !orb_false_r. apply startswith_startswith_ic.
  - intros H. apply orb_true_iff in H. apply orb_true_iff.
    destruct H as [H|H]; [left; apply startswith_startswith_ic; exact H | right; auto].
Qed.

Lemma contains_ic_skipn p s i :
  startswith_ic (skipn i s) p = true -> contains_ic p s = true.
Proof.
  revert i; induction s as [|c s IH]; intros i H.
  - rewrite skipn_nil in H. cbn [contains_ic]. rewrite H. reflexivity.
  - destruct i as [|i]; cbn [contains_ic skipn] in *.
    + rewrite H. reflexivity.
    + apply orb_true_iff. right. eapply IH. exact H.
Qed.

Lemma word_end_startswith_ic l : forall s i j,
  word_end l s i = Some j -> startswith_ic (skipn i s) l = true.
Proof.
  induction l as [|x l IH]; intros s i j; [reflexivity|].
  cbn [word_end]. destruct (nth_error s i) as [c|] eqn:Hc; [|discriminate].
  destruct (same_icb x c) eqn:Hx; [|discriminate]. intros H.
  apply IH in H.
  assert (skipn i s = c :: skipn (S i) s) as ->.
  { apply char_at_cons. exact Hc. }
  simpl. rewrite Hx. exact H.
Qed.

Lemma startswith_ic_app s p q : startswith_ic s (p ++ q) = true -> startswith_ic s p = true.
Proof.
  revert s; induction p as [|x p IH]; intros s; [reflexivity|].
  destruct s as [|y s]; simpl; [discriminate|].
  intros H. apply andb_true_iff in H. destruct H as [-> H]. apply IH. exact H.
Qed.

Section NoNext.
Variable db : UnicodeDB.
Variable DATEUTIL_AVAILABLE : bool.
Variable dateparser_parse : forall (dayfirst : bool) (text : str), option date.

Lemma word_end_next_none l s i :
  contains_ic (lit "Next") s = false -> word_end (lit "Next" ++ l) s i = None.
Proof.
  intros Hno. destruct (word_end (lit "Next" ++ l) s i) as [j|] eqn:H; [|reflexivity].
  apply word_end_startswith_ic, startswith_ic_app, contains_ic_skipn in H.
  rewrite H in Hno. discriminate.
Qed.

Lemma label_end_none s i :
  contains_ic (lit "Next") s = false -> label_end db s i = None.
Proof.
  intros Hno. unfold label_end, label_words_end. cbn [chain].
  pose proof (word_end_next_none [] s i Hno) as H0. rewrite app_nil_r in H0.
  pose proof (word_end_next_none (lit "Date") s i Hno) as H1.
  change (lit "Next" ++ lit "Date") with (lit "NextDate") in H1.
  rewrite H0, H1. reflexivity.
Qed.

Lemma leftmost_none f n : forall i, (forall j, f j = None) -> leftmost f n i = None.
Proof.
  induction n as [|n IH]; intros i H; simpl; rewrite H; [reflexivity | apply IH; exact H].
Qed.

(** X3: a row in which "Next" stands nowhere, in any case, has no hearing
    date, whatever dates it shows. *)
Theorem no_next_no_hearing_date row_text :
  contains_ic (lit "Next") row_text = false ->
  next_hearing_date_of db DATEUTIL_AVAILABLE dateparser_parse row_text = None.
Proof.
  intros Hno. unfold next_hearing_date_of.
  assert (search db true row_text DATE_LABEL_REGEX = None) as ->.
  { pose proof (search_label db row_text) as H.
    rewrite leftmost_none in H by (intros j; apply label_end_none; exact Hno).
    destruct (search db true row_text DATE_LABEL_REGEX); [discriminate | reflexivity]. }
  destruct (contains (lit "Next") row_text) eqn:Hc.
  - apply contains_contains_ic in Hc. rewrite Hc in Hno. discriminate.
  - destruct (findall db false row_text DMY_REGEX); reflexivity.
Qed.

End NoNext.

(** A row with a date and no label. *)
Lemma no_next_no_hearing_date_witness :
  next_hearing_date_of Portal.tables true Portal.parse (lit "1 A vs B 12/05/2024 View") = None.
Proof. apply no_next_no_hearing_date. vm_compute. reflexivity. Defined.

Section DateSource.
Variable db : UnicodeDB.
Variable DATEUTIL_AVAILABLE : bool.
Variable dateparser_parse : forall (dayfirst : bool) (text : str), option date.

Lemma parse_date_nullable_some t d :
  parse_date_nullable DATEUTIL_AVAILABLE dateparser_parse t = Some d ->
  DATEUTIL_AVAILABLE = true /\ dateparser_parse true t = Some d.
Proof.
  unfold parse_date_nullable. destruct DATEUTIL_AVAILABLE; [auto | discriminate].
Qed.

Lemma findall_head_piece ic s r t rest :
  findall db ic s r = t :: rest -> piece_of t s.
Proof.
  intros H. pose proof (findall_head db ic s r) as Hh. rewrite H in Hh. simpl in Hh.
  destruct (search db ic s r) as [m|]; [|discriminate].
  injection Hh as ->. apply piece_of_slice.
Qed.

(** X4: a hearing date is always what [dateutil], asked day-first, made of
    one piece of the row's text; without [dateutil] there is none. *)
Theorem hearing_date_source row_text d :
  next_hearing_date_of db DATEUTIL_AVAILABLE dateparser_parse row_text = Some d ->
  DATEUTIL_AVAILABLE = true /\
  exists token, piece_of token row_text /\ dateparser_parse true token = Some d.
Proof.
  unfold next_hearing_date_of.
  destruct (search db true row_text DATE_LABEL_REGEX) as [m|].
  - destruct (findall db false (strip db (skipn (m_end m) row_text)) DATE_TOKEN_REGEX)
      as [|t0 rest] eqn:Hf.
    + destruct (findall db false row_text DMY_REGEX) as [|t1 rest1] eqn:Hg; [discriminate|].
      destruct (contains (lit "Next") row_text); [|discriminate].
      intros H. apply parse_date_nullable_some in H. destruct H as [Ha Hp].
      split; [exact Ha|]. exists t1. split; [|exact Hp].
      eapply findall_head_piece; exact Hg.
    + destruct (parse_date_nullable DATEUTIL_AVAILABLE dateparser_parse t0) as [d0|] eqn:Hp0.
      * intros H; injection H as ->. apply parse_date_nullable_some in Hp0.
        destruct Hp0 as [Ha Hp]. split; [exact Ha|]. exists t0. split; [|exact Hp].
        eapply piece_of_trans; [eapply findall_head_piece; exact Hf|].
        eapply piece_of_trans; [apply strip_piece | apply piece_of_skipn].
      * destruct (findall db false row_text DMY_REGEX) as [|t1 rest1] eqn:Hg; [discriminate|].
        destruct (contains (lit "Next") row_text); [|discriminate].
        intros H. apply parse_date_nullable_some in H. destruct H as [Ha Hp].
        split; [exact Ha|]. exists t1. split; [|exact Hp].
        eapply findall_head_piece; exact Hg.
  - destruct (findall db false row_text DMY_REGEX) as [|t1 rest1] eqn:Hg; [discriminate|].
    destruct (contains (lit "Next") row_text); [|discriminate].
    intros H. apply parse_date_nullable_some in H. destruct H as [Ha Hp].
    split; [exact Ha|]. exists t1. split; [|exact Hp].
    eapply findall_head_piece; exact Hg.
Qed.

End DateSource.

(** The row of the small portal. *)
Lemma hearing_date_source_witness :
  true = true /\
  exists token, piece_of token (lit "1 A vs B Next Date: 12/05/2024 View") /\
                Portal.parse true token = Some Portal.hearing_day.
Proof.
  apply (@hearing_date_source Portal.tables true Portal.parse). vm_compute. reflexivity.
Defined.

(** ** The cells of a listing row *)
Section Cells.
Variable db : UnicodeDB.

Lemma tight_nil : tight db [].
Proof. split; exact I. Qed.

Lemma tight_app x m y :
  x <> [] -> y <> [] -> tight db x -> tight db y -> tight db (x ++ m ++ y).
Proof.
  intros Hx Hy [Hx1 _] [_ Hy2]. split.
  - destruct x as [|c x]; [contradiction | exact Hx1].
  - rewrite !rev_app_distr.
    destruct (rev y) as [|c r] eqn:E; [|exact Hy2].
    exfalso. apply Hy. apply (f_equal (@rev N)) in E. rewrite rev_involutive in E. exact E.
Qed.

Lemma join_tight sep l :
  Forall (fun x => x <> [] /\ tight db x) l ->
  tight db (Bs.join sep l) /\ (l <> [] -> Bs.join sep l <> []).
Proof.
  induction l as [|x l IH]; intros H; [split; [apply tight_nil | congruence]|].
  inversion H as [|? ? [Hx Ht] Hl]; subst. specialize (IH Hl).
  destruct l as [|y l]; [simpl; split; auto|].
  destruct IH as [IHt IHn]. specialize (IHn ltac:(discriminate)).
  cbn [Bs.join]. split.
  - apply tight_app; assumption.
  - intros _ E. destruct x; [contradiction | discriminate].
Qed.

Lemma stripped_strings_tight n :
  Forall (fun x => x <> [] /\ tight db x) (Bs.stripped_strings db n).
Proof.
  unfold Bs.stripped_strings. apply Forall_flat_map. apply Forall_forall.
  intros d _. destruct d as [nm a cs|s|s]; try constructor.
  destruct (strip db s) as [|c r] eqn:E; constructor; [|constructor].
  split; [discriminate|]. rewrite <- E. apply strip_tight.
Qed.

Lemma get_text_trimmed sep n : strip db (Bs.get_text db sep n) = Bs.get_text db sep n.
Proof. apply tight_strip, join_tight, stripped_strings_tight. Qed.

End Cells.

Section SerialFacts.
Variable db : UnicodeDB.
Variables BEAUTIFULSOUP_AVAILABLE DATEUTIL_AVAILABLE : bool.
Variable dateparser_parse : forall (dayfirst : bool) (text : str), option date.

Local Abbreviation extract :=
  (extract_cases_from_soup db BEAUTIFULSOUP_AVAILABLE DATEUTIL_AVAILABLE dateparser_parse).

(** X5: every case of a listing has cells, its serial label is the text of
    the first, and neither a cell nor the court name has white space at
    either end: the [strip] of the label changes nothing. *)
Theorem serial_is_first_cell soup_obj :
  Forall (fun c => exists c0 rest, cols c = c0 :: rest /\ serial c = c0 /\
                                   Forall (fun col => strip db col = col) (cols c) /\
                                   strip db (court_name c) = court_name c)
         (extract soup_obj).
Proof.
  unfold extract_cases_from_soup.
  destruct (negb BEAUTIFULSOUP_AVAILABLE); [constructor|].
  destruct (Bs.find ["table"%string] soup_obj) as [table|]; [|constructor].
  rewrite rows_loop_map. cbn [app].
  apply Forall_map, Forall_forall. intros tr Htr.
  apply filter_In in Htr. destruct Htr as [_ Hc].
  unfold has_cells in Hc. unfold case_of_row. cbn [cols serial court_name].
  assert (Forall (fun col => strip db col = col) (row_cols db tr)) as Hall.
  { unfold row_cols. apply Forall_map, Forall_forall. intros n _. apply get_text_trimmed. }
  destruct (row_cols db tr) as [|c0 rest]; [discriminate|].
  exists c0, rest. split; [reflexivity|]. split; [|split; [exact Hall|]].
  - inversion Hall; assumption.
  - destruct (Bs.find ["h1"%string; "h2"%string; "h3"%string] soup_obj).
    + apply get_text_trimmed.
    + vm_compute. reflexivity.
Qed.

End SerialFacts.

(** ** The first match wins *)
Section FoundFacts.
Variables World Driver Elem : Type.
Variable cfg : setting World Driver Elem.
Local Abbreviation E := (s_env cfg).
Local Abbreviation state := (Web.state World Driver Elem).

Lemma click_case_type_first d labels (st : state) :
  click_case_type cfg d labels st =
  (tt, match first_found cfg (world st) d (map case_type_button_xpath labels) with
       | Some btn => {| world := w_click E Native btn (world st);
                        sent := sent st ++ [Click Native btn] |}
       | None => st
       end).
Proof.
  induction labels as [|l rest IH]; [reflexivity|].
  cbn [click_case_type map first_found].
  unfold bind, find_element, look. cbn [fst snd].
  destruct (w_find_element E (world st) (OfDriver d) (XPATH (case_type_button_xpath l))).
  - reflexivity.
  - exact IH.
Qed.

(** X6: of the case-type buttons, the one of the first label that finds a
    button is clicked, natively and once; where no label finds one, nothing
    happens at all. *)
Theorem case_type_first_found d labels (st : state) :
  click_case_type cfg d labels st =
  (tt, match first_found cfg (world st) d (map case_type_button_xpath labels) with
       | Some btn => {| world := w_click E Native btn (world st);
                        sent := sent st ++ [Click Native btn] |}
       | None => st
       end).
Proof. apply click_case_type_first. Qed.

Lemma click_first_back_first d selectors (st : state) :
  click_first_back cfg d selectors st =
  match first_found cfg (world st) d selectors with
  | Some b => (true, {| world := w_sleep E 2000 (w_click E Script b (world st));
                        sent := sent st ++ [Click Script b] |})
  | None => (false, st)
  end.
Proof.
  induction selectors as [|sel rest IH]; [reflexivity|].
  cbn [click_first_back first_found].
  unfold bind, find_element, look. cbn [fst snd].
  destruct (w_find_element E (world st) (OfDriver d) (XPATH sel)).
  - reflexivity.
  - exact IH.
Qed.

Lemma click_back_button_first d (st : state) :
  click_back_button cfg d st =
  (true, match (if s_selenium cfg then first_found cfg (world st) d back_selectors
                else None) with
         | Some b => {| world := w_sleep E 2000 (w_click E Script b (world st));
                        sent := sent st ++ [Click Script b] |}
         | None => {| world := w_sleep E 2000 (w_back E d (world st));
                      sent := sent st ++ [Back d] |}
         end).
Proof.
  unfold click_back_button, bind. destruct (s_selenium cfg); cbn [negb]; [|reflexivity].
  rewrite click_first_back_first.
  destruct (first_found cfg (world st) d back_selectors); reflexivity.
Qed.

(** X7: going back clicks the element the first of the five selectors that
    finds one finds, and waits two seconds; where none of them finds
    anything, and where Selenium is missing (no selector can then be looked
    up), it uses the browser's own back, and waits two seconds as well.  It
    always answers true. *)
Theorem back_button_first_found d (st : state) :
  click_back_button cfg d st =
  (true, match (if s_selenium cfg then first_found cfg (world st) d back_selectors
                else None) with
         | Some b => {| world := w_sleep E 2000 (w_click E Script b (world st));
                        sent := sent st ++ [Click Script b] |}
         | None => {| world := w_sleep E 2000 (w_back E d (world st));
                      sent := sent st ++ [Back d] |}
         end).
Proof. apply click_back_button_first. Qed.

Lemma click_view_link_of_row_first serial_number links (st : state) :
  click_view_link_of_row cfg serial_number links st =
  match List.find (row_shows cfg (world st) serial_number) links with
  | Some link => (true, {| world := w_sleep E 3000 (w_click E Script link (world st));
                           sent := sent st ++ [Click Script link] |})
  | None => (false, st)
  end.
Proof.
  induction links as [|link rest IH]; [reflexivity|].
  cbn [click_view_link_of_row List.find]. unfold row_shows at 1.
  unfold bind, find_element, text_of, look. cbn [fst snd].
  destruct (w_find_element E (world st) (OfElem link) (XPATH (lit "./ancestor::tr[1]")))
    as [row|]; [|exact IH].
  destruct (contains serial_number (w_text E (world st) row)); [reflexivity | exact IH].
Qed.

(** X8: with Selenium at hand, after its two seconds' wait, the locator
    clicks the first View link, in page order, whose row shows the serial
    label anywhere in its text, and waits three seconds: the row is chosen by
    containment, not by its first cell.  Without Selenium it waits its two
    seconds, looks nothing up, clicks nothing and answers false. *)
Theorem view_link_by_row_text d serial_number (st : state) :
  let w := w_sleep E 2000 (world st) in
  (s_selenium cfg = true ->
   forall link,
     List.find (row_shows cfg w serial_number)
               (w_find_elements E w (OfDriver d) (XPATH VIEW_LINK_XPATH)) = Some link ->
     find_and_click_view_button cfg (Some d) serial_number st =
     (true, {| world := w_sleep E 3000 (w_click E Script link w);
               sent := sent st ++ [Click Script link] |})) /\
  (s_selenium cfg = false ->
   find_and_click_view_button cfg (Some d) serial_number st =
   (false, {| world := w; sent := sent st |})).
Proof.
  intros w. split.
  - intros Hsel link Hfind. unfold find_and_click_view_button.
    unfold bind at 1. unfold time_sleep at 1. unfold act, unit_. cbn [fst snd world sent].
    rewrite Hsel. cbn [negb].
    unfold bind at 1. unfold find_elements, look. cbn [fst snd world sent].
    unfold bind at 1. rewrite click_view_link_of_row_first. cbn [world sent].
    fold w. rewrite Hfind. reflexivity.
  - intros Hsel. unfold find_and_click_view_button.
    unfold bind at 1. unfold time_sleep at 1. unfold act, unit_. cbn [fst snd world sent].
    rewrite Hsel. reflexivity.
Qed.

End FoundFacts.

(** On the listing of the small portal the year of the hearing, taken as a
    serial label, finds the first row. *)
Lemma view_link_by_row_text_witness :
  find_and_click_view_button Portal.config (Some tt) (lit "2024")
    {| world := Portal.Listing; sent := [] |} =
  (true, {| world := Portal.Detail 0; sent := [Click Script (Portal.ViewLink 0)] |}).
Proof.
  apply (proj1 (@view_link_by_row_text _ _ _ Portal.config tt (lit "2024")
                  {| world := Portal.Listing; sent := [] |}) eq_refl (Portal.ViewLink 0)).
  vm_compute. reflexivity.
Defined.

(** ** Attachments *)
Section Downloads.
Variables World Driver Elem : Type.
Variable cfg : setting World Driver Elem.
Local Abbreviation E := (s_env cfg).
Local Abbreviation state := (Web.state World Driver Elem).

Lemma download_linked_pdfs_adds d anchors : forall pdfs (st : state),
  let r := download_linked_pdfs cfg d anchors pdfs st in
  sent (snd r) = sent st /\
  (filter pdf_link anchors = [] -> r = (Some pdfs, st)) /\
  match fst r with
  | Some got =>
      exists new,
        got = pdfs ++ new /\
        length new <= length (filter pdf_link anchors) /\
        Forall (fun p => p <> []) new
  | None =>
      exists a href w,
        In a anchors /\ Bs.get_attr "href" a = Some href /\
        lower_endswith_pdf href = true /\
        urljoin E (w_current_url E w d) href = None
  end.
Proof.
  induction anchors as [|a rest IH]; intros pdfs st; cbv zeta.
  - cbn. split; [reflexivity|]. split; [reflexivity|].
    exists []. rewrite app_nil_r. auto.
  - assert (forall p s res s',
              download_linked_pdfs cfg d rest p s = (res, s') ->
              sent s' = sent s /\
              (filter pdf_link rest = [] -> (res, s') = (Some p, s)) /\
              match res with
              | Some got =>
                  exists new,
                    got = p ++ new /\
                    length new <= length (filter pdf_link rest) /\
                    Forall (fun q => q <> []) new
              | None =>
                  exists a' href w,
                    In a' (a :: rest) /\ Bs.get_attr "href" a' = Some href /\
                    lower_endswith_pdf href = true /\
                    urljoin E (w_current_url E w d) href = None
              end) as IH'.
    { intros p s res s' Hr. destruct (IH p s) as (H1 & H2 & H3).
      rewrite Hr in H1, H2, H3. cbn [fst snd] in H1, H3.
      split; [exact H1|]. split; [exact H2|].
      destruct res; [exact H3|].
      destruct H3 as (a' & href & w & Hin & H). exists a', href, w.
      split; [right; exact Hin | exact H]. }
    clear IH.
    destruct (download_linked_pdfs cfg d (a :: rest) pdfs st) as [res st'] eqn:Hr.
    cbn [fst snd]. revert Hr. cbn [download_linked_pdfs filter].
    assert (pdf_link a = match Bs.get_attr "href" a with
                         | Some h => lower_endswith_pdf h
                         | None => false
                         end) as -> by reflexivity.
    destruct (Bs.get_attr "href" a) as [href|] eqn:Hh; [|apply IH'].
    destruct (lower_endswith_pdf href) eqn:Hp; [|apply IH'].
    unfold bind at 1. unfold look at 1. cbn [fst snd].
    destruct (urljoin E (w_current_url E (world st) d) href) as [joined|] eqn:Hj.
    + unfold bind, download_file, act. cbn [fst snd world sent].
      destruct (w_download E joined (s_download_dir cfg) (world st)) as [dl w1].
      destruct dl as [[|ch local_name]|]; intros Hr; apply IH' in Hr;
        destruct Hr as (H1 & _ & H3); cbn [sent] in H1;
        (split; [exact H1|]); (split; [discriminate|]);
        (destruct res; [|exact H3]); destruct H3 as (new & Hn & Hl & Hf).
      * exists new. cbn [length]. auto.
      * exists ((ch :: local_name) :: new).
        cbn [length]. rewrite Hn, <- app_assoc. split; [reflexivity|].
        split; [lia|]. constructor; [discriminate | exact Hf].
      * exists new. cbn [length]. auto.
    + intros H; injection H as <- <-. split; [reflexivity|]. split; [discriminate|].
      exists a, href, (world st). split; [left; reflexivity|]. auto.
Qed.

(** X9: the attachments of a page.  No command reaches the browser, and
    where no anchor has an address ending in ".pdf" nothing happens at all.
    The loop ends in one of two ways.  Either it returns the paths
    collected: they are added after those already held, none is empty, and
    there are at most as many as anchors with an address ending in ".pdf".
    Or it is left by the exception of [urljoin], and then some anchor has an
    address ending in ".pdf" that does not join with the address of the page
    shown. *)
Theorem downloads_are_pdf_links d anchors : forall pdfs (st : state),
  let r := download_linked_pdfs cfg d anchors pdfs st in
  sent (snd r) = sent st /\
  (filter pdf_link anchors = [] -> r = (Some pdfs, st)) /\
  match fst r with
  | Some got =>
      exists new,
        got = pdfs ++ new /\
        length new <= length (filter pdf_link anchors) /\
        Forall (fun p => p <> []) new
  | None =>
      exists a href w,
        In a anchors /\ Bs.get_attr "href" a = Some href /\
        lower_endswith_pdf href = true /\
        urljoin E (w_current_url E w d) href = None
  end.
Proof. apply download_linked_pdfs_adds. Qed.

End Downloads.

(** ** The commands of a capture *)
Section CaptureLog.
Variables World Driver Elem : Type.
Variable cfg : setting World Driver Elem.
Local Abbreviation E := (s_env cfg).
Local Abbreviation state := (Web.state World Driver Elem).

(** X10: the commands of the capture of a row.  Where the View button is
    not found the browser is sent nothing and the record is marked failed.
    Where it is found and the capture ends with a record, the record is
    marked completed and the browser has been sent exactly five commands:
    the click on the View link, the print of the page, two reads of its
    source, and one way back (a click on a back control, or the browser's
    back).  Where the capture is left by an exception, the browser has been
    sent the click and the print, and with BeautifulSoup at hand the two
    reads, and no way back: it stays on the detail page. *)
Theorem capture_commands d c (st : state) :
  let r := capture_case_details_automated cfg (Some d) c st in
  exists new,
    sent (snd r) = sent st ++ new /\
    match fst r with
    | Some rec =>
        (Status rec = Completed /\
         exists e back_cmd,
           new = [Click Script e; PrintToPDF d; PageSource d; PageSource d; back_cmd] /\
           ((exists b, back_cmd = Click Script b) \/ back_cmd = Back d))
        \/ (Status rec = Failed_No_View_Button /\ new = [])
    | None =>
        exists e,
          new = Click Script e :: PrintToPDF d ::
                (if s_bs4 cfg then [PageSource d; PageSource d] else [])
    end.
Proof.
  cbv zeta.
  destruct (capture_case_details_automated cfg (Some d) c st) as [rec st'] eqn:Hr.
  cbn [fst snd]. revert Hr. unfold capture_case_details_automated. cbv beta zeta.
  unfold bind at 1.
  destruct (found_find_and_click_view_button cfg (Some d) (serial c) st)
    as (n1 & Hs1 & Ht & Hf).
  assert (s_selenium cfg = false ->
          fst (find_and_click_view_button cfg (Some d) (serial c) st) = false) as Hno.
  { intros Hsel. unfold find_and_click_view_button, bind, time_sleep, act, unit_.
    cbn [fst snd]. rewrite Hsel. reflexivity. }
  destruct (find_and_click_view_button cfg (Some d) (serial c) st) as [found st1].
  cbn [fst snd] in *. destruct found.
  - destruct (Ht eq_refl) as [e ->]. clear Ht Hf.
    destruct (s_selenium cfg) eqn:Hsel; [clear Hno | discriminate (Hno eq_refl)].
    unfold save_fullpage_pdf, extract_case_details. rewrite Hsel. cbn [negb orb].
    destruct (s_bs4 cfg) eqn:Hbs; cbn [negb orb].
    + unfold bind, time_sleep, page_soup, act, send, unit_, ret. cbn [fst snd world sent].
      destruct (w_print_to_pdf E d (pdf_path_of cfg (serial c)) (w_sleep E 3000 (world st1)))
        as [pdf_saved w2]. cbn [fst snd world sent].
      match goal with
      | |- context [download_linked_pdfs cfg d ?an ?p ?s] =>
          destruct (download_linked_pdfs_adds cfg d an p s) as (Hsd & _ & _);
          destruct (download_linked_pdfs cfg d an p s) as [[got|] st3]
      end; cbn [fst snd world sent] in *.
      * match goal with
        | |- context [w_save_case E ?row ?w] => destruct (w_save_case E row w) as [case_id w4]
        end.
        cbn [fst snd world sent].
        rewrite click_back_button_first. rewrite Hsel. cbn [fst snd world sent].
        rewrite Hsd, Hs1.
        destruct (first_found cfg w4 d back_selectors) as [b|]; cbn [fst snd world sent];
          intros H; injection H as <- <-; cbn [Status sent];
          eexists; (split; [rewrite <- !app_assoc; cbn [app]; reflexivity|]);
          left; (split; [reflexivity|]); eexists; eexists; (split; [reflexivity|]); eauto.
      * intros H; injection H as <- <-. rewrite Hsd, Hs1.
        eexists. split; [rewrite <- !app_assoc; cbn [app]; reflexivity|].
        exists e. reflexivity.
    + unfold bind, time_sleep, act, send, unit_, ret. cbn [fst snd world sent].
      destruct (w_print_to_pdf E d (pdf_path_of cfg (serial c)) (w_sleep E 3000 (world st1)))
        as [pdf_saved w2]. cbn [fst snd world sent].
      intros H; injection H as <- <-. cbn [sent]. rewrite Hs1.
      eexists. split; [rewrite <- !app_assoc; cbn [app]; reflexivity|].
      exists e. reflexivity.
  - intros H; injection H as <- <-.
    rewrite (Hf eq_refl) in Hs1. exists []. cbn. split; [exact Hs1 | right; auto].
Qed.

End CaptureLog.

(** ** A scrape, end to end *)
Lemma hearing_date_filter_in_range today all_cases :
  (1 <= today < MAXORDINAL)%Z ->
  hearing_date_filter today all_cases = Some (filter (due today) all_cases).
Proof.
  intros Hday. unfold hearing_date_filter, date_add_days.
  destruct (Z.ltb_spec 0 (today + 1)); [|lia].
  destruct (Z.leb_spec (today + 1) MAXORDINAL); [|lia].
  cbn [andb]. rewrite filter_loop_filter. reflexivity.
Qed.

Section Scraping.
Variables World Driver Elem : Type.
Variable cfg : setting World Driver Elem.
Local Abbreviation E := (s_env cfg).
Local Abbreviation state := (Web.state World Driver Elem).
Local Abbreviation rows_of :=
  (extract_cases_from_soup (s_tables cfg) (s_bs4 cfg) (s_dateutil cfg) (s_parse cfg)).

Lemma process_scraping_cases ss (st : state) :
  fst (process_scraping cfg ss st) = (ss, Waiting) \/
  exists all ms,
    fst (process_scraping cfg ss st) =
    (scraped_state ss all ms, match ms with [] => Waiting | _ :: _ => Rerun_Requested end).
Proof.
  destruct (process_scraping cfg ss st) as [r st'] eqn:Hr. cbn [fst].
  revert Hr. unfold process_scraping.
  destruct (driver ss) as [d|] eqn:Hd; [|intros H; injection H as <- <-; left; reflexivity].
  destruct (s_selenium cfg); cbn [negb];
    [|intros H; injection H as <- <-; left; reflexivity].
  unfold bind at 1. unfold find_element at 1. unfold look at 1. cbn [fst snd].
  destruct (w_find_element E (world st) (OfDriver d) (XPATH CAPTCHA_INPUT_XPATH)) as [inp|];
    [|intros H; injection H as <- <-; left; reflexivity].
  destruct (s_bs4 cfg) eqn:Hbs; cbn [negb].
  2:{ unfold bind, time_sleep, send, act, unit_, look. cbn [fst snd world sent].
      rewrite click_case_type_first. cbn [fst snd world sent].
      intros H; injection H as <- <-; left; reflexivity. }
  unfold bind, time_sleep, send, act, unit_, look. cbn [fst snd world sent].
  rewrite click_case_type_first. cbn [fst snd world sent].
  match goal with
  | |- context [scrape_pages cfg ?f d 1 [] ?s] =>
      destruct (scrape_pages cfg f d 1 [] s) as [scraped st2]
  end.
  cbn [fst snd].
  destruct scraped as [all|]; [|intros H; injection H as <- <-; left; reflexivity].
  destruct (hearing_date_filter (w_today E (world st2)) all) as [ms|];
    [|intros H; injection H as <- <-; left; reflexivity].
  intros H; injection H as <- <-.
  right. exists all, ms. unfold scraped_state. rewrite Hd. reflexivity.
Qed.


End Scraping.


(** ** The session state *)
Section Script.
Variables World Driver Elem : Type.
Variable cfg : setting World Driver Elem.
Local Abbreviation E := (s_env cfg).
Local Abbreviation state := (Web.state World Driver Elem).

Lemma well_formed_initial : well_formed (initial_session_state Driver).
Proof.
  unfold well_formed. cbn. repeat split; try lia; try discriminate.
Qed.

Lemma well_formed_process_scraping ss (st : state) :
  well_formed ss -> current_step ss = 3 ->
  well_formed (fst (fst (process_scraping cfg ss st))).
Proof.
  intros Hwf Hstep.
  destruct (process_scraping_cases cfg ss st) as [->|(all & ms & ->)]; [exact Hwf|].
  destruct Hwf as (_ & Hdrv & Hno & _ & Hlen & _).
  destruct (Hno ltac:(lia)) as (_ & Hcap & Hidx).
  unfold well_formed. cbn [fst scraped_state current_step driver matches capture_in_progress
                            current_case_index captured_cases].
  rewrite Hidx in *. destruct ms as [|c ms]; repeat split; try lia; try discriminate; auto;
    try (intros; apply Hdrv; lia); cbn [length]; lia.
Qed.

Lemma well_formed_perform_capture ss (st : state) :
  well_formed ss -> current_step ss = 4 ->
  well_formed (fst (fst (perform_capture cfg ss st))).
Proof.
  intros (Hrange & Hdrv & Hno & Hms & Hlen & Hidx) Hstep. unfold perform_capture.
  destruct (nth_error (matches ss) (current_case_index ss)) as [c|] eqn:Hc.
  - assert (current_case_index ss < length (matches ss)) as Hlt
      by (apply nth_error_Some; rewrite Hc; discriminate).
    unfold bind.
    destruct (capture_case_details_automated cfg (driver ss) c st) as [[r|] st1];
      [|cbn [fst ret]; unfold well_formed; repeat split; auto; lia].
    unfold bind. destruct (time_sleep cfg 1000 st1) as [u st2]. cbn [fst ret].
    unfold well_formed.
    cbn [current_step driver matches capture_in_progress current_case_index captured_cases].
    rewrite length_app. cbn [length]. repeat split; auto; try lia.
  - cbn [fst ret]. unfold well_formed.
    cbn [current_step driver matches capture_in_progress current_case_index captured_cases].
    repeat split; auto; try lia.
Qed.

Lemma well_formed_start (ss : session_state Driver) :
  well_formed ss -> current_step ss = 4 -> well_formed (start_capture ss).
Proof.
  intros (Hrange & Hdrv & Hno & Hms & Hlen & Hidx) Hstep. unfold well_formed, start_capture.
  cbn [current_step driver matches capture_in_progress current_case_index captured_cases length].
  repeat split; auto; try lia.
Qed.

Lemma well_formed_scrape_cases_ui ev ss (st : state) :
  well_formed ss -> well_formed (fst (fst (scrape_cases_ui cfg ev ss st))).
Proof.
  intros Hwf. pose proof Hwf as (Hrange & Hdrv & Hno & Hms & Hlen & Hidx).
  unfold scrape_cases_ui.
  destruct (current_step ss) as [|[|[|[|[|n]]]]] eqn:Hstep; try lia.
  - (* step 1 *)
    destruct ev; try exact Hwf.
    unfold bind, setup_driver.
    destruct (negb (s_selenium cfg)); [exact Hwf|].
    unfold send. destruct (w_new_chrome E (world st)) as [[d|] w1]; [|exact Hwf].
    cbn [fst snd world sent]. destruct (w_get E d ECOURTS_URL w1) as [ok w2].
    cbn [fst ret]. destruct (Hno ltac:(lia)) as (Hm & Hcap & Hi).
    unfold well_formed.
    cbn [current_step driver matches capture_in_progress current_case_index captured_cases].
    destruct ok; repeat split; auto; try lia; try discriminate.
  - (* step 2 *)
    destruct (driver ss) as [d|] eqn:Hd; [|exact Hwf].
    unfold bind. destruct (save_captcha_image cfg d (lit "captcha.png") st) as [f st1].
    destruct ev as [| |v| |]; try exact Hwf.
    + destruct v as [|c v]; [exact Hwf|]. cbn [fst ret].
      destruct (Hno ltac:(lia)) as (Hm & Hcap & Hi).
      unfold well_formed.
      cbn [current_step driver matches capture_in_progress current_case_index captured_cases].
      repeat split; auto; try lia; try discriminate.
    + destruct (save_captcha_image cfg d (lit "captcha_refresh.png") st1) as [f2 st2].
      exact Hwf.
  - (* step 3 *)
    destruct (Hno ltac:(lia)) as (Hm & _). rewrite Hm.
    apply well_formed_process_scraping; assumption.
  - (* step 4 *)
    unfold capture_cases_ui. destruct (capture_in_progress ss).
    + apply well_formed_perform_capture; assumption.
    + unfold display_scraped_cases. destruct ev; try exact Hwf.
      apply well_formed_start; assumption.
Qed.

(** X12: whatever the user does and the world answers, the session state
    stays well formed from the first run on.  In particular step 3 never
    holds matches, so it always scrapes and never shows the table; and the
    records are as many as the rows gone through. *)
Theorem session_state_well_formed evs (st : state) :
  well_formed (fst (run_script cfg evs (initial_session_state Driver) st)).
Proof.
  assert (forall ss (s : state), well_formed ss -> well_formed (fst (run_script cfg evs ss s)))
    as H; [|apply H, well_formed_initial].
  induction evs as [|ev rest IH]; intros ss s Hwf; [exact Hwf|].
  cbn [run_script]. unfold bind.
  pose proof (well_formed_scrape_cases_ui ev s Hwf) as Hstep.
  destruct (scrape_cases_ui cfg ev ss s) as [r s1]. apply IH. exact Hstep.
Qed.

(** Once the capture step is reached there is no way back. *)
Lemma capture_step_kept ev ss (st : state) :
  current_step ss = 4 ->
  let ss' := fst (fst (scrape_cases_ui cfg ev ss st)) in
  current_step ss' = 4 /\ matches ss' = matches ss /\ all_cases ss' = all_cases ss /\
  driver ss' = driver ss.
Proof.
  intros Hstep. cbv zeta. unfold scrape_cases_ui. rewrite Hstep.
  unfold capture_cases_ui. destruct (capture_in_progress ss).
  - unfold perform_capture.
    destruct (nth_error (matches ss) (current_case_index ss)) as [c|].
    + unfold bind.
      destruct (capture_case_details_automated cfg (driver ss) c st) as [[r|] st1];
        [|cbn; auto].
      unfold bind. destruct (time_sleep cfg 1000 st1) as [u st2]. cbn. auto.
    + cbn. auto.
  - unfold display_scraped_cases. destruct ev; cbn; auto.
Qed.

(** X13: once in step 4 the session stays there: no event brings it back
    to an earlier step, and the matches, the rows and the driver are kept. *)
Theorem capture_step_is_final evs : forall ss (st : state),
  current_step ss = 4 ->
  let ss' := fst (run_script cfg evs ss st) in
  current_step ss' = 4 /\ matches ss' = matches ss /\ all_cases ss' = all_cases ss /\
  driver ss' = driver ss.
Proof.
  induction evs as [|ev rest IH]; intros ss st Hstep; cbv zeta; [cbn; auto|].
  cbn [run_script]. unfold bind.
  destruct (capture_step_kept ev ss st Hstep) as (H4 & Hm & Ha & Hd).
  destruct (scrape_cases_ui cfg ev ss st) as [r s1]. cbn [fst] in *.
  destruct (IH (fst r) s1 H4) as (H4' & Hm' & Ha' & Hd').
  rewrite <- Hm, <- Ha, <- Hd. auto.
Qed.

End Script.

(** The small portal, scraped: the buttons of the other steps do nothing. *)
Lemma capture_step_is_final_witness :
  let ss' := fst (run_script Portal.config [Press_Initialize; Press_Start; Rerun; Rerun]
                    portal_scraped portal_listing) in
  current_step ss' = 4 /\ matches ss' = matches portal_scraped /\
  all_cases ss' = all_cases portal_scraped /\ driver ss' = driver portal_scraped.
Proof.
  apply (@capture_step_is_final _ _ _ Portal.config
           [Press_Initialize; Press_Start; Rerun; Rerun] portal_scraped portal_listing).
  reflexivity.
Defined.

(** ** The database *)
Module DbFacts.
Import Db.

Ltac conjs := repeat match goal with |- _ /\ _ => split end.

Lemma fold_max_ge l : forall n, n <= fold_right Nat.max n l.
Proof. induction l as [|x l IH]; intros n; simpl; [lia|]. specialize (IH n). lia. Qed.

Lemma fold_max_in l : forall n x, In x l -> x <= fold_right Nat.max n l.
Proof.
  induction l as [|y l IH]; intros n x [].
  - subst. simpl. lia.
  - simpl. specialize (IH n x H). lia.
Qed.

Lemma next_rowid_fresh A (id_of : A -> nat) (t : table A) :
  last_rowid t < next_rowid id_of t /\
  Forall (fun r => id_of r < next_rowid id_of t) (rows t).
Proof.
  unfold next_rowid. split.
  - pose proof (fold_max_ge (map id_of (rows t)) (last_rowid t)). lia.
  - apply Forall_forall. intros r Hr.
    pose proof (@fold_max_in (map id_of (rows t)) (last_rowid t) (id_of r)
                  (in_map id_of _ _ Hr)). lia.
Qed.

Lemma insert_tidy A (id_of : A -> nat) (mk : nat -> A) (t : table A) :
  (forall id, id_of (mk id) = id) ->
  tidy id_of t -> tidy id_of (snd (insert id_of mk t)).
Proof.
  intros Hmk [Hnd Hle]. destruct (next_rowid_fresh id_of t) as [Hlast Hall].
  unfold insert, tidy. cbn [snd rows last_rowid]. split.
  - rewrite map_app. cbn [map]. rewrite Hmk.
    apply NoDup_app; [exact Hnd | repeat constructor; intros [] | ].
    intros a Ha [<-|[]]. apply in_map_iff in Ha. destruct Ha as (r & Hr & Hin).
    rewrite Forall_forall in Hall. specialize (Hall r Hin). lia.
  - apply Forall_app. split.
    + eapply Forall_impl; [|exact Hall]. intros r Hr. cbn in Hr. lia.
    + constructor; [rewrite Hmk; lia | constructor].
Qed.

Section Calls.
Variable date_str : date -> str.
Variable fs : str -> file.
Variable now : nat.

Local Abbreviation insert_pdf := (Db.insert_pdf fs now).
Local Abbreviation save_case_to_db := (Db.save_case_to_db date_str fs now).

(** What one file adds to the table of files. *)
Lemma insert_pdf_rows case_id file_type (t : table pdf_row) path :
  exists t',
    insert_pdf case_id file_type (Some t) path = Some t' /\
    last_rowid t <= last_rowid t' /\
    (tidy p_id t -> tidy p_id t') /\
    match fs path with
    | Readable data =>
        rows t' = rows t ++
          [{| p_id := next_rowid p_id t; p_case_id := case_id; p_filename := basename path;
              p_file_data := data; p_file_type := file_type; p_uploaded_date := now |}]
    | _ => rows t' = rows t
    end.
Proof.
  unfold Db.insert_pdf. destruct (fs path) as [| |data].
  - exists t. auto.
  - exists t. auto.
  - eexists. split; [reflexivity|]. split; [|split].
    + cbn. pose proof (next_rowid_fresh p_id t). lia.
    + intros Ht. apply insert_tidy; [reflexivity | exact Ht].
    + reflexivity.
Qed.

Lemma insert_pdfs_rows case_id file_type paths : forall (t : table pdf_row),
  exists t' new,
    fold_left (insert_pdf case_id file_type) paths (Some t) = Some t' /\
    rows t' = rows t ++ new /\
    (tidy p_id t -> tidy p_id t') /\
    Forall (fun f => p_case_id f = case_id /\ p_file_type f = file_type) new /\
    length new =
      length (filter (fun p => match fs p with Readable _ => true | _ => false end) paths).
Proof.
  induction paths as [|path rest IH]; intros t.
  - exists t, []. cbn. rewrite app_nil_r. auto.
  - cbn [fold_left filter].
    destruct (insert_pdf_rows case_id file_type t path) as (t1 & -> & _ & Ht1 & Hrows).
    destruct (IH t1) as (t' & new & -> & Hr & Ht & Hall & Hlen).
    destruct (fs path) as [| |data].
    + exists t', new. rewrite Hr, Hrows.
      split; [reflexivity|]. split; [reflexivity|]. split; [auto|]. split; assumption.
    + exists t', new. rewrite Hr, Hrows.
      split; [reflexivity|]. split; [reflexivity|]. split; [auto|]. split; assumption.
    + eexists t', (_ :: new). split; [reflexivity|].
      rewrite Hr, Hrows, <- app_assoc. cbn [app length].
      split; [reflexivity|]. split; [auto|]. split; [|rewrite Hlen; reflexivity].
      constructor; [cbn; auto | exact Hall].
Qed.

(** What a save does to a database whose tables exist. *)
Lemma save_rows r db c p :
  cases db = Some c -> pdf_files db = Some p ->
  exists id row c' p' new,
    save_case_to_db r db = Ok (id, {| cases := Some c'; pdf_files := Some p' |}) /\
    id = next_rowid c_id c /\ c_id row = id /\
    rows c' = rows c ++ [row] /\ last_rowid c' = id /\
    rows p' = rows p ++ new /\
    (tidy p_id p -> tidy p_id p') /\
    Forall (fun f => p_case_id f = id) new /\
    length new = length (stored_files fs r) /\
    (c_serial_number row = Some (serial (row_case r)) /\
     c_cnr_number row = d_cnr (row_details r) /\
     c_pdf_path row = row_pdf_path r /\ c_captured_date row = now) /\
    List.find (fun f => (p_case_id f =? id) && eqb (p_file_type f) (lit "main_pdf")) new =
      match row_pdf_path r with
      | Some ((_ :: _) as path) =>
          match fs path with
          | Readable data =>
              Some {| p_id := next_rowid p_id p;
                      p_case_id := id; p_filename := basename path;
                      p_file_data := data; p_file_type := lit "main_pdf";
                      p_uploaded_date := now |}
          | _ => None
          end
      | _ => None
      end.
Proof.
  intros Hc Hp. unfold Db.save_case_to_db. rewrite Hc, Hp. cbn [insert].
  set (id := next_rowid c_id c).
  set (additional := row_additional_pdfs r).
  assert (forall (t1 : table pdf_row) new1,
             rows t1 = rows p ++ new1 ->
             (tidy p_id p -> tidy p_id t1) ->
             Forall (fun f => p_case_id f = id) new1 ->
             exists p' new,
               fold_left (insert_pdf id (lit "additional_pdf")) additional (Some t1) = Some p' /\
               rows p' = rows p ++ new1 ++ new /\
               (tidy p_id p -> tidy p_id p') /\
               Forall (fun f => p_case_id f = id) (new1 ++ new) /\
               Forall (fun f => p_file_type f = lit "additional_pdf") new /\
               length new =
                 length (filter (fun q => match fs q with Readable _ => true | _ => false end)
                                additional)) as Hrest.
  { intros t1 new1 Hr1 Ht1 Hid1.
    destruct (insert_pdfs_rows id (lit "additional_pdf") additional t1)
      as (p' & new & Hf & Hr & Ht & Hall & Hlen).
    exists p', new. split; [exact Hf|]. split; [rewrite Hr, Hr1, <- app_assoc; reflexivity|].
    split; [auto|]. split; [|split; [|exact Hlen]].
    - apply Forall_app. split; [exact Hid1|].
      eapply Forall_impl; [|exact Hall]. cbn. tauto.
    - eapply Forall_impl; [|exact Hall]. cbn. tauto. }
  assert (forall new : list pdf_row,
             Forall (fun f => p_file_type f = lit "additional_pdf") new ->
             List.find (fun f => (p_case_id f =? id) && eqb (p_file_type f) (lit "main_pdf")) new
             = None) as Hnomain.
  { intros new Hall. induction Hall as [|f new Hf _ IH]; [reflexivity|].
    cbn [List.find]. rewrite Hf. rewrite andb_comm. cbn -[Nat.eqb]. exact IH. }
  unfold stored_files. fold additional.
  destruct (row_pdf_path r) as [[|ch path]|] eqn:Hpath.
  - destruct (Hrest p [] ltac:(rewrite app_nil_r; reflexivity) ltac:(auto) ltac:(constructor))
      as (p' & new & -> & Hr & Ht & Hid & Hty & Hlen).
    eexists id, _, _, p', new. cbn [app] in *.
    conjs; try reflexivity; auto.
  - set (pth := ch :: path) in *.
    destruct (insert_pdf_rows id (lit "main_pdf") p pth) as (t1 & -> & _ & Ht1 & Hrows).
    cbn [app filter].
    destruct (fs pth) as [| |data] eqn:Hfs.
    + destruct (Hrest t1 [] ltac:(rewrite app_nil_r; exact Hrows) ltac:(auto) ltac:(constructor))
        as (p' & new & -> & Hr & Ht & Hid & Hty & Hlen).
      eexists id, _, _, p', new. cbn [app] in *.
      conjs; try reflexivity; auto.
    + destruct (Hrest t1 [] ltac:(rewrite app_nil_r; exact Hrows) ltac:(auto) ltac:(constructor))
        as (p' & new & -> & Hr & Ht & Hid & Hty & Hlen).
      eexists id, _, _, p', new. cbn [app] in *.
      conjs; try reflexivity; auto.
    + destruct (Hrest t1 _ Hrows ltac:(auto) ltac:(repeat constructor))
        as (p' & new & -> & Hr & Ht & Hid & Hty & Hlen).
      eexists id, _, _, p',
        ({| p_id := next_rowid p_id p; p_case_id := id; p_filename := basename pth;
            p_file_data := data; p_file_type := lit "main_pdf";
            p_uploaded_date := now |} :: new).
      cbn [app length] in *.
      conjs; try reflexivity; auto.
      cbn [List.find p_case_id p_file_type]. rewrite Nat.eqb_refl. reflexivity.
  - destruct (Hrest p [] ltac:(rewrite app_nil_r; reflexivity) ltac:(auto) ltac:(constructor))
      as (p' & new & -> & Hr & Ht & Hid & Hty & Hlen).
    eexists id, _, _, p', new. cbn [app] in *.
    conjs; try reflexivity; auto.
Qed.

End Calls.

(** X16: [init_db] creates the tables that are missing, empty, and leaves the
    others as they are, so that running it again changes nothing; after it
    no call of the other database functions raises. *)
Theorem init_db_keeps_rows db :
  init_db (init_db db) = init_db db /\
  (forall t, cases db = Some t -> cases (init_db db) = Some t) /\
  (forall t, pdf_files db = Some t -> pdf_files (init_db db) = Some t) /\
  (cases db = None -> cases (init_db db) = Some {| rows := []; last_rowid := 0 |}) /\
  (pdf_files db = None -> pdf_files (init_db db) = Some {| rows := []; last_rowid := 0 |}) /\
  (forall date_str fs now r, save_case_to_db date_str fs now r (init_db db) <> Raises) /\
  (forall case_id file_type, get_pdf_from_db case_id file_type (init_db db) <> Raises) /\
  get_all_cases (init_db db) <> Raises /\
  clear_database (init_db db) <> Raises.
Proof.
  destruct db as [[c|] [p|]]; unfold init_db; cbn;
    repeat split; try congruence; try discriminate;
    intros; unfold save_case_to_db; cbn; discriminate.
Qed.

Lemma sound_initial : sound (init_db absent).
Proof.
  unfold sound. cbn. do 2 eexists. split; [reflexivity|]. split; [reflexivity|].
  cbn. repeat split; constructor.
Qed.

Lemma save_sound date_str fs now r db :
  sound db ->
  exists id db',
    save_case_to_db date_str fs now r db = Ok (id, db') /\
    sound db' /\ cases_last db < id /\ cases_last db' = id.
Proof.
  intros (c & p & Hc & Hp & Hnd & Hle & Hpnd & Hple & Href).
  destruct (save_rows date_str fs now r db Hc Hp)
    as (id & row & c' & p' & new & Hsave & Hid & Hrow & Hrc & Hlast & Hrp & Htidy & Hnew & _).
  destruct (next_rowid_fresh c_id c) as [Hfresh Hall]. rewrite <- Hid in Hfresh, Hall.
  exists id, {| cases := Some c'; pdf_files := Some p' |}.
  split; [exact Hsave|]. split; [|unfold cases_last; cbn [cases]; rewrite Hc; auto].
  destruct (Htidy (conj Hpnd Hple)) as [Hpnd' Hple'].
  exists c', p'. split; [reflexivity|]. split; [reflexivity|].
  rewrite Hrc, Hlast, map_app. cbn [map]. rewrite Hrow.
  split; [|split; [|split; [exact Hpnd'|split; [exact Hple'|]]]].
  - apply NoDup_app; [exact Hnd | repeat constructor; intros [] |].
    intros a Ha [<-|[]]. apply in_map_iff in Ha. destruct Ha as (x & Hx & Hin).
    rewrite Forall_forall in Hall. specialize (Hall x Hin). lia.
  - apply Forall_app. split.
    + eapply Forall_impl; [|exact Hall]. intros x Hx. cbn in Hx. lia.
    + constructor; [lia | constructor].
  - rewrite Hrp. apply Forall_app. split.
    + eapply Forall_impl; [|exact Href]. intros f Hf. apply in_or_app. left. exact Hf.
    + eapply Forall_impl; [|exact Hnew]. intros f ->. apply in_or_app. right. left. reflexivity.
Qed.

Lemma serve_sound db q :
  sound db -> sound (serve db q) /\ cases_last db <= cases_last (serve db q).
Proof.
  intros Hs. destruct q as [|date_str fs now r|]; cbn [serve].
  - destruct Hs as (c & p & Hc & Hp & H). unfold init_db, cases_last. cbn [cases].
    rewrite Hc, Hp. cbn. split; [|lia]. exists c, p. auto.
  - destruct (save_sound date_str fs now r Hs) as (id & db' & -> & Hs' & Hlt & Heq).
    split; [exact Hs' | lia].
  - destruct Hs as (c & p & Hc & Hp & H). unfold clear_database, cases_last.
    rewrite Hc, Hp. cbn. split; [|lia].
    do 2 eexists. split; [reflexivity|]. split; [reflexivity|].
    cbn. repeat split; constructor.
Qed.

Lemma run_sound qs : forall db, sound db -> sound (fold_left serve qs db).
Proof.
  induction qs as [|q rest IH]; intros db Hs; [exact Hs|].
  cbn [fold_left]. apply IH. apply serve_sound. exact Hs.
Qed.

Lemma saved_ids_sorted qs : forall db,
  sound db ->
  Forall (fun id => cases_last db < id) (saved_ids db qs) /\
  StronglySorted lt (saved_ids db qs).
Proof.
  induction qs as [|q rest IH]; intros db Hs; [split; constructor|].
  cbn [saved_ids].
  destruct (serve_sound q Hs) as [Hs' Hle].
  destruct (IH _ Hs') as [Hall Hsorted].
  assert (Forall (fun id => cases_last db < id) (saved_ids (serve db q) rest)) as Hall'.
  { eapply Forall_impl; [|exact Hall]. intros id Hid. cbn in Hid. lia. }
  destruct q as [|date_str fs now r|]; cbn [app]; try (split; assumption).
  destruct (save_sound date_str fs now r Hs) as (id & db' & Hsave & _ & Hlt & Heq).
  cbn [serve] in *. rewrite Hsave in *. cbn [app]. split.
  - constructor; assumption.
  - constructor; [exact Hsorted|]. rewrite Heq in Hall. exact Hall.
Qed.

(** X17: from a new database on, whatever is saved and cleared, the database
    stays sound (no id held twice, every stored file belonging to a stored
    case), and the ids the saves return grow strictly: an id is never given
    twice, not even after the tables were cleared. *)
Theorem case_ids_never_reused qs :
  sound (fold_left serve qs (init_db absent)) /\
  StronglySorted lt (saved_ids (init_db absent) qs).
Proof.
  split; [apply run_sound, sound_initial | apply saved_ids_sorted, sound_initial].
Qed.

Lemma find_app A (f : A -> bool) l1 l2 :
  List.find f (l1 ++ l2) =
  match List.find f l1 with Some x => Some x | None => List.find f l2 end.
Proof. induction l1 as [|x l1 IH]; cbn; [reflexivity|]. destruct (f x); auto. Qed.

(** X18: in a sound database, the main PDF looked up under the id a save
    has returned is the file of that save, under its base name, when the
    path was given, not empty and readable; otherwise there is none. *)
Theorem main_pdf_round_trip date_str fs now r db id db' :
  sound db ->
  save_case_to_db date_str fs now r db = Ok (id, db') ->
  get_pdf_from_db id (lit "main_pdf") db' =
  Ok match row_pdf_path r with
     | Some ((_ :: _) as path) =>
         match fs path with
         | Readable data => Some (basename path, data)
         | _ => None
         end
     | _ => None
     end.
Proof.
  intros (c & p & Hc & Hp & Hnd & Hle & Hpnd & Hple & Href) Hsave.
  destruct (save_rows date_str fs now r db Hc Hp)
    as (id0 & row & c' & p' & new & Hsave' & Hid & _ & _ & _ & Hrp & _ & _ & _ & _ & Hfind).
  rewrite Hsave in Hsave'. injection Hsave' as -> ->.
  unfold get_pdf_from_db. cbn [pdf_files]. rewrite Hrp, find_app.
  assert (List.find (fun f => (p_case_id f =? id0) && eqb (p_file_type f) (lit "main_pdf"))
                    (rows p) = None) as ->.
  { destruct (next_rowid_fresh c_id c) as [_ Hall]. rewrite <- Hid in Hall.
    clear - Href Hall. induction Href as [|f l Hf _ IH]; [reflexivity|].
    cbn [List.find]. destruct (Nat.eqb_spec (p_case_id f) id0) as [E|_]; [|exact IH].
    exfalso. apply in_map_iff in Hf. destruct Hf as (x & Hx & Hin).
    rewrite Forall_forall in Hall. specialize (Hall x Hin). lia. }
  rewrite Hfind.
  destruct (row_pdf_path r) as [[|ch path]|]; try reflexivity.
  destruct (fs (ch :: path)); reflexivity.
Qed.

Lemma insert_desc_perm x l : Permutation (insert_desc x l) (x :: l).
Proof.
  induction l as [|y l IH]; cbn [insert_desc]; [reflexivity|].
  destruct (c_captured_date y <=? c_captured_date x); [reflexivity|].
  rewrite IH. apply perm_swap.
Qed.

Lemma insert_desc_sorted x l :
  StronglySorted newer_first l -> StronglySorted newer_first (insert_desc x l).
Proof.
  induction l as [|y l IH]; intros Hs; cbn [insert_desc]; [repeat constructor|].
  inversion Hs as [|? ? Hsl Hall]; subst.
  destruct (Nat.leb_spec (c_captured_date y) (c_captured_date x)) as [Hle|Hgt].
  - constructor; [exact Hs|]. constructor; [exact Hle|].
    eapply Forall_impl; [|exact Hall]. unfold newer_first. intros z Hz. lia.
  - constructor; [apply IH; exact Hsl|].
    eapply Permutation_Forall; [symmetry; apply insert_desc_perm|].
    constructor; [unfold newer_first; lia | exact Hall].
Qed.

Lemma get_all_cases_listed db c :
  cases db = Some c ->
  exists l,
    get_all_cases db = Ok l /\ Permutation l (rows c) /\ StronglySorted newer_first l.
Proof.
  intros Hc. unfold get_all_cases. rewrite Hc. eexists. split; [reflexivity|].
  unfold order_by_captured_date_desc. induction (rows c) as [|x l [IHp IHs]]; cbn [fold_right].
  - split; constructor.
  - split; [rewrite insert_desc_perm; constructor; exact IHp | apply insert_desc_sorted, IHs].
Qed.

(** X20: [get_all_cases] returns the rows of the table, each once, the
    newest first. *)
Theorem get_all_cases_newest_first db c :
  cases db = Some c ->
  exists l,
    get_all_cases db = Ok l /\ Permutation l (rows c) /\ StronglySorted newer_first l.
Proof. apply get_all_cases_listed. Qed.

(** X19: a save into a database whose tables exist does not raise.  It adds
    one row to the cases and one row to the files for each file of the call
    that can be read; and the case is then listed once more, under the id
    the save returned, with the serial label, the CNR number, the path and
    the time of the call. *)
Theorem saved_case_is_listed date_str fs now r db n m :
  counts db = Ok (n, m) ->
  exists id db' row l,
    save_case_to_db date_str fs now r db = Ok (id, db') /\
    counts db' = Ok (S n, m + length (stored_files fs r)) /\
    get_all_cases db' = Ok l /\ In row l /\
    c_id row = id /\
    c_serial_number row = Some (serial (row_case r)) /\
    c_cnr_number row = d_cnr (row_details r) /\
    c_pdf_path row = row_pdf_path r /\
    c_captured_date row = now.
Proof.
  unfold counts. destruct (cases db) as [c|] eqn:Hc; [|discriminate].
  destruct (pdf_files db) as [p|] eqn:Hp; [|discriminate].
  intros H; injection H as <- <-.
  destruct (save_rows date_str fs now r db Hc Hp)
    as (id & row & c' & p' & new & Hsave & _ & Hrow & Hrc & _ & Hrp & _ & _ & Hlen &
        (H1 & H2 & H3 & H4) & _).
  destruct (@get_all_cases_listed {| cases := Some c'; pdf_files := Some p' |} c' eq_refl)
    as (l & Hl & Hperm & _).
  exists id, {| cases := Some c'; pdf_files := Some p' |}, row, l.
  split; [exact Hsave|]. split.
  { cbn [cases pdf_files]. rewrite Hrc, Hrp, !length_app, Hlen. cbn [length].
    f_equal. f_equal; lia. }
  split; [exact Hl|]. split; [|auto].
  eapply Permutation_in; [symmetry; exact Hperm|]. rewrite Hrc. apply in_or_app. right.
  left. reflexivity.
Qed.

End DbFacts.

(** ** Without Selenium; the CAPTCHA image *)
Section NoSelenium.
Variables World Driver Elem : Type.
Variable cfg : setting World Driver Elem.
Local Abbreviation state := (Web.state World Driver Elem).

(** X14: without Selenium a session in step 1 stays as it is, and so does
    the world: no browser is started, nothing is sent, no step is taken. *)
Theorem no_selenium_no_session evs : forall ss (st : state),
  s_selenium cfg = false ->
  current_step ss = 1 ->
  run_script cfg evs ss st = (ss, st).
Proof.
  induction evs as [|ev rest IH]; intros ss st Hsel Hstep; [reflexivity|].
  cbn [run_script]. unfold bind.
  assert (scrape_cases_ui cfg ev ss st = ((ss, Waiting), st)) as ->.
  { unfold scrape_cases_ui. rewrite Hstep. destruct ev; try reflexivity.
    unfold bind, setup_driver. rewrite Hsel. reflexivity. }
  cbn [fst]. apply IH; assumption.
Qed.

(** X15: saving the CAPTCHA image answers with the path it was given or
    with nothing, and sends the browser at most one command: a screenshot of
    the image to that path, on which it answers with the path. *)
Theorem captcha_image_saved d save_path (st : state) :
  let r := save_captcha_image cfg d save_path st in
  (fst r = None \/ fst r = Some save_path) /\
  (sent (snd r) = sent st \/
   exists img, sent (snd r) = sent st ++ [Screenshot img save_path] /\
               fst r = Some save_path).
Proof.
  cbv zeta. destruct (save_captcha_image cfg d save_path st) as [f st'] eqn:Hr.
  cbn [fst snd]. revert Hr. unfold save_captcha_image.
  destruct (negb (s_selenium cfg)); [intros H; injection H as <- <-; auto|].
  unfold bind, find_element, look. cbn [fst snd].
  destruct (w_find_element (s_env cfg) (world st) (OfDriver d) (XPATH CAPTCHA_IMG_XPATH))
    as [img|]; [|intros H; injection H as <- <-; auto].
  destruct (w_get_attribute (s_env cfg) (world st) img "src") as [[|c src]|];
    try (intros H; injection H as <- <-; auto; fail).
  destruct (startswith (c :: src) (lit "data:")).
  - unfold send, unit_, ret. cbn [fst snd world sent].
    intros H; injection H as <- <-. cbn [sent]. split; [auto|]. right. eauto.
  - unfold act, ret.
    destruct (w_fetch_image (s_env cfg) d (c :: src) save_path (world st)) as [ok w1].
    cbn [fst snd]. intros H; injection H as <- <-. cbn [sent].
    destruct ok; auto.
Qed.

End NoSelenium.

(** The session of the small portal, on a machine without Selenium. *)
Lemma no_selenium_no_session_witness :
  run_script portal_without_selenium Portal.session (initial_session_state unit) Portal.start =
  (initial_session_state unit, Portal.start).
Proof. apply no_selenium_no_session; reflexivity. Defined.

Import Db DbFacts.

(** One case saved into a new database: its page comes back. *)
Lemma main_pdf_round_trip_witness :
  get_pdf_from_db 1 (lit "main_pdf") (serve fresh_db (Save iso_day one_file 0 one_case)) =
  Ok (Some (lit "serial_1.pdf", [Byte.x25])).
Proof.
  apply (@main_pdf_round_trip iso_day one_file 0 one_case fresh_db 1
           (serve fresh_db (Save iso_day one_file 0 one_case))).
  - apply sound_initial.
  - vm_compute. reflexivity.
Defined.

(** Two saves, five and nine seconds in: the later one is listed first. *)
Lemma get_all_cases_newest_first_witness :
  exists l,
    get_all_cases two_saves = Ok l /\ Permutation l (rows two_saves_cases) /\
    StronglySorted newer_first l.
Proof.
  apply (@get_all_cases_newest_first two_saves two_saves_cases). reflexivity.
Defined.

(** One case saved into a new database, with its page. *)
Lemma saved_case_is_listed_witness :
  exists id db' row l,
    save_case_to_db iso_day one_file 0 one_case fresh_db = Ok (id, db') /\
    counts db' = Ok (1, 0 + length (stored_files one_file one_case)) /\
    get_all_cases db' = Ok l /\ In row l /\
    c_id row = id /\
    c_serial_number row = Some (serial (row_case one_case)) /\
    c_cnr_number row = d_cnr (row_details one_case) /\
    c_pdf_path row = row_pdf_path one_case /\
    c_captured_date row = 0.
Proof.
  apply (@saved_case_is_listed iso_day one_file 0 one_case fresh_db 0 0). reflexivity.
Defined.
